(** * sc_warts.py: the warts capture decoder, embedded and verified

    The development follows [src/sc_warts.py] (class [WartsReader]).
    The reader object is a record, every method is a function in a small
    state-and-exception monad over that record, dictionaries are [gmap]s and
    the byte source [self.fd] is the list of bytes still to be read.  What
    the reader prints ([verbose], [debug], the diagnostics in front of an
    exit) is left out, and so is [warts_open], whose result is the byte
    source. *)

From Stdlib Require Import ZArith List String Lia DecimalString HexadecimalString.
From stdpp Require Import gmap strings list fin_maps sorting.

Local Open Scope Z_scope.

(** ** Bytes and Python values *)

Abbreviation bytes := (list Byte.byte).

(** [ord(b)] of a one-character Python 2 string. *)
Definition ord (b : Byte.byte) : Z := Z.of_N (Byte.to_N b).

(** A Python 2 [str] literal as the bytes it holds. *)
Definition pystr (s : string) : bytes := list_byte_of_string s.

(** ["%d" % n] *)
Definition fmt_d (n : Z) : bytes := pystr (DecimalString.NilZero.string_of_int (Z.to_int n)).

(** The values the field decoders return: [int], [str], and the [float]
    of [read_timeval], which is kept as the two integers it is computed
    from ([sec + usec/1000000.0]). *)
Inductive pyval :=
| VInt (n : Z)
| VStr (s : bytes)
| VFloat (sec usec : Z).

(** ** Exceptions

    The source raises through [struct.unpack] on a short buffer
    ([struct.error]), through [assert], through [sys.exit(-1)] and through
    [socket.inet_ntop] on a buffer of the wrong length.  An [assert] and a
    [sys.exit] carry the place they are written at. *)
Inductive assertion :=
| assert_trace_end        (* read_trace:    assert (end == 0) *)
| assert_magic            (* read_header:   assert(magic == 0x1205) *)
| assert_addr_id          (* read_old_address: assert(addr_id % 255 == id_mod) *)
| assert_old_addr_type    (* read_old_address: assert False *)
| assert_addr_type        (* read_address:  assert False *)
| assert_addr_known.      (* read_referenced_address: assert (addr_id in self.address_ref) *)

Inductive exit_site :=
| exit_unknown_flag       (* read_flags:   ** UNKNOWN FLAG *)
| exit_unknown_address    (* read_address: couldn't find referenced address *)
| exit_icmpext.           (* read_icmpext: extension that is not MPLS *)

Inductive exn :=
| StructError
| AssertionError (a : assertion)
| SystemExit (x : exit_site)
| ValueError
| TypeError
| OutOfFuel.  (* no Python exception: a loop bound of the model ran out;
                 shown unreachable below *)

(** ** The reader object *)

(** [self.state], a dictionary with six fixed keys. *)
Record list_cycle_state := {
  wlistid : Z; listid : Z; wcycleid : Z; cycleid : Z;
  name : bytes; start : Z
}.

Record WartsReader := {
  address_ref : gmap Z bytes;
  deprecated_addresses : bool;
  fd : bytes;
  record_len : Z;
  state : list_cycle_state
}.

Definition set_fd (l : bytes) (r : WartsReader) : WartsReader :=
  {| address_ref := address_ref r; deprecated_addresses := deprecated_addresses r;
     fd := l; record_len := record_len r; state := state r |}.

Definition set_address_ref (m : gmap Z bytes) (r : WartsReader) : WartsReader :=
  {| address_ref := m; deprecated_addresses := deprecated_addresses r;
     fd := fd r; record_len := record_len r; state := state r |}.

Definition set_deprecated_addresses (b : bool) (r : WartsReader) : WartsReader :=
  {| address_ref := address_ref r; deprecated_addresses := b;
     fd := fd r; record_len := record_len r; state := state r |}.

Definition set_record_len (n : Z) (r : WartsReader) : WartsReader :=
  {| address_ref := address_ref r; deprecated_addresses := deprecated_addresses r;
     fd := fd r; record_len := n; state := state r |}.

Definition set_state (s : list_cycle_state) (r : WartsReader) : WartsReader :=
  {| address_ref := address_ref r; deprecated_addresses := deprecated_addresses r;
     fd := fd r; record_len := record_len r; state := s |}.

(** [WartsReader.__init__] on an opened file holding [contents]. *)
Definition init (contents : bytes) : WartsReader :=
  {| address_ref := ∅; deprecated_addresses := false; fd := contents;
     record_len := 0;
     state := {| wlistid := 0; listid := 0; wcycleid := 0; cycleid := 0;
                 name := []; start := 0 |} |}.

(** ** The monad of methods *)

Inductive result (A : Type) :=
| Ok (a : A) (r : WartsReader)
| Raise (e : exn).
Arguments Ok {A} a r.
Arguments Raise {A} e.

Definition M (A : Type) : Type := WartsReader → result A.

Definition ret {A} (a : A) : M A := λ r, Ok a r.
Definition raise {A} (e : exn) : M A := λ _, Raise e.
Definition bind {A B} (m : M A) (k : A → M B) : M B :=
  λ r, match m r with Ok a r' => k a r' | Raise e => Raise e end.
Definition get : M WartsReader := λ r, Ok r r.
Definition modify (f : WartsReader → WartsReader) : M unit := λ r, Ok tt (f r).

Notation "x <- c1 ;; c2" := (bind c1 (λ x, c2))
  (at level 100, c1 at next level, right associativity).
Notation "c1 ;;; c2" := (bind c1 (λ _, c2))
  (at level 100, right associativity).

(** ** Primitive reads *)

(** [f.read(n)]: up to [n] bytes, fewer at the end of the file. *)
Definition fd_read (n : nat) : M bytes :=
  λ r, Ok (take n (fd r)) (set_fd (drop n (fd r)) r).

(** [struct.unpack] for the formats the reader uses; [None] is [struct.error]. *)
Definition unpack_B (buf : bytes) : option Z :=
  match buf with [b] => Some (ord b) | _ => None end.

Definition unpack_H_be (buf : bytes) : option Z :=
  match buf with
  | [b0; b1] => Some (Z.lor (Z.shiftl (ord b0) 8) (ord b1))
  | _ => None
  end.

Definition unpack_I_be (buf : bytes) : option Z :=
  match buf with
  | [b0; b1; b2; b3] =>
      Some (Z.lor (Z.shiftl (ord b0) 24)
           (Z.lor (Z.shiftl (ord b1) 16)
           (Z.lor (Z.shiftl (ord b2) 8) (ord b3))))
  | _ => None
  end.

Definition unpack_HHI_be (buf : bytes) : option (Z * Z * Z) :=
  match unpack_H_be (take 2 buf), unpack_H_be (take 2 (drop 2 buf)),
        unpack_I_be (drop 4 buf) with
  | Some magic, Some obj, Some len => Some (magic, obj, len)
  | _, _, _ => None
  end.

Definition of_unpack {A} (o : option A) : M A :=
  match o with Some a => ret a | None => raise StructError end.

Definition read_uint8_t : M Z := buf <- fd_read 1 ;; of_unpack (unpack_B buf).
Definition read_uint16_t : M Z := buf <- fd_read 2 ;; of_unpack (unpack_H_be buf).
Definition read_uint32_t : M Z := buf <- fd_read 4 ;; of_unpack (unpack_I_be buf).

Definition read_timeval : M pyval :=
  sec <- read_uint32_t ;;
  usec <- read_uint32_t ;;
  ret (VFloat sec usec).

(** [read_string]: the [while True] loop reads one byte per turn, so it is
    a recursion on the bytes left: it stops at a null byte, which it
    consumes, and at the end of the file. *)
Fixpoint read_string_loop (l : bytes) (s : bytes) : bytes * bytes :=
  match l with
  | [] => (s, [])
  | b :: l' => if ord b =? 0 then (s, l') else read_string_loop l' (s ++ [b])
  end.

Definition read_string : M bytes :=
  λ r, let '(s, l) := read_string_loop (fd r) [] in Ok s (set_fd l r).

(** [more_flags] and [bit_set] *)
Definition more_flags (b : Z) : bool := Z.land b 0x80 =? 0x80.
Definition bit_set (b : Z) (i : Z) : bool := Z.land (Z.shiftr b (i - 1)) 0x01 =? 0x01.

(** The callbacks a schema of [__init__] may name for a field: the methods
    [read_uint8_t], [read_string], ... as values. *)
Inductive read_cb :=
| cb_read_uint8_t | cb_read_uint16_t | cb_read_uint32_t | cb_read_string
| cb_read_timeval | cb_read_address | cb_read_referenced_address | cb_read_icmpext.

(** ** The host

    Two things the reader takes from the machine it runs on rather than from
    this repository: [socket.inet_ntop], which renders a packed address as
    text and raises on a buffer of the wrong length ([None]), and the byte
    order of [struct.unpack('I', ...)], whose format has no byte-order
    prefix and is therefore the host's. *)

Inductive family := AF_INET | AF_INET6.

(** A host to run the reader on: a little-endian machine whose [inet_ntop]
    prints four bytes as a dotted quad and sixteen bytes as eight groups of
    hexadecimal digits (without the [::] shorthand of the C library). *)
Module Host.

Fixpoint join (sep : bytes) (l : list bytes) : bytes :=
  match l with
  | [] => []
  | [x] => x
  | x :: l' => x ++ sep ++ join sep l'
  end.

Definition fmt_x (n : Z) : bytes :=
  pystr (HexadecimalString.NilZero.string_of_uint (N.to_hex_uint (Z.to_N n))).

Fixpoint groups (l : bytes) : list Z :=
  match l with
  | hi :: lo :: l' => (ord hi * 256 + ord lo) :: groups l'
  | _ => []
  end.

Definition inet_ntop (af : family) (addr : bytes) : option bytes :=
  match af with
  | AF_INET =>
      if (length addr =? 4)%nat then Some (join (pystr ".") (map (λ b, fmt_d (ord b)) addr))
      else None
  | AF_INET6 =>
      if (length addr =? 16)%nat then Some (join (pystr ":") (map fmt_x (groups addr)))
      else None
  end.

Definition little_endian : bool := true.

End Host.

(** Streams and values the properties are run on at the end of the file. *)
Module Samples.
Import Byte.

(** A hop flag set of two flag bytes: flag 7 ([icmp]) in the first, flag 3
    of the second ([ipid], position 9), then the parameter length and the
    two fields. *)
Definition two_flag_bytes : bytes := [xc0; x04; x00; x04; x08; x03; x12; x34].
Definition two_fields : gmap string pyval :=
  <["ipid"%string := VInt 0x1234]> (<["icmp"%string := VInt 0x0803]> ∅).

(** The body of a trace object: no flag, one hop without flags, the end
    marker; and the same with a marker that is not zero. *)
Definition trace_one_hop : bytes := [x00; x00; x01; x00; x00; x00].
Definition trace_bad_end : bytes := [x00; x00; x01; x00; x00; x01].
Definition hop_defaults : gmap string pyval :=
  <["qttl"%string := VInt 1]> (<["ipid"%string := VInt 0]> ∅).

(** Hops whose only field is [icmp = 0x0803], on two flag bytes and on one. *)
Definition hop_with_icmp : bytes := [xc0; x00; x00; x02; x08; x03].
Definition hop_icmp_only : bytes := [x40; x00; x02; x08; x03].
Definition hop_icmp_split : gmap string pyval :=
  <["icmp-code"%string := VInt 3]> (<["icmp-type"%string := VInt 8]>
    (<["qttl"%string := VInt 1]> (<["ipid"%string := VInt 0]> ∅))).

(** A file that holds one deprecated address object, 192.0.2.1 under the
    embedded id 1, and the reader once it has taken it. *)
Definition old_address_file : bytes :=
  [x12; x05; x00; x05; x00; x00; x00; x06; x01; x01; xc0; x00; x02; x01].
Definition after_old_address : WartsReader :=
  set_record_len 6 (set_deprecated_addresses true
    (set_address_ref {[ 1 := pystr "192.0.2.1" ]} (init []))).

(** The bodies of two deprecated address objects for an empty table: the
    embedded id is 2 in the first and 1 in the second. *)
Definition old_address_id_2 : bytes := [x02; x01; xc0; x00; x02; x01].
Definition old_address_id_1 : bytes := [x01; x01; xc0; x00; x02; x01].

(** An ICMP extension field: total length 8, one extension of class 1 and
    type 1 with one unit of payload. *)
Definition icmpext_one_label : bytes :=
  [x00; x08; x00; x04; x01; x01; x12; x34; x56; x78].

(** A schema of one field and a flag set with flags 1 and 2. *)
Definition one_field : list (string * read_cb) := [("a"%string, cb_read_uint8_t)].
Definition flags_1_and_2 : bytes := [x03; x00; x01; x2a].
(** The same flag set in a stream that ends behind the parameter length. *)
Definition flags_1_and_2_cut : bytes := [x03; x00; x01].

(** A file that holds one list object (ids 1 and 2, the name "d", no
    flag) and nothing else. *)
Definition list_object_file : bytes :=
  [x12; x05; x00; x01; x00; x00; x00; x0b;
   x00; x00; x00; x01; x00; x00; x00; x02; x64; x00; x00].

(** A file that holds one trace object (no flag, one hop without flags)
    and two bytes more. *)
Definition trace_object_file : bytes :=
  [x12; x05; x00; x06; x00; x00; x00; x06;
   x00; x00; x01; x00; x00; x00; x12; x05].

(** A file that holds the header of an object of type 8 and nothing else;
    and eight bytes that do not start with the magic number. *)
Definition unsupported_object_file : bytes :=
  [x12; x05; x00; x08; x00; x00; x00; x00].
Definition bad_magic_file : bytes :=
  [x12; x06; x00; x01; x00; x00; x00; x00].

(** The body of a trace whose flags hold the two embedded addresses
    192.0.2.1 and 192.0.2.2 ([srcaddr] and [dstaddr], flags 26 and 27), and
    no hop. *)
Definition trace_embedded : bytes :=
  [x80; x80; x80; x30; x00; x0c;
   x04; x01; xc0; x00; x02; x01;
   x04; x01; xc0; x00; x02; x02;
   x00; x00; x00; x00].

(** The body of a trace that names its source by the id 1 ([srcipid],
    flag 3) and has one hop that names its address by the same id
    ([addrid], flag 1). *)
Definition trace_referenced : bytes :=
  [x04; x00; x04; x00; x00; x00; x01;
   x00; x01; x01; x00; x04; x00; x00; x00; x01; x00; x00].

(** The body of a ping with no flag and two replies, the first without
    flags and the second with [flags = 64]. *)
Definition ping_two_replies : bytes := [x00; x00; x02; x00; x02; x00; x01; x40].

(** An embedded address, 192.0.2.1, with one byte behind it; a reference
    to the id 0 with one byte behind it; and the table that holds the
    address under that id. *)
Definition address_embedded : bytes := [x04; x01; xc0; x00; x02; x01; x07].
Definition address_by_id_0 : bytes := [x00; x00; x00; x00; x00; x09].
Definition table_id_0 : gmap Z bytes := {[ 0 := [xc0; x00; x02; x01] ]}.

(** The bodies of two traces with no flag: one with two hops, the first
    [hop_with_icmp] and the second without flags, and one with the hop
    [hop_icmp_only]. *)
Definition trace_two_hops : bytes :=
  [x00; x00; x02] ++ hop_with_icmp ++ [x00; x00; x00].
Definition trace_icmp_hop : bytes :=
  [x00; x00; x01] ++ hop_icmp_only ++ [x00; x00].

(** A file of two trace objects: the first with the two embedded
    addresses, the second with one hop without flags; and the reader
    between the two. *)
Definition two_traces_file : bytes :=
  [x12; x05; x00; x06; x00; x00; x00; x16] ++ trace_embedded
  ++ [x12; x05; x00; x06; x00; x00; x00; x06] ++ trace_one_hop.
Definition after_first_trace : WartsReader :=
  set_record_len 22
    (set_address_ref (<[ 1 := [xc0; x00; x02; x02] ]> table_id_0)
       (init ([x12; x05; x00; x06; x00; x00; x00; x06] ++ trace_one_hop))).

(** A file of a deprecated address object, 192.0.2.1 under the id 1, and a
    trace object that names its source and the address of its one hop by
    that id. *)
Definition deprecated_trace_file : bytes :=
  old_address_file ++ [x12; x05; x00; x06; x00; x00; x00; x12] ++ trace_referenced.

(** A file that holds an object of type 8 whose body, of 19 bytes, reads
    as a list object. *)
Definition unsupported_with_body_file : bytes :=
  [x12; x05; x00; x08; x00; x00; x00; x13] ++ list_object_file.

(** An ICMP extension field whose one extension has class 2. *)
Definition icmpext_class_2 : bytes :=
  [x00; x08; x00; x04; x02; x01; x12; x34; x56; x78].

End Samples.

Section Warts.

Variable inet_ntop : family → bytes → option bytes.
Variable little_endian : bool.   (* sys.byteorder == 'little' *)

Definition unpack_I_native (buf : bytes) : option Z :=
  match buf with
  | [s0; s1; s2; s3] =>
      if little_endian
      then Some (Z.lor (ord s0) (Z.lor (Z.shiftl (ord s1) 8)
                 (Z.lor (Z.shiftl (ord s2) 16) (Z.shiftl (ord s3) 24))))
      else Some (Z.lor (ord s3) (Z.lor (Z.shiftl (ord s2) 8)
                 (Z.lor (Z.shiftl (ord s1) 16) (Z.shiftl (ord s0) 24))))
  | _ => None
  end.

Definition of_inet_ntop (af : family) (addr : bytes) : M bytes :=
  match inet_ntop af addr with Some quad => ret quad | None => raise ValueError end.

(** ** Addresses *)

Definition read_old_address : M unit :=
  r <- get ;;
  let addr_id := Z.of_nat (size (address_ref r)) + 1 in
  id_mod <- read_uint8_t ;;
  typ <- read_uint8_t ;;
  if negb (addr_id mod 255 =? id_mod) then raise (AssertionError assert_addr_id)
  else
    quad <- (if typ =? 0x01 then addr <- fd_read 4 ;; of_inet_ntop AF_INET addr
             else if typ =? 0x02 then addr <- fd_read 16 ;; of_inet_ntop AF_INET6 addr
             else raise (AssertionError assert_old_addr_type)) ;;
    r <- get ;;
    modify (set_address_ref (<[addr_id := quad]> (address_ref r))).

Definition read_address : M bytes :=
  len <- read_uint8_t ;;
  ta <- (if negb (len =? 0) then
           typ <- read_uint8_t ;;
           addr <- fd_read (Z.to_nat len) ;;
           r <- get ;;
           let addr_id := Z.of_nat (size (address_ref r)) in
           modify (set_address_ref (<[addr_id := addr]> (address_ref r))) ;;;
           ret (typ, addr)
         else
           addr_id <- read_uint32_t ;;
           r <- get ;;
           match address_ref r !! addr_id with
           | Some addr => ret (0, addr)
           | None => raise (SystemExit exit_unknown_address)
           end) ;;
  let typ := fst ta in
  let addr := snd ta in
  let typ :=
    if typ =? 0 then
      let typ := if (length addr =? 4)%nat then 1 else typ in
      if (length addr =? 16)%nat then 2 else typ
    else typ in
  if typ =? 1 then of_inet_ntop AF_INET addr
  else if typ =? 2 then of_inet_ntop AF_INET6 addr
  else raise (AssertionError assert_addr_type).

Definition read_referenced_address : M bytes :=
  addr_id <- read_uint32_t ;;
  r <- get ;;
  match address_ref r !! addr_id with
  | Some addr => ret addr
  | None => raise (AssertionError assert_addr_known)
  end.

(** ** ICMP extensions *)

Record mpls := { mpls_ttl : Z; mpls_s : Z; mpls_exp : Z; mpls_label : Z }.

(** The integers [parse_mpls_icmpext] computes from the four bytes. *)
Definition mpls_of_u32 (u32 : Z) : mpls :=
  let b0 := Z.land (Z.shiftr u32 0) 0xFF in
  let b1 := Z.land (Z.shiftr u32 8) 0xFF in
  let b2 := Z.land (Z.shiftr u32 16) 0xFF in
  let b3 := Z.land (Z.shiftr u32 24) 0xFF in
  {| mpls_s := Z.land b2 0x01;
     mpls_ttl := b3;
     mpls_exp := Z.land (Z.shiftr b2 1) 0x07;
     mpls_label := Z.shiftl b0 12 + Z.shiftl b1 4 + Z.land (Z.shiftr b2 4) 0xFF |}.

(** ["mpls ext ttl: %d, s: %d, exp: %d, label: %d" % (...)] *)
Definition mpls_extension (m : mpls) : bytes :=
  pystr "mpls ext ttl: " ++ fmt_d (mpls_ttl m) ++ pystr ", s: " ++ fmt_d (mpls_s m)
  ++ pystr ", exp: " ++ fmt_d (mpls_exp m) ++ pystr ", label: " ++ fmt_d (mpls_label m).

Definition parse_mpls_icmpext (ie : bytes) : M bytes :=
  u32 <- of_unpack (unpack_I_native ie) ;;
  ret (mpls_extension (mpls_of_u32 u32)).

(** The inner [while ie_dl_read >= 4] loop.  [fuel] bounds the number of
    turns; [Z.to_nat ie_dl] is enough (lemma [read_icmpext_mpls_fuel]). *)
Fixpoint read_icmpext_mpls (fuel : nat) (ie_dl_read : Z) (ret_string : bytes) : M bytes :=
  if 4 <=? ie_dl_read then
    match fuel with
    | O => raise OutOfFuel
    | S fuel =>
        buf <- fd_read 4 ;;
        ext <- parse_mpls_icmpext buf ;;
        read_icmpext_mpls fuel (ie_dl_read - 4) (ret_string ++ ext ++ [Byte.x0a])
    end
  else ret ret_string.

(** The outer [while tot_len > 0] loop. *)
Fixpoint read_icmpext_loop (fuel : nat) (tot_len : Z) (ret_string : bytes) : M bytes :=
  if 0 <? tot_len then
    match fuel with
    | O => raise OutOfFuel
    | S fuel =>
        ie_dl <- read_uint16_t ;;
        ie_cn <- read_uint8_t ;;
        ie_ct <- read_uint8_t ;;
        if (ie_cn =? 1) && (ie_ct =? 1) then
          ret_string <- read_icmpext_mpls (Z.to_nat ie_dl) ie_dl ret_string ;;
          read_icmpext_loop fuel (tot_len - 4 - ie_dl) ret_string
        else
          buf <- fd_read (Z.to_nat ie_dl) ;;
          raise (SystemExit exit_icmpext)
    end
  else ret ret_string.

Definition read_icmpext : M bytes :=
  tot_len <- read_uint16_t ;;
  read_icmpext_loop (Z.to_nat tot_len) tot_len [].

(** ** Flag sets *)

(** [read_cb()] / [read_cb(self.fd)] *)
Definition call (cb : read_cb) : M pyval :=
  match cb with
  | cb_read_uint8_t => n <- read_uint8_t ;; ret (VInt n)
  | cb_read_uint16_t => n <- read_uint16_t ;; ret (VInt n)
  | cb_read_uint32_t => n <- read_uint32_t ;; ret (VInt n)
  | cb_read_string => s <- read_string ;; ret (VStr s)
  | cb_read_timeval => read_timeval
  | cb_read_address => s <- read_address ;; ret (VStr s)
  | cb_read_referenced_address => s <- read_referenced_address ;; ret (VStr s)
  | cb_read_icmpext => s <- read_icmpext ;; ret (VStr s)
  end.

Definition bits_of_flag (flag : Z) : list bool :=
  map (bit_set flag) [1; 2; 3; 4; 5; 6; 7].

(** The [while True] loop over the flag bytes reads one byte per turn: a
    recursion on the bytes left.  [None] is the [struct.error] of
    [read_uint8_t] at the end of the file. *)
Fixpoint read_flags_bytes (l : bytes) (flags_set : list bool) : option (list bool * Z * bytes) :=
  match l with
  | [] => None
  | b :: l' =>
      let flag := ord b in
      let flags_set := flags_set ++ bits_of_flag flag in
      if negb (more_flags flag) then Some (flags_set, flag, l')
      else read_flags_bytes l' flags_set
  end.

(** The [for i in range(len(flags_set))] loop, from index [i] on. *)
Fixpoint read_flags_fields (flag_defines : list (string * read_cb))
    (flags_set : list bool) (i : nat) (flags : gmap string pyval) : M (gmap string pyval) :=
  match flags_set with
  | [] => ret flags
  | b :: flags_set' =>
      if b then
        match flag_defines !! i with
        | None => raise (SystemExit exit_unknown_flag)   (* i >= len(flag_defines) *)
        | Some (fname, cb) =>
            val <- call cb ;;
            read_flags_fields flag_defines flags_set' (S i) (<[fname := val]> flags)
        end
      else read_flags_fields flag_defines flags_set' (S i) flags
  end.

Definition read_flags (flag_defines : list (string * read_cb)) : M (gmap string pyval) :=
  λ r,
    match read_flags_bytes (fd r) [] with
    | None => Raise StructError
    | Some (flags_set, flag, l) =>
        (if (0 <? flag) || (8 <? length flags_set)%nat then
           paramlen <- read_uint16_t ;;
           read_flags_fields flag_defines flags_set 0 ∅
         else ret ∅) (set_fd l r)
    end.

(** ** The schemas of [__init__] *)

Definition list_flags : list (string * read_cb) :=
  [("description", cb_read_string); ("monitor", cb_read_string)]%string.

Definition cycle_flags : list (string * read_cb) :=
  [("stoptime", cb_read_uint32_t); ("hostname", cb_read_string)]%string.

Definition ping_flags : list (string * read_cb) :=
  [("listid", cb_read_uint32_t); ("cycleid", cb_read_uint32_t);
   ("srcipid", cb_read_referenced_address); ("dstipid", cb_read_referenced_address);
   ("timeval", cb_read_timeval); ("stopreas", cb_read_uint8_t);
   ("stopdata", cb_read_uint8_t); ("datalen", cb_read_uint16_t);
   ("data", cb_read_uint8_t); ("pcount", cb_read_uint16_t);
   ("size", cb_read_uint16_t); ("wait", cb_read_uint8_t);
   ("ttl", cb_read_uint8_t); ("rcount", cb_read_uint16_t);
   ("psent", cb_read_uint16_t); ("method", cb_read_uint8_t);
   ("sport", cb_read_uint16_t); ("dport", cb_read_uint16_t);
   ("userid", cb_read_uint32_t); ("srcaddr", cb_read_address);
   ("dstaddr", cb_read_address); ("flags", cb_read_uint8_t);
   ("tos", cb_read_uint8_t); ("tsps", cb_read_address);
   ("icmpsum", cb_read_uint16_t); ("pmtu", cb_read_uint16_t);
   ("timeout", cb_read_uint8_t); ("waitus", cb_read_uint32_t)]%string.

Definition ping_reply_flags : list (string * read_cb) :=
  [("dstipid", cb_read_referenced_address); ("flags", cb_read_uint8_t);
   ("replyttl", cb_read_uint8_t); ("replysize", cb_read_uint16_t);
   ("icmp", cb_read_uint16_t); ("rtt", cb_read_uint32_t);
   ("probeid", cb_read_uint16_t); ("replyipid", cb_read_uint16_t);
   ("probeipid", cb_read_uint16_t); ("replyproto", cb_read_uint8_t);
   ("tcpflags", cb_read_uint8_t); ("addr", cb_read_address);
   ("v4rr", cb_read_address); ("v4ts", cb_read_address);
   ("replyipid32", cb_read_uint32_t); ("tx", cb_read_timeval);
   ("tsreply", cb_read_uint32_t)]%string.

Definition trace_flags : list (string * read_cb) :=
  [("listid", cb_read_uint32_t); ("cycleid", cb_read_uint32_t);
   ("srcipid", cb_read_referenced_address); ("dstipid", cb_read_referenced_address);
   ("timeval", cb_read_timeval); ("stopreas", cb_read_uint8_t);
   ("stopdata", cb_read_uint8_t); ("traceflg", cb_read_uint8_t);
   ("attempts", cb_read_uint8_t); ("hoplimit", cb_read_uint8_t);
   ("tracetyp", cb_read_uint8_t); ("probesiz", cb_read_uint16_t);
   ("srcport", cb_read_uint16_t); ("dstport", cb_read_uint16_t);
   ("firsttl", cb_read_uint8_t); ("iptos", cb_read_uint8_t);
   ("timeout", cb_read_uint8_t); ("loops", cb_read_uint8_t);
   ("probehop", cb_read_uint16_t); ("gaplimit", cb_read_uint8_t);
   ("gaprch", cb_read_uint8_t); ("loopfnd", cb_read_uint8_t);
   ("probesent", cb_read_uint16_t); ("minwait", cb_read_uint8_t);
   ("confid", cb_read_uint8_t); ("srcaddr", cb_read_address);
   ("dstaddr", cb_read_address); ("usrid", cb_read_uint32_t)]%string.

Definition hop_flags : list (string * read_cb) :=
  [("addrid", cb_read_referenced_address); ("probettl", cb_read_uint8_t);
   ("replyttl", cb_read_uint8_t); ("hopflags", cb_read_uint8_t);
   ("probeid", cb_read_uint8_t); ("rtt", cb_read_uint32_t);
   ("icmp", cb_read_uint16_t); ("probesize", cb_read_uint16_t);
   ("replysize", cb_read_uint16_t); ("ipid", cb_read_uint16_t);
   ("tos", cb_read_uint8_t); ("mtu", cb_read_uint16_t);
   ("qlen", cb_read_uint16_t); ("qttl", cb_read_uint8_t);
   ("tcpflags", cb_read_uint8_t); ("qtos", cb_read_uint8_t);
   ("icmpext", cb_read_icmpext); ("addr", cb_read_address);
   ("tx", cb_read_timeval)]%string.

(** ** Record parsers *)

(** [if not self.deprecated_addresses: self.address_ref.clear()] *)
Definition clear_address_ref : M unit :=
  r <- get ;;
  if negb (deprecated_addresses r) then modify (set_address_ref ∅) else ret tt.

(** [if (src in flags) and (dst not in flags): flags[dst] = flags[src]] *)
Definition backfill (src dst : string) (flags : gmap string pyval) : gmap string pyval :=
  match flags !! src, flags !! dst with
  | Some v, None => <[dst := v]> flags
  | _, _ => flags
  end.

(** [if (key not in flags): flags[key] = v] *)
Definition default_to (key : string) (v : pyval) (flags : gmap string pyval)
    : gmap string pyval :=
  match flags !! key with
  | None => <[key := v]> flags
  | Some _ => flags
  end.

(** The split of the two-byte [icmp] field; [>>] and [&] on a value that is
    not an integer raise [TypeError]. *)
Definition split_icmp (hflags : gmap string pyval) : M (gmap string pyval) :=
  match hflags !! "icmp"%string with
  | None => ret hflags
  | Some (VInt icmp) =>
      let hflags := <["icmp-type"%string := VInt (Z.shiftr icmp 8)]> hflags in
      let hflags := <["icmp-code"%string := VInt (Z.land icmp 0xFF)]> hflags in
      ret (delete "icmp"%string hflags)
  | Some _ => raise TypeError
  end.

(** One turn of the [for record in range(records)] loop of [read_trace],
    up to the [hops.append]. *)
Definition read_trace_hop : M (gmap string pyval) :=
  hflags <- read_flags hop_flags ;;
  let hflags := backfill "addrid" "addr" hflags in
  let hflags := default_to "ipid" (VInt 0) hflags in
  let hflags := default_to "qttl" (VInt 1) hflags in
  split_icmp hflags.

Fixpoint read_trace_hops (records : nat) (hops : list (gmap string pyval))
    : M (list (gmap string pyval)) :=
  match records with
  | O => ret hops
  | S records =>
      hflags <- read_trace_hop ;;
      read_trace_hops records (hops ++ [hflags])
  end.

(** [read_trace] after the table has been dealt with. *)
Definition read_trace_record : M (gmap string pyval * list (gmap string pyval)) :=
  flags <- read_flags trace_flags ;;
  let flags := backfill "srcipid" "srcaddr" flags in
  let flags := backfill "dstipid" "dstaddr" flags in
  records <- read_uint16_t ;;
  hops <- read_trace_hops (Z.to_nat records) [] ;;
  end_ <- read_uint16_t ;;
  if end_ =? 0 then ret (flags, hops)
  else raise (AssertionError assert_trace_end).

Definition read_trace : M (gmap string pyval * list (gmap string pyval)) :=
  clear_address_ref ;;; read_trace_record.

Fixpoint read_ping_replies (rcount : nat) (pings : list (gmap string pyval))
    : M (list (gmap string pyval)) :=
  match rcount with
  | O => ret pings
  | S rcount =>
      ping <- read_flags ping_reply_flags ;;
      read_ping_replies rcount (pings ++ [ping])
  end.

Definition read_ping_record : M (gmap string pyval * list (gmap string pyval)) :=
  flags <- read_flags ping_flags ;;
  rcount <- read_uint16_t ;;
  pings <- read_ping_replies (Z.to_nat rcount) [] ;;
  ret (flags, pings).

Definition read_ping : M (gmap string pyval * list (gmap string pyval)) :=
  clear_address_ref ;;; read_ping_record.

Definition read_list : M unit :=
  v <- read_uint32_t ;;
  modify (λ r, set_state {| wlistid := v; listid := listid (state r);
      wcycleid := wcycleid (state r); cycleid := cycleid (state r);
      name := name (state r); start := start (state r) |} r) ;;;
  v <- read_uint32_t ;;
  modify (λ r, set_state {| wlistid := wlistid (state r); listid := v;
      wcycleid := wcycleid (state r); cycleid := cycleid (state r);
      name := name (state r); start := start (state r) |} r) ;;;
  v <- read_string ;;
  modify (λ r, set_state {| wlistid := wlistid (state r); listid := listid (state r);
      wcycleid := wcycleid (state r); cycleid := cycleid (state r);
      name := v; start := start (state r) |} r) ;;;
  flags <- read_flags list_flags ;;
  ret tt.

Definition read_cycle : M unit :=
  v <- read_uint32_t ;;
  modify (λ r, set_state {| wlistid := wlistid (state r); listid := listid (state r);
      wcycleid := v; cycleid := cycleid (state r);
      name := name (state r); start := start (state r) |} r) ;;;
  v <- read_uint32_t ;;
  modify (λ r, set_state {| wlistid := wlistid (state r); listid := v;
      wcycleid := wcycleid (state r); cycleid := cycleid (state r);
      name := name (state r); start := start (state r) |} r) ;;;
  v <- read_uint32_t ;;
  modify (λ r, set_state {| wlistid := wlistid (state r); listid := listid (state r);
      wcycleid := wcycleid (state r); cycleid := v;
      name := name (state r); start := start (state r) |} r) ;;;
  v <- read_uint32_t ;;
  modify (λ r, set_state {| wlistid := wlistid (state r); listid := listid (state r);
      wcycleid := wcycleid (state r); cycleid := cycleid (state r);
      name := name (state r); start := v |} r) ;;;
  flags <- read_flags cycle_flags ;;
  ret tt.

Definition read_cycle_stop : M unit :=
  wcycleid <- read_uint32_t ;;
  stop <- read_uint32_t ;;
  flags <- read_flags cycle_flags ;;
  ret tt.

(** [read_header]: [(-1, -1)] when fewer than eight bytes are left. *)
Definition read_header : M (Z * Z) :=
  buf <- fd_read 8 ;;
  if negb (length buf =? 8)%nat then ret (-1, -1)
  else
    hdr <- of_unpack (unpack_HHI_be buf) ;;
    let '(magic, obj, len) := hdr in
    if magic =? 0x1205 then ret (obj, len)
    else raise (AssertionError assert_magic).

(** ** The dispatch loop *)

(** What [next] returns: [(False, False)] or a trace or ping record. *)
Inductive record :=
| EndOfFile
| Decoded (flags : gmap string pyval) (children : list (gmap string pyval)).

(** The [if]/[elif] chain of [next] for one object: [Some] where the chain
    returns, [None] where the [while True] loop goes round again. *)
Definition dispatch (obj : Z) : M (option record) :=
  if obj =? 0x01 then read_list ;;; ret None
  else if obj =? 0x02 then read_cycle ;;; ret None
  else if obj =? 0x03 then read_cycle ;;; ret None
  else if obj =? 0x04 then read_cycle_stop ;;; ret None
  else if obj =? 0x05 then
    modify (set_deprecated_addresses true) ;;;
    read_old_address ;;; ret None
  else if obj =? 0x06 then
    x <- read_trace ;; ret (Some (Decoded (fst x) (snd x)))
  else if obj =? 0x07 then
    x <- read_ping ;; ret (Some (Decoded (fst x) (snd x)))
  else ret None.   (* print "Unsupported object ..." *)

(** [next], with a bound on the turns of its loop; every turn but the last
    takes the eight bytes of a header, so one more than the number of bytes
    left is enough (lemma [next_fuel]). *)
Fixpoint next_loop (fuel : nat) : M record :=
  match fuel with
  | O => raise OutOfFuel
  | S fuel =>
      hdr <- read_header ;;
      modify (set_record_len (snd hdr)) ;;;
      if fst hdr =? -1 then ret EndOfFile
      else
        o <- dispatch (fst hdr) ;;
        match o with
        | Some rec => ret rec
        | None => next_loop fuel
        end
  end.

Definition next : M record :=
  λ r, next_loop (S (length (fd r))) r.

(** The loop of [__main__] on an opened file: [next] until it returns
    [(False, False)].  A dictionary is never equal to [False], so the test
    [flags == False] holds at the end of the file only.  Every other turn
    takes a header, so one more turn than there are bytes is enough (lemma
    [main_loop_enough]). *)
Fixpoint main_loop (fuel : nat) : M unit :=
  match fuel with
  | O => raise OutOfFuel
  | S fuel =>
      rec <- next ;;
      match rec with
      | EndOfFile => ret tt
      | Decoded flags hops => main_loop fuel
      end
  end.

Definition main (contents : bytes) : result unit :=
  main_loop (S (length contents)) (init contents).

(** [hexdump]: ['{:02x}'.format(ord(x))] for every byte. *)
Definition hex_digit (n : Z) : Byte.byte :=
  nth (Z.to_nat n) (pystr "0123456789abcdef") Byte.x30.

Definition hexdump (buf : bytes) : bytes :=
  flat_map (λ x, [hex_digit (ord x / 16); hex_digit (ord x mod 16)]) buf.

(** ** Notions used to state the properties *)

(** The indices of the set entries of a flag list, counted from [i]. *)
Fixpoint set_positions (i : nat) (flags_set : list bool) : list nat :=
  match flags_set with
  | [] => []
  | b :: flags_set' =>
      (if b then [i] else []) ++ set_positions (S i) flags_set'
  end.

(** The flag list of a sequence of flag bytes: seven entries a byte. *)
Definition flag_bits (fbytes : bytes) : list bool :=
  flat_map (λ b, bits_of_flag (ord b)) fbytes.

(** A complete sequence of flag bytes: the high bit is set on every byte
    but the last. *)
Definition flag_sequence (fbytes : bytes) : Prop :=
  ∃ front final, fbytes = front ++ [final]
    ∧ Forall (λ b, more_flags (ord b) = true) front
    ∧ more_flags (ord final) = false.

(** A dictionary after the assignments [flags[k] = v] of a list, in order. *)
Definition assign_all (kvs : list (string * pyval)) (flags : gmap string pyval)
    : gmap string pyval :=
  foldl (λ m kv, <[kv.1 := kv.2]> m) flags kvs.

(** The MPLS fields as section 4.4 of the specification writes them, from
    the four bytes [b0..b3] of a unit. *)
Definition mpls_of_unit (b0 b1 b2 b3 : Z) : mpls :=
  {| mpls_label := Z.lor (Z.shiftl b0 12) (Z.lor (Z.shiftl b1 4) (Z.shiftr b2 4));
     mpls_exp := Z.land (Z.shiftr b2 1) 0x7;
     mpls_s := Z.land b2 0x1;
     mpls_ttl := b3 |}.

(** The bytes of a unit of an MPLS payload, in stream order, and the text
    [read_icmpext] adds for a list of units: one line a unit. *)
Definition unit_bytes (u : Byte.byte * Byte.byte * Byte.byte * Byte.byte) : bytes :=
  let '(s0, s1, s2, s3) := u in [s0; s1; s2; s3].

Definition mpls_lines (units : list (Byte.byte * Byte.byte * Byte.byte * Byte.byte))
    : bytes :=
  flat_map (λ u, let '(s0, s1, s2, s3) := u in
                 mpls_extension (mpls_of_unit (ord s0) (ord s1) (ord s2) (ord s3))
                 ++ [Byte.x0a]) units.

(** What a method may do to the reader when it returns: it never puts bytes
    back, it leaves the addressing mode alone and, in the deprecated mode,
    it drops no key of the address table. *)
Definition steady (r r' : WartsReader) : Prop :=
  (length (fd r') ≤ length (fd r))%nat
  ∧ deprecated_addresses r' = deprecated_addresses r
  ∧ (deprecated_addresses r = true → dom (address_ref r) ⊆ dom (address_ref r')).

Definition keeps {A} (m : M A) : Prop :=
  ∀ r a r', m r = Ok a r' → steady r r'.

(** A method whose model never exhausts a loop bound. *)
Definition bounded {A} (m : M A) : Prop :=
  ∀ r, m r ≠ Raise OutOfFuel.

(** The objects of a file taken one after the other, as the calls of [next]
    take them: [processed r objs r'] when, from [r], the headers of the
    objects of types [objs] were read and their parsers returned, leaving
    [r']. *)
Inductive processed : WartsReader → list Z → WartsReader → Prop :=
| processed_none r : processed r [] r
| processed_more r objs r1 obj len r2 o r3 :
    processed r objs r1 →
    read_header r1 = Ok (obj, len) r2 →
    obj ≠ -1 →
    dispatch obj (set_record_len len r2) = Ok o r3 →
    processed r (objs ++ [obj]) r3.

(** The turns of a loop one after the other, on the reader each turn left
    behind: [successively step r l r'] when the elements of [l] are what
    the turns gave, in order, the first turn starting from [r] and the last
    one leaving [r'].  [step ra a rb] says what a turn that starts from
    [ra], gives [a] and leaves [rb] has to satisfy. *)
Inductive successively {A} (step : WartsReader → A → WartsReader → Prop)
    : WartsReader → list A → WartsReader → Prop :=
| successively_nil r : successively step r [] r
| successively_cons r a r1 l r' :
    step r a r1 →
    successively step r1 l r' →
    successively step r (a :: l) r'.

(** A method that respects a relation between the reader before and the
    reader after, whenever it returns. *)
Definition respects {A} (R : WartsReader → WartsReader → Prop) (m : M A) : Prop :=
  ∀ r a r', m r = Ok a r' → R r r'.

(** An address table whose ids are 0, 1, ..., n - 1. *)
Definition dense (m : gmap Z bytes) : Prop :=
  ∀ k, is_Some (m !! k) ↔ 0 ≤ k < Z.of_nat (size m).

(** The end of [read_address]: the family is taken from the length of the
    address when the type is 0, and the address is printed. *)
Definition render_address (typ : Z) (addr : bytes) : M bytes :=
  let typ :=
    if typ =? 0 then
      let typ := if (length addr =? 4)%nat then 1 else typ in
      if (length addr =? 16)%nat then 2 else typ
    else typ in
  if typ =? 1 then of_inet_ntop AF_INET addr
  else if typ =? 2 then of_inet_ntop AF_INET6 addr
  else raise (AssertionError assert_addr_type).

(** The text [read_icmpext] returns for a list of label stack entries. *)
Definition mpls_text (entries : list mpls) : bytes :=
  flat_map (λ m, mpls_extension m ++ [Byte.x0a]) entries.

(** * Properties *)

(** ** Bytes, the monad and the primitive reads *)

Lemma ord_range b : 0 ≤ ord b < 256.
Proof.
  unfold ord. pose proof (Byte.to_N_bounded b). lia.
Qed.

Lemma bind_Ok {A B} (m : M A) (k : A → M B) r b r' :
  bind m k r = Ok b r' ↔ ∃ a r1, m r = Ok a r1 ∧ k a r1 = Ok b r'.
Proof.
  unfold bind. destruct (m r) as [a r1|e]; split.
  - eauto.
  - intros (a' & r1' & Heq & Hk). by simplify_eq.
  - done.
  - intros (a' & r1' & Heq & Hk). done.
Qed.

Lemma bind_Raise {A B} (m : M A) (k : A → M B) r e :
  bind m k r = Raise e ↔
  m r = Raise e ∨ ∃ a r1, m r = Ok a r1 ∧ k a r1 = Raise e.
Proof.
  unfold bind. destruct (m r) as [a r1|e']; split.
  - intros Hk. right. eauto.
  - intros [?|(a' & r1' & Heq & Hk)]; [done|by simplify_eq].
  - intros [= ->]. by left.
  - intros [[= ->]|(a' & r1' & Heq & Hk)]; done.
Qed.

Lemma read_uint8_t_cons b l r :
  fd r = b :: l → read_uint8_t r = Ok (ord b) (set_fd l r).
Proof.
  intros Hfd. unfold read_uint8_t, bind, fd_read. rewrite Hfd. simpl.
  by rewrite drop_0.
Qed.

Lemma read_uint8_t_nil r : fd r = [] → read_uint8_t r = Raise StructError.
Proof.
  intros Hfd. unfold read_uint8_t, bind, fd_read. by rewrite Hfd.
Qed.

Lemma read_uint8_t_Ok r n r' :
  read_uint8_t r = Ok n r' →
  ∃ b, fd r = b :: fd r' ∧ n = ord b ∧ r' = set_fd (fd r') r.
Proof.
  unfold read_uint8_t, bind, fd_read.
  destruct (fd r) as [|b l] eqn:Hfd; simpl; [done|].
  rewrite drop_0. destruct l; simpl; intros [= <- <-]; by exists b.
Qed.

Lemma read_uint16_t_Ok r n r' :
  read_uint16_t r = Ok n r' →
  ∃ b0 b1, fd r = b0 :: b1 :: fd r' ∧ n = Z.lor (Z.shiftl (ord b0) 8) (ord b1)
    ∧ r' = set_fd (fd r') r.
Proof.
  unfold read_uint16_t, bind, fd_read.
  destruct (fd r) as [|b0 [|b1 l]] eqn:Hfd; simpl; try done.
  rewrite drop_0. intros [= <- <-]. by exists b0, b1.
Qed.

Lemma read_uint16_t_cons b0 b1 l r :
  fd r = b0 :: b1 :: l →
  read_uint16_t r = Ok (Z.lor (Z.shiftl (ord b0) 8) (ord b1)) (set_fd l r).
Proof.
  intros Hfd. unfold read_uint16_t, bind, fd_read. rewrite Hfd. simpl.
  by rewrite drop_0.
Qed.

Lemma read_uint16_t_range r n r' : read_uint16_t r = Ok n r' → 0 ≤ n < 65536.
Proof.
  intros (b0 & b1 & _ & -> & _)%read_uint16_t_Ok.
  pose proof (ord_range b0). pose proof (ord_range b1).
  rewrite Z.shiftl_mul_pow2 by lia.
  pose proof (Z.add_lor_land (ord b0 * 2 ^ 8) (ord b1)).
  assert (0 ≤ Z.land (ord b0 * 2 ^ 8) (ord b1)) by (apply Z.land_nonneg; lia).
  assert (0 ≤ Z.lor (ord b0 * 2 ^ 8) (ord b1)) by (apply Z.lor_nonneg; lia).
  lia.
Qed.

(** The two recursions on the bytes left are the loops of the source: each
    satisfies the equation of its [while True] loop, one [read] a turn. *)
Lemma read_string_loop_unfold r s :
  (λ r, let '(s, l) := read_string_loop (fd r) s in Ok s (set_fd l r)) r
  = (b <- fd_read 1 ;;
     if negb (length b =? 1)%nat then ret s
     else match b with
          | [c] => if ord c =? 0 then ret s
                   else λ r, let '(s, l) := read_string_loop (fd r) (s ++ [c]) in
                             Ok s (set_fd l r)
          | _ => ret s
          end) r.
Proof.
  unfold bind, fd_read, ret. destruct (fd r) as [|c l] eqn:Hfd; simpl.
  - destruct r; simpl in *; by subst.
  - rewrite drop_0. destruct (ord c =? 0).
    + done.
    + simpl. done.
Qed.

Lemma read_flags_bytes_unfold r flags_set :
  match read_flags_bytes (fd r) flags_set with
  | Some (fs, flag, l) => Ok (fs, flag) (set_fd l r)
  | None => Raise StructError
  end
  = (flag <- read_uint8_t ;;
     let flags_set := flags_set ++ bits_of_flag flag in
     if negb (more_flags flag) then ret (flags_set, flag)
     else λ r, match read_flags_bytes (fd r) flags_set with
               | Some (fs, flag, l) => Ok (fs, flag) (set_fd l r)
               | None => Raise StructError
               end) r.
Proof.
  destruct (fd r) as [|b l] eqn:Hfd.
  - unfold bind. by rewrite read_uint8_t_nil.
  - unfold bind. rewrite (read_uint8_t_cons b l) by done. simpl.
    destruct (more_flags (ord b)); simpl; [|done].
    destruct (read_flags_bytes l _) as [[[fs flag] l']|]; done.
Qed.

(** ** What every method leaves in place *)

Lemma steady_refl r : steady r r.
Proof. by repeat split. Qed.

Lemma steady_trans r1 r2 r3 : steady r1 r2 → steady r2 r3 → steady r1 r3.
Proof.
  intros (Hl1 & Hd1 & Ha1) (Hl2 & Hd2 & Ha2). repeat split.
  - lia.
  - congruence.
  - intros Hd. etrans; [by apply Ha1|]. apply Ha2. congruence.
Qed.

Lemma steady_set_fd l r : (length l ≤ length (fd r))%nat → steady r (set_fd l r).
Proof. intros Hl. by repeat split. Qed.

Lemma steady_set_state s r : steady r (set_state s r).
Proof. by repeat split. Qed.

Lemma steady_set_record_len n r : steady r (set_record_len n r).
Proof. by repeat split. Qed.

Lemma steady_insert k v r :
  steady r (set_address_ref (<[k := v]> (address_ref r)) r).
Proof.
  repeat split; simpl; [done|]. intros _. rewrite dom_insert_L. set_solver.
Qed.

Lemma keeps_ret {A} (a : A) : keeps (ret a).
Proof. intros r a' r' [= <- <-]. apply steady_refl. Qed.

Lemma keeps_raise {A} e : keeps (@raise A e).
Proof. by intros r a r'. Qed.

Lemma keeps_bind {A B} (m : M A) (k : A → M B) :
  keeps m → (∀ a, keeps (k a)) → keeps (bind m k).
Proof.
  intros Hm Hk r b r' (a & r1 & H1 & H2)%bind_Ok.
  eapply steady_trans; [by eapply Hm|by eapply Hk].
Qed.

Lemma keeps_get : keeps get.
Proof. intros r a r' [= <- <-]. apply steady_refl. Qed.

Lemma keeps_fd_read n : keeps (fd_read n).
Proof.
  intros r a r' [= <- <-]. apply steady_set_fd. rewrite length_drop. lia.
Qed.

Lemma keeps_of_unpack {A} (o : option A) : keeps (of_unpack o).
Proof. destruct o; [apply keeps_ret|apply keeps_raise]. Qed.

Lemma keeps_of_inet_ntop af addr : keeps (of_inet_ntop af addr).
Proof.
  unfold of_inet_ntop. destruct (inet_ntop af addr); [apply keeps_ret|apply keeps_raise].
Qed.

Lemma keeps_modify_state f :
  keeps (modify (λ r, set_state (f r) r)).
Proof.
  intros r a r' H. unfold modify in H. simplify_eq. apply steady_set_state.
Qed.

Lemma keeps_insert_address (f : WartsReader → Z) v :
  keeps (r <- get ;; modify (set_address_ref (<[f r := v]> (address_ref r)))).
Proof.
  intros r a r' H. unfold bind, get, modify in H. simplify_eq. apply steady_insert.
Qed.

Create HintDb keeps.
#[local] Hint Resolve keeps_ret keeps_raise keeps_get keeps_fd_read keeps_of_unpack
  keeps_of_inet_ntop keeps_modify_state keeps_insert_address : keeps.

(** Walk through a method: binds, conditionals and case analyses. *)
Ltac keeps_step :=
  match goal with
  | |- keeps (bind _ _) => apply keeps_bind; [|intros ?]
  | |- keeps (if ?b then _ else _) => destruct b
  | |- keeps (match ?o with Some _ => _ | None => _ end) => destruct o
  | |- keeps _ => solve [eauto with keeps]
  end.
Ltac keeps_walk := repeat keeps_step.

Lemma keeps_read_uint8_t : keeps read_uint8_t.
Proof. unfold read_uint8_t. keeps_walk. Qed.

Lemma keeps_read_uint16_t : keeps read_uint16_t.
Proof. unfold read_uint16_t. keeps_walk. Qed.

Lemma keeps_read_uint32_t : keeps read_uint32_t.
Proof. unfold read_uint32_t. keeps_walk. Qed.

#[local] Hint Resolve keeps_read_uint8_t keeps_read_uint16_t keeps_read_uint32_t : keeps.

Lemma keeps_read_timeval : keeps read_timeval.
Proof. unfold read_timeval. keeps_walk. Qed.

Lemma read_string_loop_length l s s' l' :
  read_string_loop l s = (s', l') → (length l' ≤ length l)%nat.
Proof.
  revert s. induction l as [|b l IH]; intros s; simpl.
  - intros [= _ <-]. done.
  - destruct (ord b =? 0).
    + intros [= _ <-]. lia.
    + intros H%IH. lia.
Qed.

Lemma keeps_read_string : keeps read_string.
Proof.
  intros r s r'. unfold read_string.
  destruct (read_string_loop (fd r) []) as [s' l] eqn:Hloop.
  intros [= <- <-]. apply steady_set_fd. by eapply read_string_loop_length.
Qed.

Lemma keeps_read_old_address : keeps read_old_address.
Proof.
  unfold read_old_address. apply keeps_bind; [eauto with keeps|intros r0].
  do 2 (apply keeps_bind; [eauto with keeps|intros ?]).
  destruct (negb _); [eauto with keeps|].
  apply keeps_bind; [keeps_walk|intros quad].
  apply (keeps_insert_address (λ _, _)).
Qed.

Lemma keeps_read_address : keeps read_address.
Proof.
  unfold read_address. apply keeps_bind; [eauto with keeps|intros len].
  apply keeps_bind.
  - destruct (negb _).
    + do 2 (apply keeps_bind; [eauto with keeps|intros ?]).
      intros r x r' (r0 & r1 & [= <- <-] & H)%bind_Ok.
      apply bind_Ok in H as ([] & r2 & [= <-] & [= <- <-]).
      apply steady_insert.
    + apply keeps_bind; [eauto with keeps|intros ?].
      apply keeps_bind; [eauto with keeps|intros r0].
      keeps_walk.
  - intros [typ addr]. simpl. keeps_walk.
Qed.

Lemma keeps_read_referenced_address : keeps read_referenced_address.
Proof.
  unfold read_referenced_address.
  apply keeps_bind; [eauto with keeps|intros ?].
  apply keeps_bind; [eauto with keeps|intros r0]. keeps_walk.
Qed.

Lemma keeps_parse_mpls_icmpext ie : keeps (parse_mpls_icmpext ie).
Proof. unfold parse_mpls_icmpext. keeps_walk. Qed.

#[local] Hint Resolve keeps_read_timeval keeps_read_string keeps_read_old_address
  keeps_read_address keeps_read_referenced_address keeps_parse_mpls_icmpext : keeps.

Lemma keeps_read_icmpext_mpls fuel ie_dl_read ret_string :
  keeps (read_icmpext_mpls fuel ie_dl_read ret_string).
Proof.
  revert ie_dl_read ret_string.
  induction fuel as [|fuel IH]; intros ie_dl_read ret_string; simpl.
  - destruct (4 <=? ie_dl_read); eauto with keeps.
  - destruct (4 <=? ie_dl_read); [|eauto with keeps].
    do 2 (apply keeps_bind; [eauto with keeps|intros ?]). apply IH.
Qed.

Lemma keeps_read_icmpext_loop fuel tot_len ret_string :
  keeps (read_icmpext_loop fuel tot_len ret_string).
Proof.
  revert tot_len ret_string.
  induction fuel as [|fuel IH]; intros tot_len ret_string; simpl.
  - destruct (0 <? tot_len); eauto with keeps.
  - destruct (0 <? tot_len); [|eauto with keeps].
    do 3 (apply keeps_bind; [eauto with keeps|intros ?]).
    destruct (_ && _).
    + apply keeps_bind; [apply keeps_read_icmpext_mpls|intros ?]. apply IH.
    + keeps_walk.
Qed.

Lemma keeps_read_icmpext : keeps read_icmpext.
Proof.
  unfold read_icmpext. apply keeps_bind; [eauto with keeps|intros ?].
  apply keeps_read_icmpext_loop.
Qed.

#[local] Hint Resolve keeps_read_icmpext : keeps.

Lemma keeps_call cb : keeps (call cb).
Proof. destruct cb; simpl; keeps_walk. Qed.

#[local] Hint Resolve keeps_call : keeps.

Lemma read_flags_bytes_length l flags_set fs flag l' :
  read_flags_bytes l flags_set = Some (fs, flag, l') → (length l' < length l)%nat.
Proof.
  revert flags_set. induction l as [|b l IH]; intros flags_set; simpl; [done|].
  destruct (negb _).
  - intros [= _ _ <-]. lia.
  - intros H%IH. lia.
Qed.

Lemma keeps_read_flags_fields flag_defines flags_set i flags :
  keeps (read_flags_fields flag_defines flags_set i flags).
Proof.
  revert i flags. induction flags_set as [|b flags_set IH]; intros i flags; simpl.
  - eauto with keeps.
  - destruct b; [|apply IH].
    destruct (flag_defines !! i) as [[fname cb]|]; [|eauto with keeps].
    apply keeps_bind; [eauto with keeps|intros ?]. apply IH.
Qed.

Lemma keeps_read_flags flag_defines : keeps (read_flags flag_defines).
Proof.
  intros r flags r'. unfold read_flags.
  destruct (read_flags_bytes (fd r) []) as [[[fs flag] l]|] eqn:Hbytes; [|done].
  intros H. eapply steady_trans.
  - apply (steady_set_fd l). apply read_flags_bytes_length in Hbytes. lia.
  - revert H. generalize (set_fd l r). intros r0.
    assert (keeps (if (0 <? flag) || (8 <? length fs)%nat
                   then paramlen <- read_uint16_t ;;
                        read_flags_fields flag_defines fs 0 ∅
                   else ret ∅)) as Hk; [|apply Hk].
    destruct (_ || _); [|eauto with keeps].
    apply keeps_bind; [eauto with keeps|intros ?]. apply keeps_read_flags_fields.
Qed.

#[local] Hint Resolve keeps_read_flags : keeps.

Lemma keeps_clear_address_ref : keeps clear_address_ref.
Proof.
  intros r a r'. unfold clear_address_ref, bind, get, modify, ret.
  destruct (deprecated_addresses r) eqn:Hd; simpl; intros ?; simplify_eq.
  - apply steady_refl.
  - repeat split; simpl; [done|]. by rewrite Hd.
Qed.

Lemma keeps_split_icmp hflags : keeps (split_icmp hflags).
Proof.
  unfold split_icmp. destruct (hflags !! _) as [[]|]; eauto with keeps.
Qed.

#[local] Hint Resolve keeps_clear_address_ref keeps_split_icmp : keeps.

Lemma keeps_read_trace_hop : keeps read_trace_hop.
Proof. unfold read_trace_hop. keeps_walk. Qed.

Lemma keeps_read_trace_hops records hops : keeps (read_trace_hops records hops).
Proof.
  revert hops. induction records as [|records IH]; intros hops; simpl.
  - eauto with keeps.
  - apply keeps_bind; [apply keeps_read_trace_hop|intros ?]. apply IH.
Qed.

Lemma keeps_read_ping_replies rcount pings : keeps (read_ping_replies rcount pings).
Proof.
  revert pings. induction rcount as [|rcount IH]; intros pings; simpl.
  - eauto with keeps.
  - apply keeps_bind; [eauto with keeps|intros ?]. apply IH.
Qed.

#[local] Hint Resolve keeps_read_trace_hops keeps_read_ping_replies : keeps.

Lemma keeps_read_trace : keeps read_trace.
Proof. unfold read_trace, read_trace_record. keeps_walk. Qed.

Lemma keeps_read_ping : keeps read_ping.
Proof. unfold read_ping, read_ping_record. keeps_walk. Qed.

Lemma keeps_read_list : keeps read_list.
Proof. unfold read_list. keeps_walk. Qed.

Lemma keeps_read_cycle : keeps read_cycle.
Proof. unfold read_cycle. keeps_walk. Qed.

Lemma keeps_read_cycle_stop : keeps read_cycle_stop.
Proof. unfold read_cycle_stop. keeps_walk. Qed.

#[local] Hint Resolve keeps_read_trace keeps_read_ping keeps_read_list
  keeps_read_cycle keeps_read_cycle_stop : keeps.

(** Every object but the deprecated address leaves the mode as it is. *)
Lemma keeps_dispatch obj : obj ≠ 0x05 → keeps (dispatch obj).
Proof.
  intros Hobj. unfold dispatch.
  destruct (obj =? 0x05) eqn:H5; [lia|].
  repeat match goal with |- keeps (if ?b then _ else _) => destruct b end;
    keeps_walk.
Qed.

(** The deprecated address switches the mode on, for good. *)
Lemma dispatch_deprecated_address r o r' :
  dispatch 0x05 r = Ok o r' →
  deprecated_addresses r' = true
  ∧ (length (fd r') ≤ length (fd r))%nat
  ∧ (deprecated_addresses r = true → dom (address_ref r) ⊆ dom (address_ref r')).
Proof.
  unfold dispatch. simpl.
  intros ([] & r1 & [= <-] & H)%bind_Ok.
  apply bind_Ok in H as ([] & r2 & H & [= _ <-]).
  apply keeps_read_old_address in H as (Hl & Hd & Ha). simpl in *.
  split; [done|]. split; [done|]. intros _. by apply Ha.
Qed.

(** ** The header *)

Lemma read_header_short r :
  (length (fd r) < 8)%nat → read_header r = Ok (-1, -1) (set_fd [] r).
Proof.
  intros Hlen. unfold read_header, bind, fd_read.
  rewrite length_take, drop_ge by lia.
  destruct (_ =? 8)%nat eqn:Heq; [apply Nat.eqb_eq in Heq; lia|]. done.
Qed.

Lemma read_header_Ok r obj len r' :
  read_header r = Ok (obj, len) r' →
  ((length (fd r) < 8)%nat ∧ obj = -1 ∧ len = -1 ∧ r' = set_fd [] r)
  ∨ (length (fd r) = (length (fd r') + 8)%nat ∧ 0 ≤ obj
     ∧ r' = set_fd (fd r') r).
Proof.
  unfold read_header, bind, fd_read.
  destruct (length (take 8 (fd r)) =? 8)%nat eqn:Heq; simpl.
  - apply Nat.eqb_eq in Heq. rewrite length_take in Heq.
    destruct (unpack_HHI_be _) as [[[magic obj'] len']|] eqn:Hunpack; simpl; [|done].
    destruct (magic =? 4613); [|done]. intros [= <- <- <-]. right. simpl.
    rewrite length_drop. split; [lia|]. split; [|done].
    unfold unpack_HHI_be in Hunpack.
    destruct (unpack_H_be (take 2 (take 8 (fd r)))); [|done].
    destruct (unpack_H_be (take 2 (drop 2 (take 8 (fd r))))) as [v|] eqn:Hv; [|done].
    destruct (unpack_I_be _); [|done]. simplify_eq.
    unfold unpack_H_be in Hv.
    destruct (take 2 (drop 2 (take 8 (fd r)))) as [|b0 [|b1 [|]]]; try done.
    simplify_eq. pose proof (ord_range b0). pose proof (ord_range b1).
    apply Z.lor_nonneg. split; [|lia]. apply Z.shiftl_nonneg. lia.
  - apply Nat.eqb_neq in Heq. rewrite length_take in Heq.
    intros [= <- <- <-]. left. rewrite drop_ge by lia. repeat split; lia.
Qed.

(** ** Loop bounds are never exhausted *)

Lemma bounded_ret {A} (a : A) : bounded (ret a).
Proof. by intros r. Qed.

Lemma bounded_raise {A} e : e ≠ OutOfFuel → bounded (@raise A e).
Proof. intros He r [=]. done. Qed.

Lemma bounded_bind_Ok {A B} (m : M A) (k : A → M B) :
  bounded m → (∀ r a r', m r = Ok a r' → k a r' ≠ Raise OutOfFuel) →
  bounded (bind m k).
Proof.
  intros Hm Hk r [H|(a & r1 & H1 & H2)]%bind_Raise; [by eapply Hm|by eapply Hk].
Qed.

Lemma bounded_bind {A B} (m : M A) (k : A → M B) :
  bounded m → (∀ a, bounded (k a)) → bounded (bind m k).
Proof. intros Hm Hk. apply bounded_bind_Ok; [done|]. intros r a r' _. apply Hk. Qed.

Lemma bounded_get : bounded get.
Proof. by intros r. Qed.

Lemma bounded_modify f : bounded (modify f).
Proof. by intros r. Qed.

Lemma bounded_fd_read n : bounded (fd_read n).
Proof. by intros r. Qed.

Lemma bounded_of_unpack {A} (o : option A) : bounded (of_unpack o).
Proof. destruct o; [apply bounded_ret|by apply bounded_raise]. Qed.

Lemma bounded_of_inet_ntop af addr : bounded (of_inet_ntop af addr).
Proof.
  unfold of_inet_ntop. destruct (inet_ntop af addr); [apply bounded_ret|by apply bounded_raise].
Qed.

Lemma bounded_read_string : bounded read_string.
Proof. intros r. unfold read_string. by destruct (read_string_loop _ _). Qed.

Create HintDb bounded.
#[local] Hint Resolve bounded_ret bounded_get bounded_modify bounded_fd_read
  bounded_of_unpack bounded_of_inet_ntop bounded_read_string : bounded.
#[local] Hint Extern 1 (bounded (raise _)) => (apply bounded_raise; discriminate) : bounded.

Ltac bounded_step :=
  match goal with
  | |- bounded (bind _ _) => apply bounded_bind; [|intros ?]
  | |- bounded (if ?b then _ else _) => destruct b
  | |- bounded (match ?o with Some _ => _ | None => _ end) => destruct o
  | |- bounded _ => solve [eauto with bounded]
  end.
Ltac bounded_walk := repeat bounded_step.

Lemma bounded_read_uint8_t : bounded read_uint8_t.
Proof. unfold read_uint8_t. bounded_walk. Qed.

Lemma bounded_read_uint16_t : bounded read_uint16_t.
Proof. unfold read_uint16_t. bounded_walk. Qed.

Lemma bounded_read_uint32_t : bounded read_uint32_t.
Proof. unfold read_uint32_t. bounded_walk. Qed.

#[local] Hint Resolve bounded_read_uint8_t bounded_read_uint16_t bounded_read_uint32_t : bounded.

Lemma bounded_read_timeval : bounded read_timeval.
Proof. unfold read_timeval. bounded_walk. Qed.

Lemma bounded_read_old_address : bounded read_old_address.
Proof. unfold read_old_address. bounded_walk. Qed.

Lemma bounded_read_address : bounded read_address.
Proof. unfold read_address. bounded_walk. Qed.

Lemma bounded_read_referenced_address : bounded read_referenced_address.
Proof. unfold read_referenced_address. bounded_walk. Qed.

Lemma bounded_parse_mpls_icmpext ie : bounded (parse_mpls_icmpext ie).
Proof. unfold parse_mpls_icmpext. bounded_walk. Qed.

#[local] Hint Resolve bounded_read_timeval bounded_read_old_address bounded_read_address
  bounded_read_referenced_address bounded_parse_mpls_icmpext : bounded.

(** [Z.to_nat ie_dl] turns are enough for the inner loop of [read_icmpext]. *)
Lemma read_icmpext_mpls_fuel fuel ie_dl_read ret_string :
  ie_dl_read ≤ Z.of_nat fuel →
  bounded (read_icmpext_mpls fuel ie_dl_read ret_string).
Proof.
  revert ie_dl_read ret_string.
  induction fuel as [|fuel IH]; intros ie_dl_read ret_string Hle; simpl.
  - destruct (4 <=? ie_dl_read) eqn:H4; [apply Z.leb_le in H4; lia|].
    apply bounded_ret.
  - destruct (4 <=? ie_dl_read); [|apply bounded_ret].
    do 2 (apply bounded_bind; [eauto with bounded|intros ?]). apply IH. lia.
Qed.

(** [Z.to_nat tot_len] turns are enough for its outer loop: a turn takes
    [4 + ie_dl] off [tot_len], and [ie_dl] is not negative. *)
Lemma read_icmpext_loop_fuel fuel tot_len ret_string :
  tot_len ≤ Z.of_nat fuel →
  bounded (read_icmpext_loop fuel tot_len ret_string).
Proof.
  revert tot_len ret_string.
  induction fuel as [|fuel IH]; intros tot_len ret_string Hle; simpl.
  - destruct (0 <? tot_len) eqn:H0; [apply Z.ltb_lt in H0; lia|].
    apply bounded_ret.
  - destruct (0 <? tot_len); [|apply bounded_ret].
    apply bounded_bind_Ok; [eauto with bounded|]. intros r ie_dl r1 Hdl.
    apply read_uint16_t_range in Hdl. revert r1.
    change (bounded (ie_cn <- read_uint8_t ;; ie_ct <- read_uint8_t ;;
      if (ie_cn =? 1) && (ie_ct =? 1)
      then ret_string0 <- read_icmpext_mpls (Z.to_nat ie_dl) ie_dl ret_string ;;
           read_icmpext_loop fuel (tot_len - 4 - ie_dl) ret_string0
      else buf <- fd_read (Z.to_nat ie_dl) ;; raise (SystemExit exit_icmpext))).
    do 2 (apply bounded_bind; [eauto with bounded|intros ?]).
    destruct (_ && _); [|bounded_walk].
    apply bounded_bind; [apply read_icmpext_mpls_fuel; lia|intros ?].
    apply IH. lia.
Qed.

Lemma bounded_read_icmpext : bounded read_icmpext.
Proof.
  unfold read_icmpext. apply bounded_bind_Ok; [eauto with bounded|].
  intros r tot_len r1 Htot%read_uint16_t_range.
  apply read_icmpext_loop_fuel. lia.
Qed.

#[local] Hint Resolve bounded_read_icmpext : bounded.

Lemma bounded_call cb : bounded (call cb).
Proof. destruct cb; simpl; bounded_walk. Qed.

#[local] Hint Resolve bounded_call : bounded.

Lemma bounded_read_flags_fields flag_defines flags_set i flags :
  bounded (read_flags_fields flag_defines flags_set i flags).
Proof.
  revert i flags. induction flags_set as [|b flags_set IH]; intros i flags; simpl.
  - eauto with bounded.
  - destruct b; [|apply IH].
    destruct (flag_defines !! i) as [[fname cb]|]; [|eauto with bounded].
    apply bounded_bind; [eauto with bounded|intros ?]. apply IH.
Qed.

Lemma bounded_read_flags flag_defines : bounded (read_flags flag_defines).
Proof.
  intros r. unfold read_flags.
  destruct (read_flags_bytes (fd r) []) as [[[fs flag] l]|]; [|done].
  generalize (set_fd l r). intros r0.
  assert (bounded (if (0 <? flag) || (8 <? length fs)%nat
                   then paramlen <- read_uint16_t ;;
                        read_flags_fields flag_defines fs 0 ∅
                   else ret ∅)) as Hk; [|apply Hk].
  destruct (_ || _); [|eauto with bounded].
  apply bounded_bind; [eauto with bounded|intros ?]. apply bounded_read_flags_fields.
Qed.

#[local] Hint Resolve bounded_read_flags : bounded.

Lemma bounded_split_icmp hflags : bounded (split_icmp hflags).
Proof.
  unfold split_icmp. destruct (hflags !! _) as [[]|]; eauto with bounded.
Qed.

Lemma bounded_clear_address_ref : bounded clear_address_ref.
Proof. unfold clear_address_ref. bounded_walk. Qed.

#[local] Hint Resolve bounded_split_icmp bounded_clear_address_ref : bounded.

Lemma bounded_read_trace_hops records hops : bounded (read_trace_hops records hops).
Proof.
  revert hops. induction records as [|records IH]; intros hops; simpl.
  - eauto with bounded.
  - apply bounded_bind; [unfold read_trace_hop; bounded_walk|intros ?]. apply IH.
Qed.

Lemma bounded_read_ping_replies rcount pings : bounded (read_ping_replies rcount pings).
Proof.
  revert pings. induction rcount as [|rcount IH]; intros pings; simpl.
  - eauto with bounded.
  - apply bounded_bind; [eauto with bounded|intros ?]. apply IH.
Qed.

#[local] Hint Resolve bounded_read_trace_hops bounded_read_ping_replies : bounded.

Lemma bounded_dispatch obj : bounded (dispatch obj).
Proof.
  unfold dispatch, read_list, read_cycle, read_cycle_stop, read_trace, read_ping,
    read_trace_record, read_ping_record.
  bounded_walk.
Qed.

Lemma bounded_read_header : bounded read_header.
Proof.
  unfold read_header. apply bounded_bind; [eauto with bounded|intros buf].
  destruct (negb _); [eauto with bounded|].
  apply bounded_bind; [eauto with bounded|intros [[magic obj] len]].
  bounded_walk.
Qed.

(** One more turn than there are bytes left is enough for [next]. *)
Lemma next_loop_fuel fuel r :
  (length (fd r) < fuel)%nat → next_loop fuel r ≠ Raise OutOfFuel.
Proof.
  revert r. induction fuel as [|fuel IH]; intros r Hlen; [lia|]. simpl.
  intros [H|([obj len] & r1 & Hhdr & H)]%bind_Raise; [by eapply bounded_read_header|].
  apply bind_Raise in H as [H|([] & r2 & [= <-] & H)]; [done|]. simpl in H.
  apply read_header_Ok in Hhdr as [(_ & -> & _)|(Hl & Hobj & _)]; [done|].
  destruct (obj =? -1); [done|].
  apply bind_Raise in H as [H|(o & r3 & Hd & H)]; [by eapply bounded_dispatch|].
  destruct o as [rec|]; [done|]. revert H. apply IH.
  assert ((length (fd r3) ≤ length (fd r1))%nat) as Hle; [|lia].
  destruct (Z.eq_dec obj 5) as [->|Hne].
  - by apply dispatch_deprecated_address in Hd as (_ & Hle & _).
  - by apply keeps_dispatch in Hd as (Hle & _).
Qed.

Lemma next_fuel : bounded next.
Proof. intros r. apply next_loop_fuel. lia. Qed.

(** ** Strings *)

Lemma read_string_loop_spec l s :
  ∃ t rest, read_string_loop l s = (s ++ t, rest)
    ∧ Forall (λ b, ord b ≠ 0) t
    ∧ ((∃ z, ord z = 0 ∧ l = t ++ z :: rest) ∨ (l = t ∧ rest = [])).
Proof.
  revert s. induction l as [|b l IH]; intros s; simpl.
  - exists [], []. rewrite app_nil_r. split; [done|]. split; [constructor|by right].
  - destruct (ord b =? 0) eqn:Hb.
    + apply Z.eqb_eq in Hb. exists [], l. rewrite app_nil_r.
      split; [done|]. split; [constructor|]. left. by exists b.
    + apply Z.eqb_neq in Hb.
      destruct (IH (s ++ [b])) as (t & rest & Heq & Hall & Hcase).
      exists (b :: t), rest. rewrite Heq, <- app_assoc. split; [done|].
      split; [by constructor|].
      destruct Hcase as [(z & Hz & ->)|[-> ->]]; [left; by exists z|by right].
Qed.

(** C3, as the code has it: [read_string] never fails.  It returns the
    bytes before the first null byte and leaves the reader behind that byte;
    when the stream ends before any null byte it returns all the bytes read
    so far as the string and leaves the stream empty. *)
Theorem read_string_until_null_or_end r :
  ∃ s rest, read_string r = Ok s (set_fd rest r)
    ∧ Forall (λ b, ord b ≠ 0) s
    ∧ ((∃ z, ord z = 0 ∧ fd r = s ++ z :: rest) ∨ (fd r = s ∧ rest = [])).
Proof.
  unfold read_string.
  destruct (read_string_loop_spec (fd r) []) as (t & rest & Heq & Hall & Hcase).
  rewrite Heq. simpl. by exists t, rest.
Qed.

(** ** End of the stream *)

(** C9: when fewer than eight bytes are left for a header, [read_header]
    hands back (-1, -1) and [next] returns the terminal value
    [(False, False)] and no error; so does [next] on a file that holds one
    well-formed list object and then ends: no record comes out and nothing
    is raised. *)
Theorem next_end_of_stream r :
  ((length (fd r) < 8)%nat →
     read_header r = Ok (-1, -1) (set_fd [] r)
     ∧ next r = Ok EndOfFile (set_record_len (-1) (set_fd [] r)))
  ∧ (∀ len r1 r2,
       read_header r = Ok (0x01, len) r1 →
       read_list (set_record_len len r1) = Ok tt r2 →
       (length (fd r2) < 8)%nat →
       next r = Ok EndOfFile (set_record_len (-1) (set_fd [] r2))).
Proof.
  split.
  - intros Hlen. split; [by apply read_header_short|].
    unfold next. simpl. unfold bind. by rewrite read_header_short.
  - intros len r1 r2 Hhdr Hlist Hlen.
    pose proof Hhdr as [(_ & ? & _)|(Hl & _)]%read_header_Ok; [done|].
    unfold next. rewrite Hl, Nat.add_comm. simpl.
    unfold bind at 1. rewrite Hhdr. unfold bind at 1. simpl.
    unfold dispatch. simpl. unfold bind at 1. unfold bind at 1.
    rewrite Hlist. simpl.
    unfold bind. by rewrite read_header_short.
Qed.

(** ** Traces *)

Lemma read_trace_hops_length records hops r hops' r' :
  read_trace_hops records hops r = Ok hops' r' →
  length hops' = (length hops + records)%nat.
Proof.
  revert hops r. induction records as [|records IH]; intros hops r; simpl.
  - intros [= <- <-]. lia.
  - intros (hflags & r1 & _ & H)%bind_Ok. apply IH in H.
    rewrite length_app in H. simpl in H. lia.
Qed.

Lemma clear_address_ref_Ok r :
  clear_address_ref r
  = Ok tt (if deprecated_addresses r then r else set_address_ref ∅ r).
Proof.
  unfold clear_address_ref, bind, get. by destruct (deprecated_addresses r).
Qed.

(** C2: a trace that decodes has as many hops as the 16-bit count read
    right after its flags says, and the 16-bit value read after the last hop
    is zero; when that value is not zero, [read_trace] fails on its
    [assert (end == 0)]. *)
Theorem read_trace_hop_count_and_end r :
  (∀ flags hops r',
     read_trace r = Ok (flags, hops) r' →
     ∃ r0 flags0 r1 records r2 r3,
       clear_address_ref r = Ok tt r0
       ∧ read_flags trace_flags r0 = Ok flags0 r1
       ∧ read_uint16_t r1 = Ok records r2
       ∧ read_trace_hops (Z.to_nat records) [] r2 = Ok hops r3
       ∧ Z.of_nat (length hops) = records
       ∧ read_uint16_t r3 = Ok 0 r')
  ∧ (∀ r0 flags0 r1 records r2 hops r3 end_ r4,
       clear_address_ref r = Ok tt r0 →
       read_flags trace_flags r0 = Ok flags0 r1 →
       read_uint16_t r1 = Ok records r2 →
       read_trace_hops (Z.to_nat records) [] r2 = Ok hops r3 →
       read_uint16_t r3 = Ok end_ r4 →
       end_ ≠ 0 →
       read_trace r = Raise (AssertionError assert_trace_end)).
Proof.
  split.
  - intros flags hops r' H. unfold read_trace, read_trace_record in H.
    apply bind_Ok in H as ([] & r0 & Hclear & H).
    apply bind_Ok in H as (flags0 & r1 & Hflags & H).
    apply bind_Ok in H as (records & r2 & Hrec & H).
    apply bind_Ok in H as (hops0 & r3 & Hhops & H).
    apply bind_Ok in H as (end_ & r4 & Hend & H).
    destruct (end_ =? 0) eqn:He; [|done]. apply Z.eqb_eq in He as ->.
    injection H as <- <- <-.
    exists r0, flags0, r1, records, r2, r3. repeat split; try done.
    apply read_trace_hops_length in Hhops. apply read_uint16_t_range in Hrec.
    simpl in Hhops. lia.
  - intros r0 flags0 r1 records r2 hops r3 end_ r4 Hclear Hflags Hrec Hhops Hend Hne.
    unfold read_trace, read_trace_record, bind.
    rewrite Hclear, Hflags, Hrec, Hhops, Hend.
    destruct (end_ =? 0) eqn:He; [apply Z.eqb_eq in He; done|done].
Qed.

(** ** Flag sets *)

Lemma elem_of_set_positions i flags_set j :
  j ∈ set_positions i flags_set ↔
  ∃ n, j = (i + n)%nat ∧ flags_set !! n = Some true.
Proof.
  revert i. induction flags_set as [|b flags_set IH]; intros i; simpl.
  - split; [by intros ?%elem_of_nil|by intros (n & _ & ?)].
  - rewrite elem_of_app, IH. split.
    + intros [Hj|(n & -> & Hn)].
      * destruct b; [|by apply elem_of_nil in Hj].
        apply list_elem_of_singleton in Hj as ->. exists 0%nat. split; [lia|done].
      * exists (S n). split; [lia|done].
    + intros ([|n] & -> & Hn); simpl in Hn.
      * left. injection Hn as ->. rewrite Nat.add_0_r. apply list_elem_of_singleton. done.
      * right. exists n. split; [lia|done].
Qed.

Lemma set_positions_sorted i flags_set :
  StronglySorted lt (set_positions i flags_set).
Proof.
  revert i. induction flags_set as [|b flags_set IH]; intros i; simpl.
  - constructor.
  - destruct b; simpl; [|apply IH]. constructor; [apply IH|].
    apply Forall_forall. intros j (n & -> & _)%elem_of_set_positions. lia.
Qed.

Lemma set_positions_app i bits1 bits2 :
  set_positions i (bits1 ++ bits2)
  = set_positions i bits1 ++ set_positions (i + length bits1) bits2.
Proof.
  revert i. induction bits1 as [|b bits1 IH]; intros i; simpl.
  - by rewrite Nat.add_0_r.
  - rewrite IH, <- app_assoc. do 3 f_equal. lia.
Qed.

Lemma assign_all_lookup kvs (flags : gmap string pyval) k v :
  assign_all kvs flags !! k = Some v → flags !! k = Some v ∨ (k, v) ∈ kvs.
Proof.
  revert flags. induction kvs as [|[k' v'] kvs IH]; intros flags; simpl; [by left|].
  intros [H|H]%IH.
  - destruct (decide (k' = k)) as [->|Hne].
    + rewrite lookup_insert_eq in H. injection H as ->. right. left.
    + rewrite lookup_insert_ne in H by done. by left.
  - right. by right.
Qed.

Lemma assign_all_dom kvs (flags : gmap string pyval) :
  dom (assign_all kvs flags) = list_to_set kvs.*1 ∪ dom flags.
Proof.
  revert flags. induction kvs as [|[k' v'] kvs IH]; intros flags; simpl.
  - by rewrite (left_id_L ∅ (∪)).
  - rewrite IH, dom_insert_L, (assoc_L (∪)).
    by rewrite (comm_L (∪) (list_to_set kvs.*1)).
Qed.

Lemma flag_bits_app l1 l2 : flag_bits (l1 ++ l2) = flag_bits l1 ++ flag_bits l2.
Proof. unfold flag_bits. apply flat_map_app. Qed.

Lemma flag_bits_length fbytes : length (flag_bits fbytes) = (7 * length fbytes)%nat.
Proof.
  induction fbytes as [|b fbytes IH]; [done|].
  change (flag_bits (b :: fbytes)) with (bits_of_flag (ord b) ++ flag_bits fbytes).
  rewrite length_app, IH. simpl. lia.
Qed.

(** The loop over the flag bytes returns exactly on a complete sequence. *)
Lemma read_flags_bytes_Some l flags_set fs flag rest :
  read_flags_bytes l flags_set = Some (fs, flag, rest) →
  ∃ front final, l = front ++ final :: rest
    ∧ Forall (λ b, more_flags (ord b) = true) front
    ∧ more_flags (ord final) = false
    ∧ flag = ord final
    ∧ fs = flags_set ++ flag_bits (front ++ [final]).
Proof.
  revert flags_set. induction l as [|b l IH]; intros flags_set; simpl; [done|].
  destruct (more_flags (ord b)) eqn:Hmore; simpl.
  - intros (front & final & -> & Hfront & Hfinal & -> & ->)%IH.
    exists (b :: front), final. repeat split; try done.
    + by constructor.
    + rewrite <- app_assoc. done.
  - intros [= <- <- <-]. exists [], b. repeat split; try done.
Qed.

Lemma read_flags_bytes_sequence front final rest flags_set :
  Forall (λ b, more_flags (ord b) = true) front →
  more_flags (ord final) = false →
  read_flags_bytes (front ++ final :: rest) flags_set
  = Some (flags_set ++ flag_bits (front ++ [final]), ord final, rest).
Proof.
  intros Hfront Hfinal. revert flags_set.
  induction Hfront as [|b front Hb Hfront IH]; intros flags_set; simpl.
  - rewrite Hfinal. done.
  - rewrite Hb. simpl. rewrite IH, <- app_assoc. done.
Qed.

(** A last flag byte is positive exactly when one of its seven flags is set. *)
Lemma final_flag_positive final :
  more_flags (ord final) = false →
  (0 <? ord final) = true ↔ set_positions 0 (bits_of_flag (ord final)) ≠ [].
Proof.
  destruct final; vm_compute; intros Hmore; try discriminate Hmore;
    split; intros H; try discriminate H; try done; try (intros [=]).
Qed.

(** The test [flag > 0 or len(flags_set) > 8]: some flag is set, or more
    than one flag byte was read. *)
Lemma read_flags_paramlen_test front final :
  Forall (λ b, more_flags (ord b) = true) front →
  more_flags (ord final) = false →
  (0 <? ord final) || (8 <? length (flag_bits (front ++ [final])))%nat = true
  ↔ set_positions 0 (flag_bits (front ++ [final])) ≠ [] ∨ front ≠ [].
Proof.
  intros Hfront Hfinal. rewrite orb_true_iff, Nat.ltb_lt, flag_bits_length, length_app.
  simpl. destruct front as [|b front]; simpl.
  - rewrite (final_flag_positive final Hfinal).
    unfold flag_bits. simpl. rewrite app_nil_r. split.
    + intros [H|H]; [by left|lia].
    + intros [H|H]; [by left|done].
  - split; [intros _; by right|intros _; right; lia].
Qed.

Lemma read_flags_fields_Ok flag_defines flags_set i flags r flags' r' :
  read_flags_fields flag_defines flags_set i flags r = Ok flags' r' →
  ∃ kvs : list (string * pyval),
    flags' = assign_all kvs flags
    ∧ Forall2 (λ j kv, ∃ cb, flag_defines !! j = Some (kv.1, cb)
                        ∧ ∃ ra rb, call cb ra = Ok kv.2 rb)
        (set_positions i flags_set) kvs.
Proof.
  revert i flags r. induction flags_set as [|b flags_set IH]; intros i flags r; simpl.
  - intros [= <- <-]. exists []. split; [done|constructor].
  - destruct b; simpl; [|apply IH].
    destruct (flag_defines !! i) as [[fname cb]|] eqn:Hi; [|done].
    intros (val & r1 & Hcall & H)%bind_Ok.
    apply IH in H as (kvs & -> & Hall).
    exists ((fname, val) :: kvs). split; [done|].
    constructor; [|done]. exists cb. split; [done|]. by exists r, r1.
Qed.

Lemma read_flags_fields_app flag_defines bits1 bits2 i flags r :
  read_flags_fields flag_defines (bits1 ++ bits2) i flags r
  = (flags1 <- read_flags_fields flag_defines bits1 i flags ;;
     read_flags_fields flag_defines bits2 (i + length bits1) flags1) r.
Proof.
  revert i flags r. induction bits1 as [|b bits1 IH]; intros i flags r; simpl.
  - unfold bind, ret. by rewrite Nat.add_0_r.
  - replace (i + S (length bits1))%nat with (S i + length bits1)%nat by lia.
    destruct b; [|apply IH].
    destruct (flag_defines !! i) as [[fname cb]|]; [|done].
    unfold bind. destruct (call cb r) as [val r1|e]; [|done].
    rewrite IH. done.
Qed.

(** What a successful [read_flags] has done. *)
Lemma read_flags_Ok flag_defines r flags r' :
  read_flags flag_defines r = Ok flags r' →
  ∃ front final rest kvs,
    fd r = front ++ final :: rest
    ∧ Forall (λ b, more_flags (ord b) = true) front
    ∧ more_flags (ord final) = false
    ∧ read_flags_bytes (fd r) [] = Some (flag_bits (front ++ [final]), ord final, rest)
    ∧ Forall2 (λ j kv, ∃ cb, flag_defines !! j = Some (kv.1, cb)
                        ∧ ∃ ra rb, call cb ra = Ok kv.2 rb)
        (set_positions 0 (flag_bits (front ++ [final]))) kvs
    ∧ flags = assign_all kvs ∅
    ∧ (set_positions 0 (flag_bits (front ++ [final])) ≠ [] ∨ front ≠ [] →
       ∃ paramlen r1,
         read_uint16_t (set_fd rest r) = Ok paramlen r1
         ∧ read_flags_fields flag_defines (flag_bits (front ++ [final])) 0 ∅ r1
           = Ok flags r')
    ∧ (set_positions 0 (flag_bits (front ++ [final])) = [] → front = [] →
       r' = set_fd rest r).
Proof.
  unfold read_flags.
  destruct (read_flags_bytes (fd r) []) as [[[fs flag] rest]|] eqn:Hbytes; [|done].
  pose proof Hbytes as (front & final & Hfd & Hfront & Hfinal & -> & ->)%read_flags_bytes_Some.
  simpl. pose proof (read_flags_paramlen_test front final Hfront Hfinal) as Htest.
  destruct (_ || _) eqn:Hcond.
  - intros (paramlen & r1 & Hlen & Hfields)%bind_Ok.
    pose proof Hfields as (kvs & -> & Hall)%read_flags_fields_Ok.
    exists front, final, rest, kvs. repeat split; try done.
    + intros _. by exists paramlen, r1.
    + intros Hnil Hfront0. destruct Htest as [Htest _].
      destruct (Htest eq_refl); done.
  - intros [= <- <-]. exists front, final, rest, [].
    assert (set_positions 0 (flag_bits (front ++ [final])) = []) as Hnil.
    { destruct (set_positions 0 _) eqn:Hpos; [done|].
      destruct Htest as [_ Htest]. discriminate Htest. by left. }
    repeat split; try done.
    + rewrite Hnil. constructor.
    + intros Hor. destruct Htest as [_ Htest]. discriminate Htest.
      destruct Hor as [Hor|Hor]; [by left|by right].
Qed.

Lemma flag_sequence_read front final rest r :
  fd r = (front ++ [final]) ++ rest →
  Forall (λ b, more_flags (ord b) = true) front →
  more_flags (ord final) = false →
  read_flags_bytes (fd r) [] = Some (flag_bits (front ++ [final]), ord final, rest).
Proof.
  intros -> Hfront Hfinal. rewrite <- app_assoc. simpl.
  by rewrite read_flags_bytes_sequence.
Qed.

(** A stream starts with one complete sequence of flag bytes at most. *)
Lemma flag_sequence_inj fbytes rest fbytes' rest' :
  fbytes ++ rest = fbytes' ++ rest' →
  flag_sequence fbytes → flag_sequence fbytes' →
  fbytes = fbytes' ∧ rest = rest'.
Proof.
  intros Heq (front & final & -> & Hfront & Hfinal) (front' & final' & -> & Hfront' & Hfinal').
  pose proof (flag_sequence_read front final rest (init ((front ++ [final]) ++ rest))
                eq_refl Hfront Hfinal) as H1.
  pose proof (flag_sequence_read front' final' rest' (init ((front ++ [final]) ++ rest))
                Heq Hfront' Hfinal') as H2.
  rewrite H1 in H2. injection H2 as _ _ <-.
  split; [|done]. by apply app_inv_tail in Heq.
Qed.

(** Keys and flags of a decoded flag set: every key comes from a set flag
    and holds what that flag's callback returned, and every set flag has
    left its key. *)
Lemma read_flags_keys flag_defines r flags r' :
  read_flags flag_defines r = Ok flags r' →
  ∃ fbytes rest,
    fd r = fbytes ++ rest
    ∧ flag_sequence fbytes
    ∧ (∀ k v, flags !! k = Some v →
         ∃ j cb, flag_bits fbytes !! j = Some true
           ∧ flag_defines !! j = Some (k, cb)
           ∧ ∃ ra rb, call cb ra = Ok v rb)
    ∧ (∀ j, flag_bits fbytes !! j = Some true →
         ∃ k cb, flag_defines !! j = Some (k, cb) ∧ is_Some (flags !! k)).
Proof.
  intros (front & final & rest & kvs & Hfd & Hfront & Hfinal & _ & Hall & -> & _)%read_flags_Ok.
  exists (front ++ [final]), rest. split; [by rewrite <- app_assoc|].
  split; [by exists front, final|]. split.
  - intros k v [Hk|Hk]%assign_all_lookup; [by rewrite lookup_empty in Hk|].
    apply list_elem_of_lookup in Hk as (n & Hn).
    destruct (Forall2_lookup_r _ _ _ _ _ Hall Hn) as (j & Hj & cb & Hdef & Hcall).
    exists j, cb. split; [|done].
    assert (j ∈ set_positions 0 (flag_bits (front ++ [final]))) as Hin
      by (apply list_elem_of_lookup; eauto).
    by apply elem_of_set_positions in Hin as (m & -> & Hm).
  - intros j Hj.
    assert (j ∈ set_positions 0 (flag_bits (front ++ [final]))) as Hin
      by (apply elem_of_set_positions; eauto).
    apply list_elem_of_lookup in Hin as (n & Hn).
    destruct (Forall2_lookup_l _ _ _ _ _ Hall Hn) as ([k v] & Hkv & cb & Hdef & _).
    exists k, cb. split; [done|]. apply elem_of_dom.
    rewrite assign_all_dom. apply elem_of_union_l, elem_of_list_to_set.
    apply list_elem_of_fmap. exists (k, v). split; [done|].
    apply list_elem_of_lookup. eauto.
Qed.

(** C1: for every schema and every stream that starts with a complete
    sequence of flag bytes (the high bit of a byte says that another
    follows), when [read_flags] decodes the flag set, the keys of the
    dictionary it returns are exactly the schema names at the positions of
    the set flags; the dictionary is the result of assigning to those
    names, one after the other in ascending order of position, what their
    callbacks returned; and the 16-bit
    parameter length was read, right behind the flag bytes, exactly when
    some flag was set or more than one flag byte was read: otherwise
    nothing is read behind the one flag byte. *)
Theorem read_flags_decodes flag_defines r fbytes rest flags r' :
  fd r = fbytes ++ rest →
  flag_sequence fbytes →
  read_flags flag_defines r = Ok flags r' →
  ∃ positions kvs,
    StronglySorted lt positions
    ∧ (∀ i, i ∈ positions ↔ flag_bits fbytes !! i = Some true)
    ∧ (∀ k, k ∈ dom flags ↔
         ∃ i cb, flag_bits fbytes !! i = Some true ∧ flag_defines !! i = Some (k, cb))
    ∧ Forall2 (λ i kv, ∃ cb, flag_defines !! i = Some (kv.1, cb)
                         ∧ ∃ ra rb, call cb ra = Ok kv.2 rb) positions kvs
    ∧ flags = assign_all kvs ∅
    ∧ (positions ≠ [] ∨ (1 < length fbytes)%nat →
         ∃ paramlen r1,
           read_uint16_t (set_fd rest r) = Ok paramlen r1
           ∧ read_flags_fields flag_defines (flag_bits fbytes) 0 ∅ r1 = Ok flags r')
    ∧ (positions = [] → length fbytes = 1%nat →
         flags = ∅ ∧ r' = set_fd rest r).
Proof.
  intros Hfd0 Hseq0 Hread.
  pose proof Hread as (fbytes' & rest' & Hfd' & Hseq' & Hkey & Hflag)%read_flags_keys.
  pose proof Hread as
    (front & final & rest0 & kvs & Hfd & Hfront & Hfinal & _ & Hall & -> & Hyes & Hno)%read_flags_Ok.
  assert (fbytes' = fbytes ∧ rest' = rest) as [-> ->].
  { apply flag_sequence_inj; [congruence|done..]. }
  assert (front ++ [final] = fbytes ∧ rest0 = rest) as [<- ->].
  { apply flag_sequence_inj; [|by exists front, final|done].
    rewrite <- app_assoc. simpl. congruence. }
  exists (set_positions 0 (flag_bits (front ++ [final]))), kvs.
  split; [apply set_positions_sorted|].
  split; [|split; [|split; [|split; [done|split]]]].
  - intros i. rewrite elem_of_set_positions. split.
    + by intros (n & -> & Hn).
    + intros Hi. by exists i.
  - intros k. rewrite elem_of_dom. split.
    + intros [v Hv]. apply Hkey in Hv as (j & cb & Hj & Hdef & _). eauto.
    + intros (i & cb & Hi & Hdef).
      apply Hflag in Hi as (k' & cb' & Hdef' & Hsome). by simplify_eq.
  - exact Hall.
  - intros [Hpos|Hlen]; apply Hyes; [by left|right].
    intros ->. simpl in Hlen. lia.
  - intros Hpos Hlen. rewrite Hpos in Hall. apply Forall2_nil_inv_l in Hall as ->.
    split; [done|]. apply Hno; [done|].
    rewrite length_app in Hlen. simpl in Hlen. destruct front; [done|simpl in Hlen; lia].
Qed.

(** C8: a flag set in which a flag at or beyond the length of the schema
    is set is never decoded: [read_flags] returns no dictionary for it.  The
    flag is not skipped either: once the parameter length and the fields of
    the set flags below it have been read, [read_flags] stops with
    [sys.exit(-1)] at the unknown flag. *)
Theorem read_flags_unknown_flag flag_defines r fbytes rest i :
  fd r = fbytes ++ rest →
  flag_sequence fbytes →
  flag_bits fbytes !! i = Some true →
  (length flag_defines ≤ i)%nat →
  (∀ flags r', read_flags flag_defines r ≠ Ok flags r')
  ∧ (∀ paramlen r1 flags1 r2,
       read_uint16_t (set_fd rest r) = Ok paramlen r1 →
       read_flags_fields flag_defines (take i (flag_bits fbytes)) 0 ∅ r1 = Ok flags1 r2 →
       read_flags flag_defines r = Raise (SystemExit exit_unknown_flag)).
Proof.
  intros Hfd (front & final & -> & Hfront & Hfinal) Hi Hlen.
  pose proof (flag_sequence_read _ _ _ _ Hfd Hfront Hfinal) as Hbytes.
  split.
  - intros flags r' (fbytes' & rest' & Hfd' & Hseq' & _ & Hflag)%read_flags_keys.
    destruct Hseq' as (front' & final' & -> & Hfront' & Hfinal').
    pose proof (flag_sequence_read _ _ _ _ Hfd' Hfront' Hfinal') as Hbytes'.
    rewrite Hbytes in Hbytes'. injection Hbytes' as Heq _ _. rewrite <- Heq in Hflag.
    apply Hflag in Hi as (k & cb & Hdef & _).
    apply lookup_lt_Some in Hdef. lia.
  - intros paramlen r1 flags1 r2 Hparam Hfields.
    unfold read_flags. rewrite Hbytes.
    assert ((0 <? ord final) || (8 <? length (flag_bits (front ++ [final])))%nat = true)
      as ->.
    { apply read_flags_paramlen_test; [done..|]. left. intros Hnil.
      assert (i ∈ set_positions 0 (flag_bits (front ++ [final]))) as Hin
        by (apply elem_of_set_positions; eauto).
      rewrite Hnil in Hin. by apply elem_of_nil in Hin. }
    unfold bind at 1. rewrite Hparam.
    rewrite <- (take_drop i (flag_bits (front ++ [final]))) at 1.
    rewrite read_flags_fields_app. unfold bind. rewrite Hfields.
    rewrite (drop_S _ true i) by done. simpl.
    rewrite length_take_le by (apply lookup_lt_Some in Hi; lia).
    by rewrite lookup_ge_None_2.
Qed.

(** ** Hops *)

(** Where the names the hop loop looks at sit in [hop_flags]. *)
Lemma lookup_hop_flags j k cb :
  hop_flags !! j = Some (k, cb) →
  (k = "icmp"%string → j = 6%nat ∧ cb = cb_read_uint16_t)
  ∧ (k = "ipid"%string → j = 9%nat)
  ∧ (k = "qttl"%string → j = 13%nat)
  ∧ k ≠ "icmp-type"%string ∧ k ≠ "icmp-code"%string.
Proof.
  do 19 (destruct j as [|j]; [intros [= <- <-]; by repeat split|]).
  done.
Qed.

Lemma lookup_backfill_ne src dst (flags : gmap string pyval) k :
  k ≠ dst → backfill src dst flags !! k = flags !! k.
Proof.
  intros Hne. unfold backfill.
  destruct (flags !! src), (flags !! dst); try done. by rewrite lookup_insert_ne.
Qed.

Lemma lookup_default_to_ne key v (flags : gmap string pyval) k :
  k ≠ key → default_to key v flags !! k = flags !! k.
Proof.
  intros Hne. unfold default_to. destruct (flags !! key); [done|].
  by rewrite lookup_insert_ne.
Qed.

Lemma lookup_default_to key v (flags : gmap string pyval) :
  default_to key v flags !! key
  = match flags !! key with Some w => Some w | None => Some v end.
Proof.
  unfold default_to. destruct (flags !! key) eqn:Hkey; [done|].
  by rewrite lookup_insert_eq.
Qed.

Lemma split_icmp_Ok hflags r hop r' :
  split_icmp hflags r = Ok hop r' →
  r' = r
  ∧ hop !! "icmp"%string = None
  ∧ (∀ k, k ≠ "icmp"%string → k ≠ "icmp-type"%string → k ≠ "icmp-code"%string →
       hop !! k = hflags !! k)
  ∧ (∀ v, hflags !! "icmp"%string = Some v →
       ∃ icmp, v = VInt icmp
         ∧ hop !! "icmp-type"%string = Some (VInt (Z.shiftr icmp 8))
         ∧ hop !! "icmp-code"%string = Some (VInt (Z.land icmp 0xFF))).
Proof.
  unfold split_icmp. destruct (hflags !! "icmp"%string) as [[icmp| |]|] eqn:Hicmp; try done.
  - intros [= <- <-]. split; [done|]. split; [apply lookup_delete_eq|]. split.
    + intros k H1 H2 H3. rewrite lookup_delete_ne by done.
      by rewrite !lookup_insert_ne.
    + intros v [= <-]. exists icmp. split; [done|].
      rewrite !lookup_delete_ne by done. rewrite lookup_insert_eq.
      rewrite lookup_insert_ne by done. by rewrite lookup_insert_eq.
  - intros [= <- <-]. repeat split; try done.
Qed.

(** The field under [icmp] is the integer [read_uint16_t] returned. *)
Lemma read_flags_hop_icmp r hflags r' v :
  read_flags hop_flags r = Ok hflags r' →
  hflags !! "icmp"%string = Some v →
  ∃ icmp, v = VInt icmp ∧ 0 ≤ icmp < 65536.
Proof.
  intros (fbytes & rest & _ & _ & Hkey & _)%read_flags_keys Hv.
  apply Hkey in Hv as (j & cb & _ & Hdef & ra & rb & Hcall).
  apply lookup_hop_flags in Hdef as (Hicmp & _). destruct Hicmp as [_ ->]; [done|].
  simpl in Hcall. apply bind_Ok in Hcall as (n & r1 & Hn & [= <- _]).
  exists n. split; [done|]. by eapply read_uint16_t_range.
Qed.

(** The hop loop never fails behind [read_flags]: the [icmp] it splits is an
    integer. *)
Lemma read_trace_hop_returns r hflags r' :
  read_flags hop_flags r = Ok hflags r' →
  ∃ hop, read_trace_hop r = Ok hop r'.
Proof.
  intros Hread. unfold read_trace_hop, bind. rewrite Hread.
  unfold split_icmp.
  rewrite !lookup_default_to_ne, lookup_backfill_ne by done.
  destruct (hflags !! "icmp"%string) as [v|] eqn:Hv; [|by eexists].
  destruct (read_flags_hop_icmp _ _ _ _ Hread Hv) as (icmp & -> & _). by eexists.
Qed.

Lemma shiftr_land_bytes icmp :
  0 ≤ icmp < 65536 →
  icmp = Z.shiftr icmp 8 * 256 + Z.land icmp 0xFF
  ∧ 0 ≤ Z.shiftr icmp 8 < 256 ∧ 0 ≤ Z.land icmp 0xFF < 256.
Proof.
  intros Hrange. rewrite Z.shiftr_div_pow2 by lia.
  change 0xFF with (Z.ones 8). rewrite Z.land_ones by lia.
  change (2 ^ 8) with 256.
  pose proof (Z.div_mod icmp 256 ltac:(lia)).
  pose proof (Z.mod_pos_bound icmp 256 ltac:(lia)).
  split; [lia|]. split; [|lia].
  split; [apply Z.div_pos; lia|apply Z.div_lt_upper_bound; lia].
Qed.

(** The fields of one hop, from the flag bytes it was read from. *)
Lemma read_trace_hop_fields r fbytes rest hop r' :
  fd r = fbytes ++ rest →
  flag_sequence fbytes →
  read_trace_hop r = Ok hop r' →
  (flag_bits fbytes !! 9%nat ≠ Some true → hop !! "ipid"%string = Some (VInt 0))
  ∧ (flag_bits fbytes !! 13%nat ≠ Some true → hop !! "qttl"%string = Some (VInt 1))
  ∧ (flag_bits fbytes !! 6%nat = Some true →
       ∃ hflags icmp,
         read_flags hop_flags r = Ok hflags r'
         ∧ hflags !! "icmp"%string = Some (VInt icmp)
         ∧ hop !! "icmp-type"%string = Some (VInt (Z.shiftr icmp 8))
         ∧ hop !! "icmp-code"%string = Some (VInt (Z.land icmp 0xFF))
         ∧ icmp = Z.shiftr icmp 8 * 256 + Z.land icmp 0xFF
         ∧ 0 ≤ Z.shiftr icmp 8 < 256 ∧ 0 ≤ Z.land icmp 0xFF < 256).
Proof.
  intros Hfd0 Hseq0 Hhop. unfold read_trace_hop in Hhop.
  apply bind_Ok in Hhop as (hflags & r1 & Hread & Hsplit).
  apply split_icmp_Ok in Hsplit as (-> & _ & Hother & Hicmp).
  pose proof Hread as (fbytes' & rest' & Hfd & Hseq & Hkey & Hflag)%read_flags_keys.
  assert (fbytes' = fbytes ∧ rest' = rest) as [-> ->].
  { apply flag_sequence_inj; [congruence|done..]. }
  split; [|split].
  - intros Hbit.
    assert (hflags !! "ipid"%string = None) as Hnone.
    { destruct (hflags !! "ipid"%string) as [v|] eqn:Hv; [|done].
      apply Hkey in Hv as (j & cb & Hj & Hdef & _).
      apply lookup_hop_flags in Hdef as (_ & Hipid & _). by rewrite Hipid in Hj. }
    rewrite Hother by done.
    rewrite lookup_default_to_ne by done.
    by rewrite lookup_default_to, lookup_backfill_ne, Hnone.
  - intros Hbit.
    assert (hflags !! "qttl"%string = None) as Hnone.
    { destruct (hflags !! "qttl"%string) as [v|] eqn:Hv; [|done].
      apply Hkey in Hv as (j & cb & Hj & Hdef & _).
      apply lookup_hop_flags in Hdef as (_ & _ & Hqttl & _). by rewrite Hqttl in Hj. }
    rewrite Hother by done.
    by rewrite lookup_default_to, lookup_default_to_ne, lookup_backfill_ne, Hnone.
  - intros Hbit. apply Hflag in Hbit as (k & cb & Hdef & v & Hv).
    injection Hdef as <- <-.
    destruct (read_flags_hop_icmp _ _ _ _ Hread Hv) as (icmp & -> & Hrange).
    exists hflags, icmp. split; [done|]. split; [done|].
    destruct (Hicmp (VInt icmp)) as (icmp' & [= <-] & Htype & Hcode).
    { by rewrite !lookup_default_to_ne, lookup_backfill_ne. }
    split; [done|]. split; [done|]. by apply shiftr_land_bytes.
Qed.

Lemma successively_impl {A} (P Q : WartsReader → A → WartsReader → Prop) r l r' :
  (∀ ra a rb, P ra a rb → Q ra a rb) →
  successively P r l r' → successively Q r l r'.
Proof.
  intros HPQ. induction 1; econstructor; eauto.
Qed.

(** The hops the loop of [read_trace] appends are what its turns gave, one
    after the other. *)
Lemma read_trace_hops_successively records hops r hops' r' :
  read_trace_hops records hops r = Ok hops' r' →
  ∃ new, hops' = hops ++ new
    ∧ length new = records
    ∧ successively (λ ra hop rb, read_trace_hop ra = Ok hop rb) r new r'.
Proof.
  revert hops r. induction records as [|records IH]; intros hops r; simpl.
  - intros [= <- <-]. exists []. rewrite app_nil_r. repeat split. constructor.
  - intros (hop & r1 & Hhop & H)%bind_Ok.
    apply IH in H as (new & -> & Hlen & Hrun).
    exists (hop :: new). rewrite <- app_assoc. split; [done|].
    split; [simpl; lia|]. by econstructor.
Qed.

(** The loop goes through whenever [read_flags] returns a flag set for
    every hop: nothing behind [read_flags] fails. *)
Lemma read_trace_hops_returns hflagss r r' hops :
  successively (λ ra hflags rb, read_flags hop_flags ra = Ok hflags rb) r hflagss r' →
  ∃ hops', read_trace_hops (length hflagss) hops r = Ok hops' r'.
Proof.
  intros Hrun. revert hops.
  induction Hrun as [r|r hflags r1 hflagss r' Hread _ IH]; intros hops; simpl.
  - by eexists.
  - destruct (read_trace_hop_returns _ _ _ Hread) as (hop & Hhop).
    unfold bind. rewrite Hhop. apply IH.
Qed.

(** The steps of [read_trace] around the hop loop. *)
Lemma read_trace_Ok r flags hops r' :
  read_trace r = Ok (flags, hops) r' →
  ∃ r0 flags0 r1 records r2 r3,
    clear_address_ref r = Ok tt r0
    ∧ read_flags trace_flags r0 = Ok flags0 r1
    ∧ flags = backfill "dstipid" "dstaddr" (backfill "srcipid" "srcaddr" flags0)
    ∧ read_uint16_t r1 = Ok records r2
    ∧ Z.of_nat (length hops) = records
    ∧ successively (λ ra hop rb, read_trace_hop ra = Ok hop rb) r2 hops r3
    ∧ read_uint16_t r3 = Ok 0 r'.
Proof.
  intros H. unfold read_trace, read_trace_record in H.
  apply bind_Ok in H as ([] & r0 & Hclear & H).
  apply bind_Ok in H as (flags0 & r1 & Hflags & H).
  apply bind_Ok in H as (records & r2 & Hcount & H).
  apply bind_Ok in H as (hops0 & r3 & Hhops & H).
  apply bind_Ok in H as (end_ & r4 & Hend & H).
  destruct (end_ =? 0) eqn:Hzero; [|done]. injection H as <- <- <-.
  apply Z.eqb_eq in Hzero as ->.
  apply read_trace_hops_successively in Hhops as (new & -> & Hlen & Hrun).
  exists r0, flags0, r1, records, r2, r3. simpl.
  apply read_uint16_t_range in Hcount as Hrange.
  repeat (split; [done || lia|]). done.
Qed.

(** C4: the hops of every trace [read_trace] returns are what the turns of
    its loop made of the hop flag sets, read one behind the other after the
    hop count: in each of them [ipid] is 0 when the [ipid] flag (the tenth
    of [hop_flags]) was not set in the flag bytes of the hop and [qttl] is
    1 when the [qttl] flag (the fourteenth) was not set; when the [icmp]
    flag (the seventh) was set, [icmp-type] is the high byte and
    [icmp-code] the low byte of the 16-bit value read for it. *)
Theorem read_trace_hop_defaults_and_icmp r flags hops r' :
  read_trace r = Ok (flags, hops) r' →
  ∃ r0 flags0 r1 records r2 r3,
    clear_address_ref r = Ok tt r0
    ∧ read_flags trace_flags r0 = Ok flags0 r1
    ∧ read_uint16_t r1 = Ok records r2
    ∧ Z.of_nat (length hops) = records
    ∧ read_uint16_t r3 = Ok 0 r'
    ∧ successively
        (λ ra hop rb,
           ∃ fbytes rest hflags,
             fd ra = fbytes ++ rest
             ∧ flag_sequence fbytes
             ∧ read_flags hop_flags ra = Ok hflags rb
             ∧ (flag_bits fbytes !! 9%nat ≠ Some true →
                  hop !! "ipid"%string = Some (VInt 0))
             ∧ (flag_bits fbytes !! 13%nat ≠ Some true →
                  hop !! "qttl"%string = Some (VInt 1))
             ∧ (flag_bits fbytes !! 6%nat = Some true →
                  ∃ icmp,
                    hflags !! "icmp"%string = Some (VInt icmp)
                    ∧ hop !! "icmp-type"%string = Some (VInt (Z.shiftr icmp 8))
                    ∧ hop !! "icmp-code"%string = Some (VInt (Z.land icmp 0xFF))
                    ∧ icmp = Z.shiftr icmp 8 * 256 + Z.land icmp 0xFF
                    ∧ 0 ≤ Z.shiftr icmp 8 < 256 ∧ 0 ≤ Z.land icmp 0xFF < 256))
        r2 hops r3.
Proof.
  intros (r0 & flags0 & r1 & records & r2 & r3 & Hclear & Hflags & _ & Hcount
          & Hlen & Hrun & Hend)%read_trace_Ok.
  exists r0, flags0, r1, records, r2, r3.
  repeat (split; [done|]).
  eapply successively_impl; [|exact Hrun].
  intros ra hop rb Hhop. simpl in Hhop.
  pose proof Hhop as (hflags & r4 & Hread & Hsplit)%bind_Ok.
  apply split_icmp_Ok in Hsplit as (-> & _).
  pose proof Hread as (fbytes & rest & Hfd & Hseq & _)%read_flags_keys.
  destruct (read_trace_hop_fields _ _ _ _ _ Hfd Hseq Hhop) as (Hipid & Hqttl & Hicmp).
  exists fbytes, rest, hflags. repeat (split; [done|]).
  intros Hbit. destruct (Hicmp Hbit) as (hflags' & icmp & Hread' & Hrest).
  rewrite Hread in Hread'. injection Hread' as <-. by exists icmp.
Qed.

(** C10: in the hops [read_trace] returns, a hop whose flag set had the
    [icmp] field has the derived [icmp-type] and [icmp-code] entries and no
    [icmp] key: the loop deletes it after the split.  The split itself
    never fails, so a trace whose flag sets are all read, with a zero
    behind the last hop, is returned. *)
Theorem read_trace_hop_drops_icmp r :
  (∀ flags hops r',
     read_trace r = Ok (flags, hops) r' →
     ∃ r0 flags0 r1 records r2 r3,
       clear_address_ref r = Ok tt r0
       ∧ read_flags trace_flags r0 = Ok flags0 r1
       ∧ read_uint16_t r1 = Ok records r2
       ∧ Z.of_nat (length hops) = records
       ∧ read_uint16_t r3 = Ok 0 r'
       ∧ successively
           (λ ra hop rb,
              ∃ hflags,
                read_flags hop_flags ra = Ok hflags rb
                ∧ hop !! "icmp"%string = None
                ∧ ∀ v, hflags !! "icmp"%string = Some v →
                    ∃ icmp, v = VInt icmp
                      ∧ hop !! "icmp-type"%string = Some (VInt (Z.shiftr icmp 8))
                      ∧ hop !! "icmp-code"%string = Some (VInt (Z.land icmp 0xFF)))
           r2 hops r3)
  ∧ (∀ r0 flags0 r1 records r2 hflagss r3 r',
       clear_address_ref r = Ok tt r0 →
       read_flags trace_flags r0 = Ok flags0 r1 →
       read_uint16_t r1 = Ok records r2 →
       successively (λ ra hflags rb, read_flags hop_flags ra = Ok hflags rb)
         r2 hflagss r3 →
       Z.of_nat (length hflagss) = records →
       read_uint16_t r3 = Ok 0 r' →
       ∃ flags hops, read_trace r = Ok (flags, hops) r').
Proof.
  split.
  - intros flags hops r'
      (r0 & flags0 & r1 & records & r2 & r3 & Hclear & Hflags & _ & Hcount
       & Hlen & Hrun & Hend)%read_trace_Ok.
    exists r0, flags0, r1, records, r2, r3.
    repeat (split; [done|]).
    eapply successively_impl; [|exact Hrun].
    intros ra hop rb (hflags & r4 & Hread & Hsplit)%bind_Ok.
    apply split_icmp_Ok in Hsplit as (-> & Hgone & _ & Hicmp).
    exists hflags. split; [done|]. split; [done|].
    intros v Hv. apply Hicmp.
    by rewrite !lookup_default_to_ne, lookup_backfill_ne.
  - intros r0 flags0 r1 records r2 hflagss r3 r' Hclear Hflags Hcount Hrun Hlen Hend.
    destruct (read_trace_hops_returns _ _ _ [] Hrun) as (hops & Hhops).
    unfold read_trace, read_trace_record, bind.
    rewrite Hclear, Hflags, Hcount.
    rewrite <- Hlen, Nat2Z.id, Hhops, Hend. simpl. by eexists _, _.
Qed.

(** ** MPLS extensions *)

Lemma land_low_mul a c n : 0 ≤ n → 0 ≤ a < 2 ^ n → Z.land a (c * 2 ^ n) = 0.
Proof.
  intros Hn Ha. apply Z.bits_inj'. intros i Hi.
  rewrite Z.land_spec, Z.bits_0.
  destruct (Z.lt_ge_cases i n) as [Hlt|Hge].
  - rewrite Z.mul_pow2_bits_low by lia. apply andb_false_r.
  - destruct (Z.eq_dec a 0) as [->|Hne]; [by rewrite Z.bits_0|].
    rewrite (Z.bits_above_log2 a i); [done|lia|].
    apply Z.log2_lt_pow2; [lia|].
    assert (2 ^ n ≤ 2 ^ i) by (apply Z.pow_le_mono_r; lia). lia.
Qed.

Lemma lor_low_mul a c n : 0 ≤ n → 0 ≤ a < 2 ^ n → Z.lor a (c * 2 ^ n) = a + c * 2 ^ n.
Proof.
  intros Hn Ha. pose proof (Z.add_lor_land a (c * 2 ^ n)) as H.
  rewrite land_low_mul in H by done. lia.
Qed.

(** The integer [struct.unpack('I', ...)] returns on a little-endian host. *)
Lemma unpack_I_little s0 s1 s2 s3 :
  0 ≤ s0 < 256 → 0 ≤ s1 < 256 → 0 ≤ s2 < 256 → 0 ≤ s3 < 256 →
  Z.lor s0 (Z.lor (Z.shiftl s1 8) (Z.lor (Z.shiftl s2 16) (Z.shiftl s3 24)))
  = s0 + s1 * 256 + s2 * 65536 + s3 * 16777216.
Proof.
  intros H0 H1 H2 H3. rewrite !Z.shiftl_mul_pow2 by lia.
  rewrite (lor_low_mul (s2 * 2 ^ 16) s3 24) by lia.
  replace (s2 * 2 ^ 16 + s3 * 2 ^ 24) with ((s2 + s3 * 2 ^ 8) * 2 ^ 16) by lia.
  rewrite (lor_low_mul (s1 * 2 ^ 8) _ 16) by lia.
  replace (s1 * 2 ^ 8 + (s2 + s3 * 2 ^ 8) * 2 ^ 16)
    with ((s1 + s2 * 2 ^ 8 + s3 * 2 ^ 16) * 2 ^ 8) by lia.
  rewrite (lor_low_mul s0 _ 8) by lia. lia.
Qed.

(** [b0..b3] of [parse_mpls_icmpext] are the bytes of that integer, least
    significant first. *)
Lemma bytes_of_u32 s0 s1 s2 s3 :
  0 ≤ s0 < 256 → 0 ≤ s1 < 256 → 0 ≤ s2 < 256 → 0 ≤ s3 < 256 →
  Z.land (Z.shiftr (s0 + s1 * 256 + s2 * 65536 + s3 * 16777216) 0) 0xFF = s0
  ∧ Z.land (Z.shiftr (s0 + s1 * 256 + s2 * 65536 + s3 * 16777216) 8) 0xFF = s1
  ∧ Z.land (Z.shiftr (s0 + s1 * 256 + s2 * 65536 + s3 * 16777216) 16) 0xFF = s2
  ∧ Z.land (Z.shiftr (s0 + s1 * 256 + s2 * 65536 + s3 * 16777216) 24) 0xFF = s3.
Proof.
  intros H0 H1 H2 H3.
  change 0xFF with (Z.ones 8). rewrite !Z.land_ones, !Z.shiftr_div_pow2 by lia.
  change (2 ^ 0) with 1. change (2 ^ 8) with 256. change (2 ^ 16) with 65536.
  change (2 ^ 24) with 16777216.
  repeat split; Z.div_mod_to_equations; lia.
Qed.

(** The sum the code computes for the label is the bitwise or of its three
    parts, which share no bit. *)
Lemma mpls_label_lor b0 b1 b2 :
  0 ≤ b0 < 256 → 0 ≤ b1 < 256 → 0 ≤ b2 < 256 →
  Z.shiftl b0 12 + Z.shiftl b1 4 + Z.land (Z.shiftr b2 4) 0xFF
  = Z.lor (Z.shiftl b0 12) (Z.lor (Z.shiftl b1 4) (Z.shiftr b2 4)).
Proof.
  intros H0 H1 H2.
  assert (0 ≤ Z.shiftr b2 4 < 16) as Hs.
  { rewrite Z.shiftr_div_pow2 by lia. change (2 ^ 4) with 16.
    Z.div_mod_to_equations; lia. }
  change 0xFF with (Z.ones 8). rewrite Z.land_ones by lia.
  rewrite (Z.mod_small (Z.shiftr b2 4)) by (change (2 ^ 8) with 256; lia).
  rewrite !Z.shiftl_mul_pow2 by lia.
  rewrite (Z.lor_comm (b1 * 2 ^ 4)), (lor_low_mul _ b1 4) by lia.
  rewrite (Z.lor_comm (b0 * 2 ^ 12)), (lor_low_mul _ b0 12) by lia.
  lia.
Qed.

Lemma mpls_of_u32_little s0 s1 s2 s3 :
  mpls_of_u32 (Z.lor (ord s0) (Z.lor (Z.shiftl (ord s1) 8)
                 (Z.lor (Z.shiftl (ord s2) 16) (Z.shiftl (ord s3) 24))))
  = mpls_of_unit (ord s0) (ord s1) (ord s2) (ord s3).
Proof.
  pose proof (ord_range s0) as H0. pose proof (ord_range s1) as H1.
  pose proof (ord_range s2) as H2. pose proof (ord_range s3) as H3.
  rewrite unpack_I_little by done. unfold mpls_of_u32, mpls_of_unit.
  destruct (bytes_of_u32 _ _ _ _ H0 H1 H2 H3) as (-> & -> & -> & ->).
  by rewrite mpls_label_lor.
Qed.

Lemma parse_mpls_icmpext_little s0 s1 s2 s3 r :
  little_endian = true →
  parse_mpls_icmpext [s0; s1; s2; s3] r
  = Ok (mpls_extension (mpls_of_unit (ord s0) (ord s1) (ord s2) (ord s3))) r.
Proof.
  intros Hle. unfold parse_mpls_icmpext, bind, unpack_I_native. rewrite Hle.
  simpl. unfold ret. by rewrite mpls_of_u32_little.
Qed.

(** On a big-endian host the same code takes [b0] from the last byte of
    the unit. *)
Lemma parse_mpls_icmpext_big s0 s1 s2 s3 r :
  little_endian = false →
  parse_mpls_icmpext [s0; s1; s2; s3] r
  = Ok (mpls_extension (mpls_of_unit (ord s3) (ord s2) (ord s1) (ord s0))) r.
Proof.
  intros Hbe. unfold parse_mpls_icmpext, bind, unpack_I_native. rewrite Hbe.
  simpl. unfold ret. by rewrite mpls_of_u32_little.
Qed.

Lemma mpls_lines_cons s0 s1 s2 s3 units :
  mpls_lines ((s0, s1, s2, s3) :: units)
  = (mpls_extension (mpls_of_unit (ord s0) (ord s1) (ord s2) (ord s3)) ++ [Byte.x0a])
    ++ mpls_lines units.
Proof. done. Qed.

Lemma read_icmpext_mpls_units units rest fuel ie_dl_read ret_string r :
  little_endian = true →
  fd r = flat_map unit_bytes units ++ rest →
  4 * Z.of_nat (length units) ≤ ie_dl_read < 4 * Z.of_nat (length units) + 4 →
  (length units ≤ fuel)%nat →
  read_icmpext_mpls fuel ie_dl_read ret_string r
  = Ok (ret_string ++ mpls_lines units) (set_fd rest r).
Proof.
  intros Hle. revert fuel ie_dl_read ret_string r.
  induction units as [|[[[s0 s1] s2] s3] units IH];
    intros fuel ie_dl_read ret_string r Hfd Hdl Hfuel.
  - assert ((4 <=? ie_dl_read) = false) as Hlt by (apply Z.leb_gt; simpl in Hdl; lia).
    simpl in Hfd. change (mpls_lines []) with (@nil Byte.byte). rewrite app_nil_r.
    destruct fuel; simpl; rewrite Hlt; unfold ret; f_equal;
      destruct r; simpl in *; by subst.
  - destruct fuel as [|fuel]; [simpl in Hfuel; lia|].
    rewrite mpls_lines_cons. cbn [read_icmpext_mpls].
    assert ((4 <=? ie_dl_read) = true) as ->
      by (apply Z.leb_le; cbn [length] in Hdl; lia).
    change (flat_map unit_bytes ((s0, s1, s2, s3) :: units) ++ rest)
      with (s0 :: s1 :: s2 :: s3 :: flat_map unit_bytes units ++ rest) in Hfd.
    unfold bind at 1. unfold fd_read. rewrite Hfd.
    change (take 4 (s0 :: s1 :: s2 :: s3 :: flat_map unit_bytes units ++ rest))
      with [s0; s1; s2; s3].
    change (drop 4 (s0 :: s1 :: s2 :: s3 :: flat_map unit_bytes units ++ rest))
      with (flat_map unit_bytes units ++ rest).
    unfold bind at 1. rewrite parse_mpls_icmpext_little by done.
    rewrite (IH fuel (ie_dl_read - 4) _ (set_fd (flat_map unit_bytes units ++ rest) r)).
    + by rewrite <- !app_assoc.
    + done.
    + cbn [length] in Hdl. lia.
    + cbn [length] in Hfuel. lia.
Qed.

(** C6: on a little-endian host ([struct.unpack('I', ...)] reads in the
    byte order of the host), an ICMP extension of class 1 and type 1 is
    decoded unit by unit: [parse_mpls_icmpext] turns the four bytes
    [b0..b3] of a unit into label = (b0 << 12) | (b1 << 4) | (b2 >> 4),
    exp = (b2 >> 1) & 0x7, s = b2 & 0x1 and ttl = b3, which it prints;
    and one turn of the loop of [read_icmpext] on such an extension adds the
    line of every 4-byte unit of its [ie_dl] bytes of payload. *)
Theorem read_icmpext_mpls_extension :
  little_endian = true →
  (∀ s0 s1 s2 s3 r,
     parse_mpls_icmpext [s0; s1; s2; s3] r
     = Ok (mpls_extension (mpls_of_unit (ord s0) (ord s1) (ord s2) (ord s3))) r)
  ∧ (∀ fuel tot_len ret_string r dl_hi dl_lo units rest,
       0 < tot_len →
       fd r = dl_hi :: dl_lo :: Byte.x01 :: Byte.x01 :: flat_map unit_bytes units ++ rest →
       4 * Z.of_nat (length units) ≤ Z.lor (Z.shiftl (ord dl_hi) 8) (ord dl_lo)
         < 4 * Z.of_nat (length units) + 4 →
       read_icmpext_loop (S fuel) tot_len ret_string r
       = read_icmpext_loop fuel
           (tot_len - 4 - Z.lor (Z.shiftl (ord dl_hi) 8) (ord dl_lo))
           (ret_string ++ mpls_lines units) (set_fd rest r)).
Proof.
  intros Hle. split; [intros; by apply parse_mpls_icmpext_little|].
  intros fuel tot_len ret_string r dl_hi dl_lo units rest Htot Hfd Hdl. simpl.
  assert ((0 <? tot_len) = true) as -> by (apply Z.ltb_lt; lia).
  unfold bind at 1. rewrite (read_uint16_t_cons dl_hi dl_lo _ r Hfd).
  unfold bind at 1.
  rewrite (read_uint8_t_cons Byte.x01 (Byte.x01 :: flat_map unit_bytes units ++ rest)
             (set_fd (Byte.x01 :: Byte.x01 :: flat_map unit_bytes units ++ rest) r))
    by done.
  unfold bind at 1.
  rewrite (read_uint8_t_cons Byte.x01 (flat_map unit_bytes units ++ rest)
             (set_fd (Byte.x01 :: flat_map unit_bytes units ++ rest)
                (set_fd (Byte.x01 :: Byte.x01 :: flat_map unit_bytes units ++ rest) r)))
    by done.
  change (ord Byte.x01 =? 1) with true. cbn [andb].
  unfold bind.
  rewrite (read_icmpext_mpls_units units rest); [done..| |lia].
  pose proof (ord_range dl_hi). pose proof (ord_range dl_lo).
  assert (0 ≤ Z.lor (Z.shiftl (ord dl_hi) 8) (ord dl_lo)); [|lia].
  apply Z.lor_nonneg. split; [apply Z.shiftl_nonneg|]; lia.
Qed.

(** ** The address table *)

(** C7: the deprecated address object is given the id [len(table) + 1],
    so the ids run 1, 2, 3, ... as long as each is new to the table.  When
    the byte embedded in the object differs from that id modulo 255,
    [read_old_address] fails on its [assert]; when they agree, a call that
    returns has stored the address under that id and nothing else, and it
    does return for an IPv4 and for an IPv6 address that [inet_ntop]
    prints. *)
Theorem read_old_address_checks_id r id_mod typ rest :
  fd r = id_mod :: typ :: rest →
  ((Z.of_nat (size (address_ref r)) + 1) mod 255 ≠ ord id_mod →
     read_old_address r = Raise (AssertionError assert_addr_id))
  ∧ ((Z.of_nat (size (address_ref r)) + 1) mod 255 = ord id_mod →
       (∀ r', read_old_address r = Ok tt r' →
          (∃ quad, address_ref r'
                   = <[Z.of_nat (size (address_ref r)) + 1 := quad]> (address_ref r))
          ∧ (address_ref r !! (Z.of_nat (size (address_ref r)) + 1) = None →
             size (address_ref r') = S (size (address_ref r))))
       ∧ (∀ quad, ord typ = 0x01 → inet_ntop AF_INET (take 4 rest) = Some quad →
            read_old_address r
            = Ok tt (set_address_ref
                       (<[Z.of_nat (size (address_ref r)) + 1 := quad]> (address_ref r))
                       (set_fd (drop 4 rest) r)))
       ∧ (∀ quad, ord typ = 0x02 → inet_ntop AF_INET6 (take 16 rest) = Some quad →
            read_old_address r
            = Ok tt (set_address_ref
                       (<[Z.of_nat (size (address_ref r)) + 1 := quad]> (address_ref r))
                       (set_fd (drop 16 rest) r)))).
Proof.
  intros Hfd.
  assert (read_old_address r
    = (if negb ((Z.of_nat (size (address_ref r)) + 1) mod 255 =? ord id_mod)
       then raise (AssertionError assert_addr_id)
       else
         quad <- (if ord typ =? 0x01 then addr <- fd_read 4 ;; of_inet_ntop AF_INET addr
                  else if ord typ =? 0x02
                       then addr <- fd_read 16 ;; of_inet_ntop AF_INET6 addr
                       else raise (AssertionError assert_old_addr_type)) ;;
         r0 <- get ;;
         modify (set_address_ref
                   (<[Z.of_nat (size (address_ref r)) + 1 := quad]> (address_ref r0))))
      (set_fd rest r)) as ->.
  { unfold read_old_address. unfold bind at 1. unfold get.
    unfold bind at 1. rewrite (read_uint8_t_cons id_mod (typ :: rest) r Hfd).
    unfold bind at 1.
    by rewrite (read_uint8_t_cons typ rest (set_fd (typ :: rest) r)). }
  split.
  - intros Hne. apply Z.eqb_neq in Hne. by rewrite Hne.
  - intros Heq. pose proof Heq as Heqb. apply Z.eqb_eq in Heqb. rewrite Heqb.
    cbn [negb]. split; [|split].
    + intros r' (quad & r1 & Hquad & Hmod)%bind_Ok.
      unfold bind, get, modify in Hmod. injection Hmod as <-. simpl.
      assert (address_ref r1 = address_ref r) as ->;
        [|split; [by exists quad|by apply map_size_insert_None]].
      destruct (ord typ =? 1).
      { apply bind_Ok in Hquad as (addr & r2 & [= <- <-] & Hntop).
        unfold of_inet_ntop in Hntop. destruct (inet_ntop _ _); [|done].
        by injection Hntop as <- <-. }
      destruct (ord typ =? 2); [|done].
      apply bind_Ok in Hquad as (addr & r2 & [= <- <-] & Hntop).
      unfold of_inet_ntop in Hntop. destruct (inet_ntop _ _); [|done].
      by injection Hntop as <- <-.
    + intros quad Htyp Hntop. rewrite Htyp. cbn [Z.eqb Pos.eqb].
      unfold bind, fd_read, of_inet_ntop, get, modify. simpl. by rewrite Hntop.
    + intros quad Htyp Hntop. rewrite Htyp. cbn [Z.eqb Pos.eqb].
      unfold bind, fd_read, of_inet_ntop, get, modify. simpl. by rewrite Hntop.
Qed.

Lemma read_header_steady r obj len r' :
  read_header r = Ok (obj, len) r' → steady r r'.
Proof.
  intros [(_ & _ & _ & ->)|(Hl & _ & ->)]%read_header_Ok.
  - apply steady_set_fd. simpl. lia.
  - apply steady_set_fd. lia.
Qed.

Lemma processed_deprecated r objs r' :
  processed r objs r' →
  deprecated_addresses r' = deprecated_addresses r || bool_decide (0x05 ∈ objs).
Proof.
  induction 1 as [r|r objs r1 obj len r2 o r3 _ IH Hhdr Hobj Hdisp].
  - rewrite bool_decide_eq_false_2 by (by intros ?%elem_of_nil).
    by rewrite orb_false_r.
  - apply read_header_steady in Hhdr as (_ & Hd2 & _).
    destruct (decide (obj = 0x05)) as [->|Hne].
    + apply dispatch_deprecated_address in Hdisp as (-> & _).
      rewrite (bool_decide_eq_true_2 (5 ∈ objs ++ [5]))
        by (apply elem_of_app; right; by apply list_elem_of_singleton).
      by rewrite orb_true_r.
    + apply keeps_dispatch in Hdisp as (_ & Hd3 & _); [|done].
      simpl in Hd3. rewrite Hd3, Hd2, IH. f_equal.
      apply bool_decide_ext. rewrite elem_of_app, list_elem_of_singleton.
      split; [by left|by intros [?|?]].
Qed.

Lemma processed_address_ref r objs r' :
  processed r objs r' →
  deprecated_addresses r = true →
  deprecated_addresses r' = true ∧ dom (address_ref r) ⊆ dom (address_ref r').
Proof.
  induction 1 as [r|r objs r1 obj len r2 o r3 _ IH Hhdr Hobj Hdisp]; intros Hd.
  - done.
  - destruct (IH Hd) as [Hd1 Hsub].
    apply read_header_steady in Hhdr as (_ & Hd2 & Ha2).
    destruct (decide (obj = 0x05)) as [->|Hne].
    + apply dispatch_deprecated_address in Hdisp as (-> & _ & Ha3).
      split; [done|]. simpl in Ha3. etrans; [done|]. etrans; [by apply Ha2|].
      apply Ha3. congruence.
    + apply keeps_dispatch in Hdisp as (_ & Hd3 & Ha3); [|done]. simpl in *.
      split; [congruence|]. etrans; [done|]. etrans; [by apply Ha2|].
      apply Ha3. congruence.
Qed.

Lemma processed_first r obj len r1 o r2 objs r3 :
  read_header r = Ok (obj, len) r1 →
  obj ≠ -1 →
  dispatch obj (set_record_len len r1) = Ok o r2 →
  processed r2 objs r3 →
  processed r (obj :: objs) r3.
Proof.
  intros Hhdr Hobj Hdisp Hproc.
  induction Hproc as [r2|r2 objs r3 obj' len' r4 o' r5 _ IH Hhdr' Hobj' Hdisp'].
  - eapply (processed_more _ []); [apply processed_none|done..].
  - specialize (IH Hdisp). rewrite app_comm_cons. by eapply processed_more.
Qed.

(** The relation follows [next]: a call of [next] that returns has taken
    some objects one after the other and then either met the end of the
    file or returned the record of the last object. *)
Lemma next_loop_processed fuel r rec r' :
  next_loop fuel r = Ok rec r' →
  ∃ objs r1,
    processed r objs r1
    ∧ ((rec = EndOfFile ∧ (length (fd r1) < 8)%nat
        ∧ r' = set_record_len (-1) (set_fd [] r1))
       ∨ ((∃ flags children, rec = Decoded flags children) ∧ r' = r1)).
Proof.
  revert r. induction fuel as [|fuel IH]; intros r; simpl; [done|].
  intros ([obj len] & r1 & Hhdr & H)%bind_Ok.
  apply bind_Ok in H as ([] & r2 & [= <-] & H). simpl in H.
  destruct (obj =? -1) eqn:Hobj.
  - apply Z.eqb_eq in Hobj as ->. injection H as <- <-.
    apply read_header_Ok in Hhdr as [(Hlen & _ & -> & ->)|(_ & ? & _)]; [|lia].
    exists [], r. split; [apply processed_none|by left].
  - apply Z.eqb_neq in Hobj.
    apply bind_Ok in H as (o & r3 & Hdisp & H).
    destruct o as [rec'|].
    + injection H as <- <-. exists [obj], r3. split.
      * eapply (processed_more _ []); [apply processed_none|done..].
      * right. split; [|done]. unfold dispatch in Hdisp.
        repeat match type of Hdisp with
               | (if ?b then _ else _) _ = _ => destruct b
               end;
          repeat (apply bind_Ok in Hdisp as (? & ? & _ & Hdisp));
          unfold ret in Hdisp; simplify_eq; eauto.
    + apply IH in H as (objs & r4 & Hproc & Hcase).
      exists (obj :: objs), r4. split; [by eapply processed_first|done].
Qed.

(** C5: along a file, the reader is in the deprecated mode exactly when an
    object of type 5 is among the objects taken so far.  Outside that mode
    [read_trace] and [read_ping] start from the empty address table; in it
    they start from the table as it is, and whatever is taken from the file
    afterwards drops no id from the table.  The same holds of the reader
    [next] hands to them, behind the header of the next object, which
    carries the table the objects before it left. *)
Theorem address_ref_lifecycle contents objs r :
  processed (init contents) objs r →
  deprecated_addresses r = bool_decide (0x05 ∈ objs)
  ∧ (0x05 ∉ objs →
       read_trace r = read_trace_record (set_address_ref ∅ r)
       ∧ read_ping r = read_ping_record (set_address_ref ∅ r))
  ∧ (0x05 ∈ objs →
       read_trace r = read_trace_record r
       ∧ read_ping r = read_ping_record r
       ∧ ∀ objs' r', processed r objs' r' →
           deprecated_addresses r' = true
           ∧ dom (address_ref r) ⊆ dom (address_ref r'))
  ∧ (∀ obj len r1,
       read_header r = Ok (obj, len) r1 →
       address_ref (set_record_len len r1) = address_ref r
       ∧ (0x05 ∉ objs →
            read_trace (set_record_len len r1)
            = read_trace_record (set_address_ref ∅ (set_record_len len r1))
            ∧ read_ping (set_record_len len r1)
              = read_ping_record (set_address_ref ∅ (set_record_len len r1)))
       ∧ (0x05 ∈ objs →
            read_trace (set_record_len len r1)
            = read_trace_record (set_record_len len r1)
            ∧ read_ping (set_record_len len r1)
              = read_ping_record (set_record_len len r1))).
Proof.
  intros Hproc. pose proof (processed_deprecated _ _ _ Hproc) as Hd. simpl in Hd.
  split; [done|]. split; [|split].
  - intros Hnot. rewrite bool_decide_eq_false_2 in Hd by done.
    unfold read_trace, read_ping, bind. by rewrite clear_address_ref_Ok, Hd.
  - intros Hin. rewrite bool_decide_eq_true_2 in Hd by done.
    split; [|split].
    + unfold read_trace, bind. by rewrite clear_address_ref_Ok, Hd.
    + unfold read_ping, bind. by rewrite clear_address_ref_Ok, Hd.
    + intros objs' r' Hproc'. by apply (processed_address_ref _ _ _ Hproc').
  - intros obj len r1 Hhdr.
    assert (address_ref r1 = address_ref r
            ∧ deprecated_addresses r1 = deprecated_addresses r) as [Ha Hd1].
    { apply read_header_Ok in Hhdr as [(_ & _ & _ & ->)|(_ & _ & Hr1)]; [done|].
      by rewrite Hr1. }
    split; [done|]. split.
    + intros Hnot. rewrite bool_decide_eq_false_2 in Hd by done.
      unfold read_trace, read_ping, bind. rewrite clear_address_ref_Ok.
      cbn [deprecated_addresses set_record_len]. by rewrite Hd1, Hd.
    + intros Hin. rewrite bool_decide_eq_true_2 in Hd by done.
      unfold read_trace, read_ping, bind. rewrite clear_address_ref_Ok.
      cbn [deprecated_addresses set_record_len]. by rewrite Hd1, Hd.
Qed.

(** * More of the reader *)

(** ** Relations every method respects

    Most of what follows says that a part of the reader is only ever
    changed in a certain way.  The walk through the methods is the same
    each time, so it is done once, for a relation [R] that holds between
    the reader before and after each elementary change a method makes:
    moving forward in the stream, storing an embedded address under the id
    [len(table)], and so on.  Each lemma asks only for the changes its
    method makes. *)
Section Respects.

Variable R : WartsReader → WartsReader → Prop.
Hypothesis R_refl : ∀ r, R r r.
Hypothesis R_trans : ∀ r1 r2 r3, R r1 r2 → R r2 r3 → R r1 r3.
Hypothesis R_forward : ∀ n r, R r (set_fd (drop n (fd r)) r).
Hypothesis R_embed : ∀ v r,
  R r (set_address_ref (<[Z.of_nat (size (address_ref r)) := v]> (address_ref r)) r).
Hypothesis R_old : ∀ v r,
  R r (set_address_ref (<[Z.of_nat (size (address_ref r)) + 1 := v]> (address_ref r)) r).
Hypothesis R_clear : ∀ r,
  deprecated_addresses r = false → R r (set_address_ref ∅ r).
Hypothesis R_state : ∀ s r, R r (set_state s r).
Hypothesis R_record_len : ∀ n r, R r (set_record_len n r).
Hypothesis R_deprecated : ∀ r, R r (set_deprecated_addresses true r).

Lemma respects_ret {A} (a : A) : respects R (ret a).
Proof. intros r a' r' H. unfold ret in H. simplify_eq. apply R_refl. Qed.

Lemma respects_raise {A} e : respects R (@raise A e).
Proof. by intros r a r'. Qed.

Lemma respects_bind {A B} (m : M A) (k : A → M B) :
  respects R m → (∀ a, respects R (k a)) → respects R (bind m k).
Proof.
  intros Hm Hk r b r' (a & r1 & H1 & H2)%bind_Ok.
  eapply R_trans; [by eapply Hm|by eapply Hk].
Qed.

Lemma respects_get : respects R get.
Proof. intros r a r' H. unfold get in H. simplify_eq. apply R_refl. Qed.

Lemma respects_fd_read n : respects R (fd_read n).
Proof. intros r a r' H. unfold fd_read in H. simplify_eq. apply R_forward. Qed.

Lemma respects_of_unpack {A} (o : option A) : respects R (of_unpack o).
Proof. destruct o; [apply respects_ret|apply respects_raise]. Qed.

Lemma respects_of_inet_ntop af addr : respects R (of_inet_ntop af addr).
Proof.
  unfold of_inet_ntop.
  destruct (inet_ntop af addr); [apply respects_ret|apply respects_raise].
Qed.

Lemma respects_modify_state f : respects R (modify (λ r, set_state (f r) r)).
Proof. intros r a r' H. unfold modify in H. simplify_eq. apply R_state. Qed.

Create HintDb respects.
#[local] Hint Resolve respects_ret respects_raise respects_get respects_fd_read
  respects_of_unpack respects_of_inet_ntop respects_modify_state : respects.

Ltac respects_step :=
  match goal with
  | |- respects _ (bind _ _) => apply respects_bind; [|intros ?]
  | |- respects _ (if ?b then _ else _) => destruct b
  | |- respects _ (match ?o with Some _ => _ | None => _ end) => destruct o
  | |- respects _ _ => solve [eauto with respects]
  end.
Ltac respects_walk := repeat respects_step.

Lemma respects_read_uint8_t : respects R read_uint8_t.
Proof. unfold read_uint8_t. respects_walk. Qed.

Lemma respects_read_uint16_t : respects R read_uint16_t.
Proof. unfold read_uint16_t. respects_walk. Qed.

Lemma respects_read_uint32_t : respects R read_uint32_t.
Proof. unfold read_uint32_t. respects_walk. Qed.

#[local] Hint Resolve respects_read_uint8_t respects_read_uint16_t
  respects_read_uint32_t : respects.

Lemma respects_read_timeval : respects R read_timeval.
Proof. unfold read_timeval. respects_walk. Qed.

Lemma read_string_loop_drop l s s' l' :
  read_string_loop l s = (s', l') → ∃ n, l' = drop n l.
Proof.
  revert s. induction l as [|b l IH]; intros s; simpl.
  - intros [= _ <-]. by exists 0%nat.
  - destruct (ord b =? 0).
    + intros [= _ <-]. by exists 1%nat.
    + intros (n & ->)%IH. by exists (S n).
Qed.

Lemma respects_read_string : respects R read_string.
Proof.
  intros r s r'. unfold read_string.
  destruct (read_string_loop (fd r) []) as [s' l] eqn:Hloop.
  intros [= <- <-]. apply read_string_loop_drop in Hloop as (n & ->).
  apply R_forward.
Qed.

Lemma respects_read_address : respects R read_address.
Proof.
  unfold read_address. apply respects_bind; [eauto with respects|intros len].
  apply respects_bind.
  - destruct (negb _).
    + do 2 (apply respects_bind; [eauto with respects|intros ?]).
      intros r x r' H. unfold bind, get, modify, ret in H. simplify_eq.
      apply R_embed.
    + apply respects_bind; [eauto with respects|intros ?].
      apply respects_bind; [eauto with respects|intros r0].
      respects_walk.
  - intros [typ addr]. simpl. respects_walk.
Qed.

Lemma respects_read_referenced_address : respects R read_referenced_address.
Proof.
  unfold read_referenced_address.
  apply respects_bind; [eauto with respects|intros ?].
  apply respects_bind; [eauto with respects|intros r0]. respects_walk.
Qed.

Lemma respects_parse_mpls_icmpext ie : respects R (parse_mpls_icmpext ie).
Proof. unfold parse_mpls_icmpext. respects_walk. Qed.

#[local] Hint Resolve respects_read_timeval respects_read_string respects_read_address
  respects_read_referenced_address respects_parse_mpls_icmpext : respects.

Lemma respects_read_icmpext_mpls fuel ie_dl_read ret_string :
  respects R (read_icmpext_mpls fuel ie_dl_read ret_string).
Proof.
  revert ie_dl_read ret_string.
  induction fuel as [|fuel IH]; intros ie_dl_read ret_string; simpl.
  - destruct (4 <=? ie_dl_read); eauto with respects.
  - destruct (4 <=? ie_dl_read); [|eauto with respects].
    do 2 (apply respects_bind; [eauto with respects|intros ?]). apply IH.
Qed.

Lemma respects_read_icmpext_loop fuel tot_len ret_string :
  respects R (read_icmpext_loop fuel tot_len ret_string).
Proof.
  revert tot_len ret_string.
  induction fuel as [|fuel IH]; intros tot_len ret_string; simpl.
  - destruct (0 <? tot_len); eauto with respects.
  - destruct (0 <? tot_len); [|eauto with respects].
    do 3 (apply respects_bind; [eauto with respects|intros ?]).
    destruct (_ && _).
    + apply respects_bind; [apply respects_read_icmpext_mpls|intros ?]. apply IH.
    + respects_walk.
Qed.

Lemma respects_read_icmpext : respects R read_icmpext.
Proof.
  unfold read_icmpext. apply respects_bind; [eauto with respects|intros ?].
  apply respects_read_icmpext_loop.
Qed.

#[local] Hint Resolve respects_read_icmpext : respects.

Lemma respects_call cb : respects R (call cb).
Proof. destruct cb; simpl; respects_walk. Qed.

#[local] Hint Resolve respects_call : respects.

Lemma read_flags_bytes_drop l flags_set fs flag l' :
  read_flags_bytes l flags_set = Some (fs, flag, l') → ∃ n, l' = drop n l.
Proof.
  revert flags_set. induction l as [|b l IH]; intros flags_set; simpl; [done|].
  destruct (negb _).
  - intros [= _ _ <-]. by exists 1%nat.
  - intros (n & ->)%IH. by exists (S n).
Qed.

Lemma respects_read_flags_fields flag_defines flags_set i flags :
  respects R (read_flags_fields flag_defines flags_set i flags).
Proof.
  revert i flags. induction flags_set as [|b flags_set IH]; intros i flags; simpl.
  - eauto with respects.
  - destruct b; [|apply IH].
    destruct (flag_defines !! i) as [[fname cb]|]; [|eauto with respects].
    apply respects_bind; [eauto with respects|intros ?]. apply IH.
Qed.

Lemma respects_read_flags flag_defines : respects R (read_flags flag_defines).
Proof.
  intros r flags r'. unfold read_flags.
  destruct (read_flags_bytes (fd r) []) as [[[fs flag] l]|] eqn:Hbytes; [|done].
  apply read_flags_bytes_drop in Hbytes as (n & ->).
  intros H. eapply R_trans; [apply (R_forward n)|].
  revert H. generalize (set_fd (drop n (fd r)) r). intros r0.
  assert (respects R (if (0 <? flag) || (8 <? length fs)%nat
                      then paramlen <- read_uint16_t ;;
                           read_flags_fields flag_defines fs 0 ∅
                      else ret ∅)) as Hk; [|apply Hk].
  destruct (_ || _); [|eauto with respects].
  apply respects_bind; [eauto with respects|intros ?].
  apply respects_read_flags_fields.
Qed.

#[local] Hint Resolve respects_read_flags : respects.

Lemma respects_clear_address_ref : respects R clear_address_ref.
Proof.
  intros r a r' H. rewrite clear_address_ref_Ok in H.
  destruct (deprecated_addresses r) eqn:Hd; simplify_eq; [apply R_refl|by apply R_clear].
Qed.

Lemma respects_split_icmp hflags : respects R (split_icmp hflags).
Proof.
  unfold split_icmp. destruct (hflags !! _) as [[]|]; eauto with respects.
Qed.

#[local] Hint Resolve respects_clear_address_ref respects_split_icmp : respects.

Lemma respects_read_trace_hops records hops : respects R (read_trace_hops records hops).
Proof.
  revert hops. induction records as [|records IH]; intros hops; simpl.
  - eauto with respects.
  - apply respects_bind; [unfold read_trace_hop; respects_walk|intros ?]. apply IH.
Qed.

Lemma respects_read_ping_replies rcount pings :
  respects R (read_ping_replies rcount pings).
Proof.
  revert pings. induction rcount as [|rcount IH]; intros pings; simpl.
  - eauto with respects.
  - apply respects_bind; [eauto with respects|intros ?]. apply IH.
Qed.

#[local] Hint Resolve respects_read_trace_hops respects_read_ping_replies : respects.

Lemma respects_read_trace_record : respects R read_trace_record.
Proof. unfold read_trace_record. respects_walk. Qed.

Lemma respects_read_ping_record : respects R read_ping_record.
Proof. unfold read_ping_record. respects_walk. Qed.

Lemma respects_read_trace : respects R read_trace.
Proof. unfold read_trace, read_trace_record. respects_walk. Qed.

Lemma respects_read_ping : respects R read_ping.
Proof. unfold read_ping, read_ping_record. respects_walk. Qed.

Lemma respects_read_cycle_stop : respects R read_cycle_stop.
Proof. unfold read_cycle_stop. respects_walk. Qed.

Lemma respects_read_list : respects R read_list.
Proof. unfold read_list. respects_walk. Qed.

Lemma respects_read_cycle : respects R read_cycle.
Proof. unfold read_cycle. respects_walk. Qed.

Lemma respects_read_old_address : respects R read_old_address.
Proof.
  intros r [] r' H. unfold read_old_address in H.
  apply bind_Ok in H as (r0 & r0' & H0 & H). unfold get in H0.
  injection H0 as <- <-.
  apply bind_Ok in H as (id_mod & r1 & H1 & H).
  apply bind_Ok in H as (typ & r2 & H2 & H).
  destruct (negb _); [done|].
  apply bind_Ok in H as (quad & r3 & H3 & H).
  unfold bind, get, modify in H. injection H as <-.
  assert (respects R (if typ =? 0x01 then addr <- fd_read 4 ;; of_inet_ntop AF_INET addr
                      else if typ =? 0x02
                           then addr <- fd_read 16 ;; of_inet_ntop AF_INET6 addr
                           else raise (AssertionError assert_old_addr_type))) as Hq
    by respects_walk.
  assert (address_ref r3 = address_ref r) as Href.
  { apply read_uint8_t_Ok in H1 as (? & _ & _ & Hr1).
    apply read_uint8_t_Ok in H2 as (? & _ & _ & Hr2).
    transitivity (address_ref r2); [|by rewrite Hr2, Hr1].
    destruct (typ =? 1); [|destruct (typ =? 2); [|done]];
      apply bind_Ok in H3 as (addr & r4 & Hread & Hntop);
      unfold fd_read in Hread; unfold of_inet_ntop in Hntop;
      destruct (inet_ntop _ _); try done; unfold ret in Hntop; by simplify_eq. }
  apply Hq in H3. apply respects_read_uint8_t in H1, H2.
  eapply R_trans; [exact H1|]. eapply R_trans; [exact H2|].
  eapply R_trans; [exact H3|]. rewrite <- Href. apply R_old.
Qed.

#[local] Hint Resolve respects_read_trace respects_read_ping respects_read_cycle_stop
  respects_read_list respects_read_cycle respects_read_old_address : respects.

Lemma respects_read_header : respects R read_header.
Proof.
  unfold read_header. apply respects_bind; [eauto with respects|intros buf].
  destruct (negb _); [eauto with respects|].
  apply respects_bind; [eauto with respects|intros [[magic obj] len]].
  respects_walk.
Qed.

Lemma respects_dispatch obj : respects R (dispatch obj).
Proof.
  unfold dispatch.
  repeat match goal with |- respects _ (if ?b then _ else _) => destruct b end;
    try (respects_walk; fail).
  apply respects_bind; [|intros ?; respects_walk].
  intros r a r' H. unfold modify in H. simplify_eq. apply R_deprecated.
Qed.

Lemma respects_next_loop fuel : respects R (next_loop fuel).
Proof.
  induction fuel as [|fuel IH]; simpl; [apply respects_raise|].
  apply respects_bind; [apply respects_read_header|intros hdr].
  apply respects_bind.
  { intros r a r' H. unfold modify in H. simplify_eq. apply R_record_len. }
  intros _. destruct (fst hdr =? -1); [apply respects_ret|].
  apply respects_bind; [apply respects_dispatch|intros [rec|]];
    [apply respects_ret|apply IH].
Qed.

Lemma respects_next : respects R next.
Proof. intros r a r'. unfold next. apply respects_next_loop. Qed.

Lemma respects_main_loop fuel : respects R (main_loop fuel).
Proof.
  induction fuel as [|fuel IH]; simpl; [apply respects_raise|].
  apply respects_bind; [apply respects_next|intros [|flags hops]];
    [apply respects_ret|apply IH].
Qed.

End Respects.

(** ** The stream is only read forward *)

Lemma suffix_of_drop {A} n (l : list A) : drop n l `suffix_of` l.
Proof. exists (take n l). by rewrite take_drop. Qed.

(** X1: [next] only reads forward: the bytes left when it returns are a
    suffix of the bytes it started with, whatever objects it went through. *)
Theorem next_reads_forward r rec r' :
  next r = Ok rec r' → fd r' `suffix_of` fd r.
Proof.
  apply (respects_next (λ r r', fd r' `suffix_of` fd r)); try done.
  - intros r1 r2 r3 H12 H23. by etrans.
  - intros n r0. apply suffix_of_drop.
Qed.

Lemma read_flags_reads_forward flag_defines r flags r' :
  read_flags flag_defines r = Ok flags r' → fd r' `suffix_of` fd r.
Proof.
  apply (respects_read_flags (λ r r', fd r' `suffix_of` fd r)); try done.
  - intros r1 r2 r3 H12 H23. by etrans.
  - intros n r0. apply suffix_of_drop.
Qed.

(** ** The list and cycle state *)

Lemma dispatch_other_respects (R : WartsReader → WartsReader → Prop) obj :
  (∀ r, R r r) →
  (∀ r1 r2 r3, R r1 r2 → R r2 r3 → R r1 r3) →
  (∀ n r, R r (set_fd (drop n (fd r)) r)) →
  (∀ v r, R r (set_address_ref
                 (<[Z.of_nat (size (address_ref r)) := v]> (address_ref r)) r)) →
  (∀ v r, R r (set_address_ref
                 (<[Z.of_nat (size (address_ref r)) + 1 := v]> (address_ref r)) r)) →
  (∀ r, deprecated_addresses r = false → R r (set_address_ref ∅ r)) →
  (∀ r, R r (set_deprecated_addresses true r)) →
  obj ≠ 0x01 → obj ≠ 0x02 → obj ≠ 0x03 →
  respects R (dispatch obj).
Proof.
  intros Hrefl Htrans Hfwd Hembed Hold Hclear Hdep H1 H2 H3. unfold dispatch.
  destruct (obj =? 1) eqn:E1; [lia|]. destruct (obj =? 2) eqn:E2; [lia|].
  destruct (obj =? 3) eqn:E3; [lia|].
  destruct (obj =? 4).
  { apply (respects_bind R Htrans);
      [by apply (respects_read_cycle_stop R)|intros ?; apply (respects_ret R Hrefl)]. }
  destruct (obj =? 5).
  { apply (respects_bind R Htrans).
    { intros r a r' H. unfold modify in H. simplify_eq. apply Hdep. }
    intros _. apply (respects_bind R Htrans);
      [by apply (respects_read_old_address R)|intros ?; apply (respects_ret R Hrefl)]. }
  destruct (obj =? 6).
  { apply (respects_bind R Htrans);
      [by apply (respects_read_trace R)|intros ?; apply (respects_ret R Hrefl)]. }
  destruct (obj =? 7).
  { apply (respects_bind R Htrans);
      [by apply (respects_read_ping R)|intros ?; apply (respects_ret R Hrefl)]. }
  apply (respects_ret R Hrefl).
Qed.


Lemma reads_keep_state :
  respects (λ r r', state r' = state r) read_uint32_t
  ∧ respects (λ r r', state r' = state r) read_string
  ∧ ∀ flag_defines, respects (λ r r', state r' = state r) (read_flags flag_defines).
Proof.
  assert (∀ r1 r2 r3, state r2 = state r1 → state r3 = state r2 → state r3 = state r1)
    as Htrans by (intros; congruence).
  split; [by apply respects_read_uint32_t|].
  split; [by apply respects_read_string|].
  intros flag_defines. by apply respects_read_flags.
Qed.


(** ** Ids of embedded addresses *)

Lemma dense_empty : dense ∅.
Proof.
  intros k. rewrite lookup_empty, map_size_empty. split; [by intros [? ?]|lia].
Qed.

Lemma dense_fresh (m : gmap Z bytes) : dense m → m !! Z.of_nat (size m) = None.
Proof.
  intros Hm. destruct (m !! Z.of_nat (size m)) eqn:Hk; [|done].
  assert (is_Some (m !! Z.of_nat (size m))) as Hsome%Hm by eauto. lia.
Qed.

Lemma dense_insert (m : gmap Z bytes) v :
  dense m → dense (<[Z.of_nat (size m) := v]> m).
Proof.
  intros Hm k. rewrite map_size_insert_None by by apply dense_fresh.
  destruct (decide (Z.of_nat (size m) = k)) as [<-|Hne].
  - rewrite lookup_insert_eq. split; [lia|eauto].
  - rewrite lookup_insert_ne by done. rewrite (Hm k). lia.
Qed.

(** X4: outside the deprecated mode, the address table holds the ids
    0, 1, ..., n - 1 and nothing else when a trace or a ping has been
    decoded: each embedded address got the next id, in the order the
    addresses stand in the record. *)
Theorem record_address_ids_dense r x r' :
  deprecated_addresses r = false →
  read_trace r = Ok x r' ∨ read_ping r = Ok x r' →
  dense (address_ref r').
Proof.
  intros Hd H.
  assert (∀ r1 r2 r3 : WartsReader,
            (dense (address_ref r1) → dense (address_ref r2)) →
            (dense (address_ref r2) → dense (address_ref r3)) →
            dense (address_ref r1) → dense (address_ref r3)) as Htrans by auto.
  assert (∀ v r0, dense (address_ref r0) →
            dense (address_ref (set_address_ref
              (<[Z.of_nat (size (address_ref r0)) := v]> (address_ref r0)) r0)))
    as Hembed by (intros; by apply dense_insert).
  unfold read_trace, read_ping, bind in H. rewrite clear_address_ref_Ok, Hd in H.
  destruct H as [H|H].
  - apply (respects_read_trace_record
             (λ r r', dense (address_ref r) → dense (address_ref r'))) in H;
      try done. apply H, dense_empty.
  - apply (respects_read_ping_record
             (λ r r', dense (address_ref r) → dense (address_ref r'))) in H;
      try done. apply H, dense_empty.
Qed.

(** ** The loops end *)

Lemma read_icmpext_mpls_enough fuel fuel' ie_dl_read ret_string r :
  ie_dl_read ≤ Z.of_nat fuel → ie_dl_read ≤ Z.of_nat fuel' →
  read_icmpext_mpls fuel ie_dl_read ret_string r
  = read_icmpext_mpls fuel' ie_dl_read ret_string r.
Proof.
  revert fuel' ie_dl_read ret_string r.
  induction fuel as [|fuel IH]; intros fuel' ie_dl_read ret_string r Hle Hle'.
  - destruct fuel'; simpl; destruct (4 <=? ie_dl_read) eqn:H4; try done;
      apply Z.leb_le in H4; lia.
  - destruct fuel' as [|fuel']; simpl; destruct (4 <=? ie_dl_read) eqn:H4; try done.
    + apply Z.leb_le in H4. lia.
    + unfold bind. destruct (fd_read 4 r) as [buf r1|]; [|done].
      destruct (parse_mpls_icmpext buf r1) as [ext r2|]; [|done].
      apply IH; lia.
Qed.

Lemma read_icmpext_loop_enough fuel fuel' tot_len ret_string r :
  tot_len ≤ Z.of_nat fuel → tot_len ≤ Z.of_nat fuel' →
  read_icmpext_loop fuel tot_len ret_string r
  = read_icmpext_loop fuel' tot_len ret_string r.
Proof.
  revert fuel' tot_len ret_string r.
  induction fuel as [|fuel IH]; intros fuel' tot_len ret_string r Hle Hle'.
  - destruct fuel'; simpl; destruct (0 <? tot_len) eqn:H0; try done;
      apply Z.ltb_lt in H0; lia.
  - destruct fuel' as [|fuel']; simpl; destruct (0 <? tot_len) eqn:H0; try done.
    + apply Z.ltb_lt in H0. lia.
    + unfold bind. destruct (read_uint16_t r) as [ie_dl r1|] eqn:Hdl; [|done].
      apply read_uint16_t_range in Hdl.
      destruct (read_uint8_t r1) as [ie_cn r2|]; [|done].
      destruct (read_uint8_t r2) as [ie_ct r3|]; [|done].
      destruct (_ && _); [|done].
      destruct (read_icmpext_mpls _ _ _ _) as [s r4|]; [|done].
      apply IH; lia.
Qed.

(** X5: the two loops of [read_icmpext] end: a turn of the outer loop
    takes at least 4 off [tot_len] and a turn of the inner one 4 off what
    is left of [ie_dl], so [tot_len] turns are always enough, and with more
    turns allowed the result is the same. *)
Theorem read_icmpext_loops_end fuel tot_len ret_string r :
  tot_len ≤ Z.of_nat fuel →
  read_icmpext_loop fuel tot_len ret_string r
  = read_icmpext_loop (Z.to_nat tot_len) tot_len ret_string r
  ∧ read_icmpext_loop fuel tot_len ret_string r ≠ Raise OutOfFuel.
Proof.
  intros Hle. split.
  - apply read_icmpext_loop_enough; lia.
  - by apply read_icmpext_loop_fuel.
Qed.

Lemma next_loop_enough fuel fuel' r :
  (length (fd r) < fuel)%nat → (length (fd r) < fuel')%nat →
  next_loop fuel r = next_loop fuel' r.
Proof.
  revert fuel' r. induction fuel as [|fuel IH]; intros fuel' r Hlen Hlen'; [lia|].
  destruct fuel' as [|fuel']; [lia|]. simpl.
  unfold bind. destruct (read_header r) as [[obj len] r1|] eqn:Hhdr; [|done].
  simpl. destruct (obj =? -1) eqn:Hobj; [done|].
  apply read_header_Ok in Hhdr as [(_ & -> & _)|(Hl & _ & _)]; [done|].
  destruct (dispatch obj (set_record_len len r1)) as [o r2|] eqn:Hd; [|done].
  destruct o as [rec|]; [done|].
  assert ((length (fd r2) ≤ length (fd r1))%nat) as Hle.
  { destruct (Z.eq_dec obj 5) as [->|Hne].
    - by apply dispatch_deprecated_address in Hd as (_ & Hle & _).
    - by apply keeps_dispatch in Hd as (Hle & _). }
  apply IH; lia.
Qed.

(** X6: the [while True] loop of [next] ends: every turn but the last
    takes the eight bytes of a header off a stream that no parser makes
    longer, so one turn more than there are bytes left is always enough, and
    with more turns allowed the result is the same. *)
Theorem next_loop_ends fuel r :
  (length (fd r) < fuel)%nat →
  next_loop fuel r = next r ∧ next r ≠ Raise OutOfFuel.
Proof.
  intros Hlen. split.
  - unfold next. apply next_loop_enough; lia.
  - apply next_fuel.
Qed.

Lemma read_header_drop r obj len r' :
  read_header r = Ok (obj, len) r' → r' = set_fd (drop 8 (fd r)) r.
Proof.
  unfold read_header, bind, fd_read. destruct (negb _).
  - unfold ret. by intros [= _ _ <-].
  - destruct (unpack_HHI_be _) as [[[magic obj'] len']|]; simpl; [|done].
    destruct (magic =? 4613); [|done]. unfold ret. by intros [= _ _ <-].
Qed.

(** X7: an object of a type [next] does not know (any type but 1 to 7) is
    not skipped by the length its header gives: [next] reads the next
    header right behind the eight bytes of this one, in the body of the
    object. *)
Theorem next_unsupported_object r obj len r1 :
  read_header r = Ok (obj, len) r1 →
  obj ≠ -1 →
  ¬ (1 ≤ obj ≤ 7) →
  fd r1 = drop 8 (fd r)
  ∧ next r = next (set_record_len len r1).
Proof.
  intros Hhdr Hobj Hrange.
  pose proof Hhdr as [(_ & ? & _)|(Hl & _ & Hr1)]%read_header_Ok; [done|].
  split; [by rewrite (read_header_drop _ _ _ _ Hhdr)|].
  apply Z.eqb_neq in Hobj.
  assert (dispatch obj (set_record_len len r1) = Ok None (set_record_len len r1)) as Hd.
  { unfold dispatch.
    repeat match goal with
           | |- context [?a =? ?b] =>
               let E := fresh in destruct (a =? b) eqn:E; [apply Z.eqb_eq in E; lia|]
           end.
    done. }
  unfold next at 1.
  remember (length (fd r)) as fuel eqn:Hfuel.
  cbn [next_loop]. unfold bind. rewrite Hhdr. cbn [fst snd]. unfold modify.
  rewrite Hobj, Hd. unfold next. apply next_loop_enough; simpl; lia.
Qed.

Lemma processed_app r objs1 r1 objs2 r2 :
  processed r objs1 r1 → processed r1 objs2 r2 → processed r (objs1 ++ objs2) r2.
Proof.
  intros H1 H2. induction H2 as [r1|r1 objs2 r2 obj len r3 o r4 _ IH Hhdr Hobj Hd].
  - by rewrite app_nil_r.
  - rewrite app_assoc. eapply processed_more; [by apply IH|done..].
Qed.

Lemma next_loop_decoded_length fuel r flags hops r' :
  next_loop fuel r = Ok (Decoded flags hops) r' →
  (length (fd r') + 8 ≤ length (fd r))%nat.
Proof.
  revert r. induction fuel as [|fuel IH]; intros r; simpl; [done|].
  intros ([obj len] & r1 & Hhdr & H)%bind_Ok.
  apply bind_Ok in H as ([] & r2 & [= <-] & H). simpl in H.
  destruct (obj =? -1) eqn:Hobj; [done|].
  apply read_header_Ok in Hhdr as [(_ & -> & _)|(Hl & _ & _)]; [done|].
  apply bind_Ok in H as (o & r3 & Hd & H).
  assert ((length (fd r3) ≤ length (fd r1))%nat) as Hle.
  { destruct (Z.eq_dec obj 5) as [->|Hne].
    - by apply dispatch_deprecated_address in Hd as (_ & Hle & _).
    - by apply keeps_dispatch in Hd as (Hle & _). }
  destruct o as [rec|].
  - injection H as _ <-. lia.
  - apply IH in H. lia.
Qed.

Lemma main_loop_fuel fuel r :
  (length (fd r) < fuel)%nat → main_loop fuel r ≠ Raise OutOfFuel.
Proof.
  revert r. induction fuel as [|fuel IH]; intros r Hlen; [lia|]. simpl.
  intros [H|(rec & r1 & Hnext & H)]%bind_Raise; [by eapply next_fuel|].
  destruct rec as [|flags hops]; [done|]. revert H. apply IH.
  apply next_loop_decoded_length in Hnext. lia.
Qed.

Lemma main_loop_Ok fuel r r' :
  main_loop fuel r = Ok tt r' →
  ∃ objs r1, processed r objs r1
    ∧ (length (fd r1) < 8)%nat
    ∧ r' = set_record_len (-1) (set_fd [] r1).
Proof.
  revert r. induction fuel as [|fuel IH]; intros r; simpl; [done|].
  intros (rec & r1 & Hnext & H)%bind_Ok.
  apply next_loop_processed in Hnext
    as (objs & r2 & Hproc & [(-> & Hlen & ->)|((flags & hops & ->) & ->)]).
  - injection H as <-. by exists objs, r2.
  - apply IH in H as (objs' & r3 & Hproc' & Hlen & ->).
    exists (objs ++ objs'), r3. split; [by eapply processed_app|done].
Qed.

(** X8: the loop of [__main__] ends, and when it ends without an exception
    the whole file has been read: the objects were taken one after the
    other up to a point where fewer than eight bytes were left, and those
    bytes, too few for a header, were read and dropped without a word. *)
Theorem main_loop_ends fuel r :
  (length (fd r) < fuel)%nat →
  main_loop fuel r ≠ Raise OutOfFuel
  ∧ ∀ r', main_loop fuel r = Ok tt r' →
      fd r' = [] ∧ record_len r' = -1
      ∧ ∃ objs r1, processed r objs r1
          ∧ (length (fd r1) < 8)%nat
          ∧ r' = set_record_len (-1) (set_fd [] r1).
Proof.
  intros Hlen. split; [by apply main_loop_fuel|].
  intros r' H. pose proof (main_loop_Ok _ _ _ H) as (objs & r1 & Hproc & Hlen1 & ->).
  split; [done|]. split; [done|]. by exists objs, r1.
Qed.

(** ** Addresses *)

Lemma read_address_embedded r len typ addr rest :
  fd r = len :: typ :: addr ++ rest →
  ord len = Z.of_nat (length addr) →
  ord len ≠ 0 →
  read_address r
  = render_address (ord typ) addr
      (set_address_ref (<[Z.of_nat (size (address_ref r)) := addr]> (address_ref r))
         (set_fd rest r)).
Proof.
  intros Hfd Hlen Hne. unfold read_address.
  unfold bind at 1. rewrite (read_uint8_t_cons len (typ :: addr ++ rest) r Hfd).
  apply Z.eqb_neq in Hne. rewrite Hne. cbn [negb].
  unfold bind at 1. unfold bind at 1.
  rewrite (read_uint8_t_cons typ (addr ++ rest) (set_fd (typ :: addr ++ rest) r)) by done.
  unfold bind at 1. unfold fd_read. cbn [fd set_fd].
  rewrite Hlen, Nat2Z.id, take_app_length, drop_app_length.
  reflexivity.
Qed.

Lemma read_address_referenced r i0 i1 i2 i3 rest id :
  fd r = Byte.x00 :: i0 :: i1 :: i2 :: i3 :: rest →
  unpack_I_be [i0; i1; i2; i3] = Some id →
  read_address r
  = match address_ref r !! id with
    | Some addr => render_address 0 addr (set_fd rest r)
    | None => Raise (SystemExit exit_unknown_address)
    end.
Proof.
  intros Hfd Hid. unfold read_address.
  unfold bind at 1.
  rewrite (read_uint8_t_cons Byte.x00 (i0 :: i1 :: i2 :: i3 :: rest) r Hfd).
  change (ord Byte.x00 =? 0) with true. cbn [negb].
  unfold bind at 1. unfold bind at 1. unfold read_uint32_t, bind, fd_read.
  cbn [fd set_fd].
  change (take 4 (i0 :: i1 :: i2 :: i3 :: rest)) with [i0; i1; i2; i3].
  change (drop 4 (i0 :: i1 :: i2 :: i3 :: rest)) with rest.
  rewrite Hid. cbn [of_unpack]. unfold ret at 1. unfold get. cbn [address_ref set_fd].
  destruct (address_ref r !! id); reflexivity.
Qed.

Lemma render_address_Ok typ addr r s r' :
  render_address typ addr r = Ok s r' →
  r' = r ∧ ∀ r2, render_address typ addr r2 = Ok s r2.
Proof.
  unfold render_address, of_inet_ntop.
  repeat match goal with
         | |- context [if ?b then _ else _] => destruct b
         | |- context [inet_ntop ?af ?a] => destruct (inet_ntop af a)
         end; unfold ret, raise; intros H; by simplify_eq.
Qed.

(** The family taken from the length is the family of the type byte. *)
Lemma render_address_by_length typ addr r s r' :
  (∀ a q, inet_ntop AF_INET a = Some q → length a = 4%nat) →
  (∀ a q, inet_ntop AF_INET6 a = Some q → length a = 16%nat) →
  render_address typ addr r = Ok s r' →
  render_address 0 addr r = Ok s r'.
Proof.
  intros H4 H16. destruct (Z.eq_dec typ 0) as [->|Hne]; [done|].
  unfold render_address, of_inet_ntop. apply Z.eqb_neq in Hne. rewrite Hne.
  change (0 =? 0) with true. cbv iota.
  destruct (typ =? 1).
  - destruct (inet_ntop AF_INET addr) as [q|] eqn:Hq; [|done].
    by rewrite (H4 _ _ Hq).
  - destruct (typ =? 2); [|done].
    destruct (inet_ntop AF_INET6 addr) as [q|] eqn:Hq; [|done].
    by rewrite (H16 _ _ Hq).
Qed.

(** X9: an address read from the record itself is stored under the id
    [len(table)], and reading a reference to that id afterwards, while the
    entry is still there, gives the same text as the first read gave: the
    family the first read took from the type byte is the one the second
    takes from the length of the stored address.  ([inet_ntop] accepts 4
    bytes for an IPv4 and 16 bytes for an IPv6 address only.) *)
Theorem read_address_round_trip r len typ addr rest s r1 r2 i0 i1 i2 i3 rest2 :
  (∀ a q, inet_ntop AF_INET a = Some q → length a = 4%nat) →
  (∀ a q, inet_ntop AF_INET6 a = Some q → length a = 16%nat) →
  fd r = len :: typ :: addr ++ rest →
  ord len = Z.of_nat (length addr) →
  ord len ≠ 0 →
  read_address r = Ok s r1 →
  unpack_I_be [i0; i1; i2; i3] = Some (Z.of_nat (size (address_ref r))) →
  fd r2 = Byte.x00 :: i0 :: i1 :: i2 :: i3 :: rest2 →
  address_ref r2 !! Z.of_nat (size (address_ref r)) = Some addr →
  address_ref r1 !! Z.of_nat (size (address_ref r)) = Some addr
  ∧ fd r1 = rest
  ∧ read_address r2 = Ok s (set_fd rest2 r2).
Proof.
  intros H4 H16 Hfd Hlen Hne Hread Hid Hfd2 Href.
  rewrite (read_address_embedded r len typ addr rest Hfd Hlen Hne) in Hread.
  rewrite (read_address_referenced r2 i0 i1 i2 i3 rest2 _ Hfd2 Hid), Href.
  apply (render_address_by_length _ _ _ _ _ H4 H16) in Hread.
  apply render_address_Ok in Hread as [-> Hany].
  split; [apply lookup_insert_eq|]. split; [done|apply Hany].
Qed.

(** X10: the id an embedded address is stored under is [len(table)], taken
    or not.  When the table already holds that id, as it does after the
    deprecated address objects, which count from 1, the entry is replaced
    and the table grows by nothing. *)
Theorem read_address_embedded_replaces r len typ addr rest s r' :
  fd r = len :: typ :: addr ++ rest →
  ord len = Z.of_nat (length addr) →
  ord len ≠ 0 →
  is_Some (address_ref r !! Z.of_nat (size (address_ref r))) →
  read_address r = Ok s r' →
  address_ref r' = <[Z.of_nat (size (address_ref r)) := addr]> (address_ref r)
  ∧ address_ref r' !! Z.of_nat (size (address_ref r)) = Some addr
  ∧ size (address_ref r') = size (address_ref r).
Proof.
  intros Hfd Hlen Hne [old Hold] Hread.
  rewrite (read_address_embedded r len typ addr rest Hfd Hlen Hne) in Hread.
  assert (address_ref r'
          = <[Z.of_nat (size (address_ref r)) := addr]> (address_ref r)) as ->.
  { unfold render_address, of_inet_ntop in Hread.
    repeat match type of Hread with
           | context [if ?b then _ else _] => destruct b
           | context [inet_ntop ?af ?a] => destruct (inet_ntop af a)
           end; unfold ret in Hread; try done; by simplify_eq. }
  split; [done|]. split; [apply lookup_insert_eq|].
  by eapply map_size_insert_Some.
Qed.

Lemma read_uint32_t_address_ref r n r' :
  read_uint32_t r = Ok n r' → address_ref r' = address_ref r.
Proof.
  apply (respects_read_uint32_t (λ r r', address_ref r' = address_ref r)); try done.
  intros r1 r2 r3 H12 H23. congruence.
Qed.

Lemma read_referenced_address_empty r s r' :
  address_ref r = ∅ → read_referenced_address r ≠ Ok s r'.
Proof.
  intros Hempty (id & r1 & Hid%read_uint32_t_address_ref & H)%bind_Ok.
  unfold bind, get in H. rewrite Hid, Hempty, lookup_empty in H. done.
Qed.

Lemma read_flags_fields_past_uint32 flag_defines b flags_set i flags r x r' fname :
  flag_defines !! i = Some (fname, cb_read_uint32_t) →
  read_flags_fields flag_defines (b :: flags_set) i flags r = Ok x r' →
  ∃ flags1 r1,
    address_ref r1 = address_ref r
    ∧ read_flags_fields flag_defines flags_set (S i) flags1 r1 = Ok x r'.
Proof.
  intros Hdef. simpl. destruct b; [|by exists flags, r].
  rewrite Hdef. simpl.
  intros (v & r1 & Hv & H)%bind_Ok.
  apply bind_Ok in Hv as (n & r2 & Hn%read_uint32_t_address_ref & [= <- <-]).
  by exists (<[fname := VInt n]> flags), r2.
Qed.

Lemma read_flags_fields_at_reference flag_defines flags_set i flags r x r' fname :
  flag_defines !! i = Some (fname, cb_read_referenced_address) →
  address_ref r = ∅ →
  read_flags_fields flag_defines (true :: flags_set) i flags r ≠ Ok x r'.
Proof.
  intros Hdef Hempty. simpl. rewrite Hdef. simpl.
  intros (v & r1 & Hv & _)%bind_Ok.
  apply bind_Ok in Hv as (s & r2 & Hs & _).
  by eapply read_referenced_address_empty.
Qed.

(** A schema that starts like [trace_flags] and [ping_flags]: two integers,
    then the two address ids. *)
Lemma read_flags_fields_address_ids flag_defines flags_set flags r x r' n0 n1 n2 n3 :
  flag_defines !! 0%nat = Some (n0, cb_read_uint32_t) →
  flag_defines !! 1%nat = Some (n1, cb_read_uint32_t) →
  flag_defines !! 2%nat = Some (n2, cb_read_referenced_address) →
  flag_defines !! 3%nat = Some (n3, cb_read_referenced_address) →
  address_ref r = ∅ →
  flags_set !! 2%nat = Some true ∨ flags_set !! 3%nat = Some true →
  read_flags_fields flag_defines flags_set 0 flags r ≠ Ok x r'.
Proof.
  intros H0 H1 H2 H3 Hempty Hset H.
  destruct flags_set as [|b0 [|b1 [|b2 flags_set]]]; try (by destruct Hset).
  apply (read_flags_fields_past_uint32 _ _ _ _ _ _ _ _ _ H0) in H
    as (flags1 & r1 & Hr1 & H).
  apply (read_flags_fields_past_uint32 _ _ _ _ _ _ _ _ _ H1) in H
    as (flags2 & r2 & Hr2 & H).
  assert (address_ref r2 = ∅) as Hempty2 by congruence.
  destruct b2.
  { by eapply read_flags_fields_at_reference in H. }
  destruct Hset as [Hset|Hset]; [done|]. simpl in Hset.
  destruct flags_set as [|b3 flags_set]; [done|]. injection Hset as ->.
  simpl in H. by eapply read_flags_fields_at_reference in H.
Qed.

Lemma read_flags_address_ids flag_defines r fbytes rest x r' n0 n1 n2 n3 :
  flag_defines !! 0%nat = Some (n0, cb_read_uint32_t) →
  flag_defines !! 1%nat = Some (n1, cb_read_uint32_t) →
  flag_defines !! 2%nat = Some (n2, cb_read_referenced_address) →
  flag_defines !! 3%nat = Some (n3, cb_read_referenced_address) →
  address_ref r = ∅ →
  fd r = fbytes ++ rest →
  flag_sequence fbytes →
  flag_bits fbytes !! 2%nat = Some true ∨ flag_bits fbytes !! 3%nat = Some true →
  read_flags flag_defines r ≠ Ok x r'.
Proof.
  intros H0 H1 H2 H3 Hempty Hfd Hseq Hset Hread.
  apply read_flags_Ok in Hread
    as (front & final & rest0 & kvs & Hfd0 & Hfront & Hfinal & _ & _ & _ & Hyes & _).
  assert (front ++ [final] = fbytes ∧ rest0 = rest) as [<- ->].
  { apply flag_sequence_inj; [|by exists front, final|done].
    rewrite <- app_assoc. simpl. congruence. }
  destruct Hyes as (paramlen & r1 & Hparam & Hfields).
  { left. intros Hnil.
    assert (∃ i, flag_bits (front ++ [final]) !! i = Some true) as [i Hi]
      by (destruct Hset; eauto).
    assert (i ∈ set_positions 0 (flag_bits (front ++ [final]))) as Hin
      by (apply elem_of_set_positions; eauto).
    rewrite Hnil in Hin. by apply elem_of_nil in Hin. }
  revert Hfields. eapply read_flags_fields_address_ids; [done..| |done].
  apply read_uint16_t_Ok in Hparam as (? & ? & _ & _ & ->). done.
Qed.

(** X11: outside the deprecated mode a trace or a ping whose flags name
    its source or its destination by an address id ([srcipid], [dstipid],
    the third and fourth flag) is never decoded: the table was emptied at
    the start of the record and nothing in front of these two fields puts
    an address into it, so the id is not found. *)
Theorem record_address_ids_need_deprecated_mode r fbytes rest :
  deprecated_addresses r = false →
  fd r = fbytes ++ rest →
  flag_sequence fbytes →
  flag_bits fbytes !! 2%nat = Some true ∨ flag_bits fbytes !! 3%nat = Some true →
  (∀ x r', read_trace r ≠ Ok x r') ∧ (∀ x r', read_ping r ≠ Ok x r').
Proof.
  intros Hd Hfd Hseq Hset.
  split; intros x r' H; unfold read_trace, read_ping, bind in H;
    rewrite clear_address_ref_Ok, Hd in H.
  - unfold read_trace_record in H. apply bind_Ok in H as (flags & r1 & Hflags & _).
    revert Hflags. by eapply (read_flags_address_ids trace_flags).
  - unfold read_ping_record in H. apply bind_Ok in H as (flags & r1 & Hflags & _).
    revert Hflags. by eapply (read_flags_address_ids ping_flags).
Qed.

(** ** What a decoded record holds *)

Lemma backfill_dst src dst (flags : gmap string pyval) :
  is_Some (flags !! src) → is_Some (backfill src dst flags !! dst).
Proof.
  intros [v Hv]. unfold backfill. rewrite Hv.
  destruct (flags !! dst) eqn:Hdst; [by rewrite Hdst|].
  rewrite lookup_insert_eq. eauto.
Qed.

Lemma read_trace_hop_keys r hop r' :
  read_trace_hop r = Ok hop r' →
  is_Some (hop !! "ipid"%string)
  ∧ is_Some (hop !! "qttl"%string)
  ∧ hop !! "icmp"%string = None
  ∧ (is_Some (hop !! "addrid"%string) → is_Some (hop !! "addr"%string)).
Proof.
  intros (hflags & r1 & _ & Hsplit)%bind_Ok.
  apply split_icmp_Ok in Hsplit as (_ & Hgone & Hother & _).
  split; [|split; [|split; [done|]]].
  - rewrite Hother by done. rewrite lookup_default_to_ne by done.
    rewrite lookup_default_to. destruct (backfill _ _ _ !! _); by eexists.
  - rewrite Hother by done. rewrite lookup_default_to.
    destruct (default_to _ _ _ !! _); by eexists.
  - rewrite !Hother by done. rewrite !lookup_default_to_ne by done.
    rewrite lookup_backfill_ne by done. apply backfill_dst.
Qed.

Lemma read_trace_hops_Forall (P : gmap string pyval → Prop) records hops r hops' r' :
  (∀ r hop r', read_trace_hop r = Ok hop r' → P hop) →
  Forall P hops →
  read_trace_hops records hops r = Ok hops' r' →
  Forall P hops'.
Proof.
  intros HP. revert hops r. induction records as [|records IH]; intros hops r Hall; simpl.
  - by intros [= <- <-].
  - intros (hop & r1 & Hhop & H)%bind_Ok. eapply IH; [|done].
    apply Forall_app. split; [done|]. constructor; [by eapply HP|constructor].
Qed.

(** X12: in every trace [read_trace] returns, each hop has an [ipid] and a
    [qttl], has no [icmp] key, and has an [addr] whenever it has an
    [addrid]; and the trace has a [srcaddr] whenever it has a [srcipid], a
    [dstaddr] whenever it has a [dstipid]. *)
Theorem read_trace_keys r flags hops r' :
  read_trace r = Ok (flags, hops) r' →
  (is_Some (flags !! "srcipid"%string) → is_Some (flags !! "srcaddr"%string))
  ∧ (is_Some (flags !! "dstipid"%string) → is_Some (flags !! "dstaddr"%string))
  ∧ Forall (λ hop, is_Some (hop !! "ipid"%string)
                   ∧ is_Some (hop !! "qttl"%string)
                   ∧ hop !! "icmp"%string = None
                   ∧ (is_Some (hop !! "addrid"%string) →
                      is_Some (hop !! "addr"%string))) hops.
Proof.
  intros H. unfold read_trace, read_trace_record in H.
  apply bind_Ok in H as ([] & r0 & _ & H).
  apply bind_Ok in H as (flags0 & r1 & _ & H).
  apply bind_Ok in H as (records & r2 & _ & H).
  apply bind_Ok in H as (hops0 & r3 & Hhops & H).
  apply bind_Ok in H as (end_ & r4 & _ & H).
  destruct (end_ =? 0); [|done]. injection H as <- <- <-.
  split; [|split].
  - rewrite !(lookup_backfill_ne "dstipid" "dstaddr") by done.
    rewrite (lookup_backfill_ne "srcipid" "srcaddr" _ "srcipid") by done.
    apply backfill_dst.
  - rewrite (lookup_backfill_ne "dstipid" "dstaddr" _ "dstipid") by done.
    rewrite (lookup_backfill_ne "srcipid" "srcaddr" _ "dstipid") by done.
    intros Hsome. apply backfill_dst.
    by rewrite (lookup_backfill_ne "srcipid" "srcaddr" _ "dstipid").
  - eapply read_trace_hops_Forall; [|constructor|exact Hhops].
    apply read_trace_hop_keys.
Qed.

Lemma read_ping_replies_spec rcount pings r pings' r' :
  read_ping_replies rcount pings r = Ok pings' r' →
  ∃ replies, pings' = pings ++ replies
    ∧ length replies = rcount
    ∧ successively (λ ra ping rb, read_flags ping_reply_flags ra = Ok ping rb)
        r replies r'.
Proof.
  revert pings r. induction rcount as [|rcount IH]; intros pings r; simpl.
  - intros [= <- <-]. exists []. rewrite app_nil_r. repeat split. constructor.
  - intros (ping & r1 & Hping & H)%bind_Ok.
    apply IH in H as (replies & -> & Hlen & Hrun).
    exists (ping :: replies). rewrite <- app_assoc. split; [done|].
    split; [simpl; lia|]. by econstructor.
Qed.

(** X13: a ping that decodes has as many replies as the 16-bit count read
    after its flags says; its flags are the flag set [read_flags] returned
    for [ping_flags], and its replies are, in order, the flag sets
    [read_flags] returned for [ping_reply_flags], each read right behind
    the one before (nothing is filled in and the [icmp] of a reply is not
    split); nothing is read behind the last reply. *)
Theorem read_ping_reply_count r flags pings r' :
  read_ping r = Ok (flags, pings) r' →
  ∃ r0 r1 rcount r2,
    clear_address_ref r = Ok tt r0
    ∧ read_flags ping_flags r0 = Ok flags r1
    ∧ read_uint16_t r1 = Ok rcount r2
    ∧ Z.of_nat (length pings) = rcount
    ∧ successively (λ ra ping rb, read_flags ping_reply_flags ra = Ok ping rb)
        r2 pings r'.
Proof.
  intros H. unfold read_ping, read_ping_record in H.
  apply bind_Ok in H as ([] & r0 & Hclear & H).
  apply bind_Ok in H as (flags0 & r1 & Hflags & H).
  apply bind_Ok in H as (rcount & r2 & Hcount & H).
  apply bind_Ok in H as (pings0 & r3 & Hpings & H).
  injection H as <- <- <-.
  exists r0, r1, rcount, r2. split; [done|]. split; [done|]. split; [done|].
  apply read_uint16_t_range in Hcount.
  apply read_ping_replies_spec in Hpings as (replies & -> & Hlen & Hrun).
  simpl. split; [lia|done].
Qed.

(** ** Headers and integers *)

Lemma unpack_H_be_range buf n : unpack_H_be buf = Some n → 0 ≤ n < 65536.
Proof.
  destruct buf as [|b0 [|b1 [|]]]; try done. intros [= <-].
  pose proof (ord_range b0). pose proof (ord_range b1).
  rewrite Z.shiftl_mul_pow2 by lia.
  rewrite Z.lor_comm, (lor_low_mul (ord b1) (ord b0) 8) by lia. lia.
Qed.

Lemma unpack_I_be_value b0 b1 b2 b3 :
  unpack_I_be [b0; b1; b2; b3]
  = Some (ord b0 * 16777216 + ord b1 * 65536 + ord b2 * 256 + ord b3).
Proof.
  pose proof (ord_range b0). pose proof (ord_range b1).
  pose proof (ord_range b2). pose proof (ord_range b3).
  unfold unpack_I_be. f_equal. rewrite !Z.shiftl_mul_pow2 by lia.
  rewrite (Z.lor_comm (ord b2 * 2 ^ 8)), (lor_low_mul (ord b3) (ord b2) 8) by lia.
  rewrite (Z.lor_comm (ord b1 * 2 ^ 16)).
  replace (ord b1 * 2 ^ 16) with ((ord b1) * 2 ^ 16) by done.
  rewrite (lor_low_mul (ord b3 + ord b2 * 2 ^ 8) (ord b1) 16) by lia.
  rewrite (Z.lor_comm (ord b0 * 2 ^ 24)).
  rewrite (lor_low_mul (ord b3 + ord b2 * 2 ^ 8 + ord b1 * 2 ^ 16) (ord b0) 24) by lia.
  lia.
Qed.

(** X14: the integers come out of the stream most significant byte first
    and within their width: [read_uint8_t] gives the byte, [read_uint16_t]
    and [read_uint32_t] give the two and four bytes in base 256, and each
    leaves the reader right behind the bytes it took. *)
Theorem read_uint_values r :
  (∀ b0 l, fd r = b0 :: l →
     read_uint8_t r = Ok (ord b0) (set_fd l r) ∧ 0 ≤ ord b0 < 256)
  ∧ (∀ b0 b1 l, fd r = b0 :: b1 :: l →
       read_uint16_t r = Ok (ord b0 * 256 + ord b1) (set_fd l r)
       ∧ 0 ≤ ord b0 * 256 + ord b1 < 65536)
  ∧ (∀ b0 b1 b2 b3 l, fd r = b0 :: b1 :: b2 :: b3 :: l →
       read_uint32_t r
       = Ok (ord b0 * 16777216 + ord b1 * 65536 + ord b2 * 256 + ord b3) (set_fd l r)
       ∧ 0 ≤ ord b0 * 16777216 + ord b1 * 65536 + ord b2 * 256 + ord b3 < 4294967296).
Proof.
  split; [|split].
  - intros b0 l Hfd. split; [by apply read_uint8_t_cons|apply ord_range].
  - intros b0 b1 l Hfd. pose proof (ord_range b0). pose proof (ord_range b1).
    split; [|lia]. rewrite (read_uint16_t_cons b0 b1 l r Hfd). f_equal.
    rewrite Z.shiftl_mul_pow2 by lia.
    rewrite Z.lor_comm, (lor_low_mul (ord b1) (ord b0) 8) by lia. lia.
  - intros b0 b1 b2 b3 l Hfd. pose proof (ord_range b0). pose proof (ord_range b1).
    pose proof (ord_range b2). pose proof (ord_range b3).
    split; [|lia]. unfold read_uint32_t, bind, fd_read. rewrite Hfd.
    change (take 4 (b0 :: b1 :: b2 :: b3 :: l)) with [b0; b1; b2; b3].
    by rewrite unpack_I_be_value.
Qed.

(** X15: [read_header] hands back the type -1 at the end of the stream and
    only there: the type and the length of a header that was read are
    within 16 and 32 bits, so [next] cannot take an object for the end of
    the file; and a header whose first two bytes are not 0x1205 is refused
    on the [assert]. *)
Theorem read_header_sentinel r :
  (∀ obj len r', read_header r = Ok (obj, len) r' →
     (obj = -1 ↔ (length (fd r) < 8)%nat)
     ∧ (obj ≠ -1 → 0 ≤ obj < 65536 ∧ 0 ≤ len < 4294967296))
  ∧ (∀ m0 m1 rest, fd r = m0 :: m1 :: rest → (8 ≤ length (fd r))%nat →
       ord m0 * 256 + ord m1 ≠ 0x1205 →
       read_header r = Raise (AssertionError assert_magic)).
Proof.
  split.
  - intros obj len r' H.
    unfold read_header, bind, fd_read in H.
    destruct (length (take 8 (fd r)) =? 8)%nat eqn:Hlen; simpl in H.
    + apply Nat.eqb_eq in Hlen. rewrite length_take in Hlen.
      destruct (unpack_HHI_be _) as [[[magic obj'] len']|] eqn:Hunpack; simpl in H; [|done].
      destruct (magic =? 4613); [|done]. unfold ret in H. simplify_eq.
      unfold unpack_HHI_be in Hunpack.
      destruct (unpack_H_be (take 2 (take 8 (fd r)))); [|done].
      destruct (unpack_H_be (take 2 (drop 2 (take 8 (fd r))))) as [v|] eqn:Hv; [|done].
      destruct (unpack_I_be _) as [w|] eqn:Hw; [|done]. simplify_eq.
      apply unpack_H_be_range in Hv.
      assert (0 ≤ len < 4294967296) as Hrange.
      { destruct (drop 4 (take 8 (fd r))) as [|b0 [|b1 [|b2 [|b3 [|]]]]]; try done.
        rewrite unpack_I_be_value in Hw. simplify_eq.
        pose proof (ord_range b0). pose proof (ord_range b1).
        pose proof (ord_range b2). pose proof (ord_range b3). lia. }
      split; [split; lia|]. intros _. split; [lia|done].
    + apply Nat.eqb_neq in Hlen. rewrite length_take in Hlen.
      unfold ret in H. simplify_eq. split; [split; [lia|done]|done].
  - intros m0 m1 rest Hfd Hlen Hmagic.
    unfold read_header, bind, fd_read.
    rewrite length_take, Nat.min_l by lia. simpl.
    destruct (unpack_HHI_be _) as [[[magic obj] len]|] eqn:Hunpack; simpl.
    + unfold unpack_HHI_be in Hunpack. rewrite Hfd in Hunpack. simpl in Hunpack.
      destruct (unpack_H_be _); [|done]. destruct (unpack_I_be _); [|done].
      simplify_eq.
      pose proof (ord_range m0). pose proof (ord_range m1).
      rewrite Z.shiftl_mul_pow2, Z.lor_comm, (lor_low_mul (ord m1) (ord m0) 8) by lia.
      destruct (_ =? 4613) eqn:E; [apply Z.eqb_eq in E; lia|done].
    + exfalso. unfold unpack_HHI_be in Hunpack.
      destruct (fd r) as [|b0 [|b1 [|b2 [|b3 [|b4 [|b5 [|b6 [|b7 l]]]]]]]];
        simpl in Hlen; try lia. done.
Qed.

(** ** ICMP extensions, once more *)

Lemma mpls_text_snoc entries m :
  mpls_text (entries ++ [m]) = mpls_text entries ++ mpls_extension m ++ [Byte.x0a].
Proof.
  unfold mpls_text. rewrite flat_map_app. simpl. by rewrite app_nil_r.
Qed.

Lemma parse_mpls_icmpext_Ok ie r ext r' :
  parse_mpls_icmpext ie r = Ok ext r' → ∃ m, ext = mpls_extension m.
Proof.
  intros (u32 & r1 & _ & H)%bind_Ok. unfold ret in H. simplify_eq. eauto.
Qed.

Lemma read_icmpext_mpls_text fuel ie_dl_read entries r s r' :
  read_icmpext_mpls fuel ie_dl_read (mpls_text entries) r = Ok s r' →
  ∃ entries', s = mpls_text entries'.
Proof.
  revert ie_dl_read entries r.
  induction fuel as [|fuel IH]; intros ie_dl_read entries r; simpl.
  - destruct (4 <=? ie_dl_read); [done|]. intros [= <- <-]. eauto.
  - destruct (4 <=? ie_dl_read); [|intros [= <- <-]; eauto].
    intros (buf & r1 & _ & H)%bind_Ok.
    apply bind_Ok in H as (ext & r2 & (m & ->)%parse_mpls_icmpext_Ok & H).
    rewrite <- mpls_text_snoc in H. by eapply IH.
Qed.

Lemma read_icmpext_loop_text fuel tot_len entries r s r' :
  read_icmpext_loop fuel tot_len (mpls_text entries) r = Ok s r' →
  ∃ entries', s = mpls_text entries'.
Proof.
  revert tot_len entries r.
  induction fuel as [|fuel IH]; intros tot_len entries r; simpl.
  - destruct (0 <? tot_len); [done|]. intros [= <- <-]. eauto.
  - destruct (0 <? tot_len); [|intros [= <- <-]; eauto].
    intros (ie_dl & r1 & _ & H)%bind_Ok.
    apply bind_Ok in H as (ie_cn & r2 & _ & H).
    apply bind_Ok in H as (ie_ct & r3 & _ & H).
    destruct (_ && _).
    + apply bind_Ok in H as (s1 & r4 & (entries1 & ->)%read_icmpext_mpls_text & H).
      by eapply IH.
    + by apply bind_Ok in H as (buf & r4 & _ & H).
Qed.

(** X16: [read_icmpext] knows MPLS and nothing else.  What it returns is
    always the text of a list of label stack entries, one line each (none
    when the total length is 0); and as soon as it meets an extension whose
    class and type are not both 1, it ends the program, whatever the
    extension holds. *)
Theorem read_icmpext_only_mpls r :
  (∀ s r', read_icmpext r = Ok s r' → ∃ entries, s = mpls_text entries)
  ∧ (∀ t0 t1 d0 d1 cn ct rest,
       fd r = t0 :: t1 :: d0 :: d1 :: cn :: ct :: rest →
       0 < ord t0 * 256 + ord t1 →
       ¬ (ord cn = 1 ∧ ord ct = 1) →
       read_icmpext r = Raise (SystemExit exit_icmpext)).
Proof.
  split.
  - intros s r' (tot_len & r1 & _ & H)%bind_Ok.
    by apply (read_icmpext_loop_text _ _ []) in H.
  - intros t0 t1 d0 d1 cn ct rest Hfd Htot Hclass.
    pose proof (ord_range t0). pose proof (ord_range t1).
    unfold read_icmpext, bind at 1.
    rewrite (read_uint16_t_cons t0 t1 _ r Hfd).
    assert (Z.lor (Z.shiftl (ord t0) 8) (ord t1) = ord t0 * 256 + ord t1) as ->.
    { rewrite Z.shiftl_mul_pow2 by lia.
      rewrite Z.lor_comm, (lor_low_mul (ord t1) (ord t0) 8) by lia. lia. }
    destruct (Z.to_nat (ord t0 * 256 + ord t1)) as [|fuel] eqn:Hfuel; [lia|].
    cbn [read_icmpext_loop].
    assert ((0 <? ord t0 * 256 + ord t1) = true) as -> by (apply Z.ltb_lt; lia).
    unfold bind at 1.
    rewrite (read_uint16_t_cons d0 d1 (cn :: ct :: rest)
               (set_fd (d0 :: d1 :: cn :: ct :: rest) r)) by done.
    unfold bind at 1.
    rewrite (read_uint8_t_cons cn (ct :: rest)
               (set_fd (cn :: ct :: rest) (set_fd (d0 :: d1 :: cn :: ct :: rest) r)))
      by done.
    unfold bind at 1.
    rewrite (read_uint8_t_cons ct rest
               (set_fd (ct :: rest) (set_fd (cn :: ct :: rest)
                  (set_fd (d0 :: d1 :: cn :: ct :: rest) r)))) by done.
    assert ((ord cn =? 1) && (ord ct =? 1) = false) as ->.
    { apply andb_false_iff.
      destruct (Z.eq_dec (ord cn) 1) as [Hcn|Hcn];
        [right; apply Z.eqb_neq; tauto|left; by apply Z.eqb_neq]. }
    done.
Qed.

(** ** [hexdump] *)

Lemma ord_inj b1 b2 : ord b1 = ord b2 → b1 = b2.
Proof.
  unfold ord. intros H%N2Z.inj.
  assert (Some b1 = Some b2) as [= ->]; [|done].
  by rewrite <- !Byte.of_to_N, H.
Qed.

Lemma hex_digit_inj a b :
  0 ≤ a < 16 → 0 ≤ b < 16 → hex_digit a = hex_digit b → a = b.
Proof.
  intros Ha Hb.
  assert (a = 0 ∨ a = 1 ∨ a = 2 ∨ a = 3 ∨ a = 4 ∨ a = 5 ∨ a = 6 ∨ a = 7 ∨ a = 8
          ∨ a = 9 ∨ a = 10 ∨ a = 11 ∨ a = 12 ∨ a = 13 ∨ a = 14 ∨ a = 15) as Ha' by lia.
  assert (b = 0 ∨ b = 1 ∨ b = 2 ∨ b = 3 ∨ b = 4 ∨ b = 5 ∨ b = 6 ∨ b = 7 ∨ b = 8
          ∨ b = 9 ∨ b = 10 ∨ b = 11 ∨ b = 12 ∨ b = 13 ∨ b = 14 ∨ b = 15) as Hb' by lia.
  clear Ha Hb.
  repeat (destruct Ha' as [->|Ha']); try subst a;
    repeat (destruct Hb' as [->|Hb']); try subst b;
    vm_compute; intros H; first [reflexivity|discriminate H].
Qed.

(** X17: [hexdump] writes two characters for every byte, and two buffers
    with the same dump are the same buffer. *)
Theorem hexdump_faithful buf1 buf2 :
  length (hexdump buf1) = (2 * length buf1)%nat
  ∧ (hexdump buf1 = hexdump buf2 → buf1 = buf2).
Proof.
  clear inet_ntop. split.
  - induction buf1 as [|x buf1 IH]; [done|]. simpl. rewrite IH. lia.
  - revert buf2. induction buf1 as [|x buf1 IH]; intros [|y buf2]; try done.
    simpl. intros [= Hhi Hlo Hrest]. f_equal; [|by apply IH].
    pose proof (ord_range x). pose proof (ord_range y).
    apply hex_digit_inj in Hhi; [|Z.div_mod_to_equations; lia..].
    apply hex_digit_inj in Hlo; [|Z.div_mod_to_equations; lia..].
    apply ord_inj. Z.div_mod_to_equations. lia.
Qed.

End Warts.

(** * The properties on concrete streams *)

Import Byte.

Lemma read_flags_decodes_witness :
  read_flags Host.inet_ntop Host.little_endian hop_flags (init Samples.two_flag_bytes)
  = Ok Samples.two_fields (init [])
  ∧ ∃ positions kvs,
      StronglySorted lt positions
      ∧ (∀ i, i ∈ positions ↔ flag_bits [xc0; x04] !! i = Some true)
      ∧ Forall2 (λ i kv, ∃ cb, hop_flags !! i = Some (kv.1, cb)
                           ∧ ∃ ra rb, call Host.inet_ntop Host.little_endian cb ra
                                      = Ok kv.2 rb) positions kvs
      ∧ Samples.two_fields = assign_all kvs ∅.
Proof.
  assert (read_flags Host.inet_ntop Host.little_endian hop_flags
            (init Samples.two_flag_bytes)
          = Ok Samples.two_fields (init [])) as H by (vm_compute; reflexivity).
  split; [exact H|].
  destruct (read_flags_decodes Host.inet_ntop Host.little_endian hop_flags
              (init Samples.two_flag_bytes) [xc0; x04] [x00; x04; x08; x03; x12; x34]
              Samples.two_fields (init []))
    as (positions & kvs & Hsorted & Hpos & Hdom & Hall & Hflags & Hparam & Hnone).
  - reflexivity.
  - exists [xc0], x04. repeat split. constructor; [reflexivity|constructor].
  - exact H.
  - exists positions, kvs. auto.
Defined.

Lemma read_trace_hop_count_and_end_witness :
  (read_trace Host.inet_ntop Host.little_endian (init Samples.trace_one_hop)
   = Ok (∅, [Samples.hop_defaults]) (init [])
   ∧ ∃ r0 flags0 r1 records r2 r3,
       clear_address_ref (init Samples.trace_one_hop) = Ok tt r0
       ∧ read_flags Host.inet_ntop Host.little_endian trace_flags r0 = Ok flags0 r1
       ∧ read_uint16_t r1 = Ok records r2
       ∧ read_trace_hops Host.inet_ntop Host.little_endian (Z.to_nat records) [] r2
         = Ok [Samples.hop_defaults] r3
       ∧ Z.of_nat (length [Samples.hop_defaults]) = records
       ∧ read_uint16_t r3 = Ok 0 (init []))
  ∧ read_trace Host.inet_ntop Host.little_endian (init Samples.trace_bad_end)
    = Raise (AssertionError assert_trace_end).
Proof.
  split.
  - assert (read_trace Host.inet_ntop Host.little_endian (init Samples.trace_one_hop)
            = Ok (∅, [Samples.hop_defaults]) (init [])) as H
      by (vm_compute; reflexivity).
    split; [exact H|].
    exact (proj1 (read_trace_hop_count_and_end Host.inet_ntop Host.little_endian
                    (init Samples.trace_one_hop)) _ _ _ H).
  - eapply (proj2 (read_trace_hop_count_and_end Host.inet_ntop Host.little_endian
                     (init Samples.trace_bad_end))).
    + reflexivity.
    + vm_compute. reflexivity.
    + vm_compute. reflexivity.
    + vm_compute. reflexivity.
    + vm_compute. reflexivity.
    + vm_compute. discriminate.
Defined.

(** C3 as the specification has it fails on the two bytes "ab" with no
    null byte behind them: [read_string] returns "ab", it does not raise. *)
Lemma read_string_end_of_stream_counterexample :
  read_string (init [x61; x62]) = Ok [x61; x62] (init [])
  ∧ read_string (init [x61; x62]) ≠ Raise StructError.
Proof. split; [reflexivity|discriminate]. Qed.

Lemma read_trace_hop_defaults_and_icmp_witness :
  read_trace Host.inet_ntop Host.little_endian (init Samples.trace_two_hops)
  = Ok (∅, [Samples.hop_icmp_split; Samples.hop_defaults]) (init [])
  ∧ (Samples.hop_icmp_split !! "icmp-type"%string = Some (VInt 8)
     ∧ Samples.hop_icmp_split !! "icmp-code"%string = Some (VInt 3)
     ∧ Samples.hop_defaults !! "ipid"%string = Some (VInt 0)
     ∧ Samples.hop_defaults !! "qttl"%string = Some (VInt 1))
  ∧ ∃ r2 r3,
      read_uint16_t (init (drop 1 Samples.trace_two_hops)) = Ok 2 r2
      ∧ read_uint16_t r3 = Ok 0 (init [])
      ∧ successively
          (λ ra hop rb,
             ∃ fbytes rest hflags,
               fd ra = fbytes ++ rest
               ∧ flag_sequence fbytes
               ∧ read_flags Host.inet_ntop Host.little_endian hop_flags ra
                 = Ok hflags rb
               ∧ (flag_bits fbytes !! 9%nat ≠ Some true →
                    hop !! "ipid"%string = Some (VInt 0))
               ∧ (flag_bits fbytes !! 13%nat ≠ Some true →
                    hop !! "qttl"%string = Some (VInt 1))
               ∧ (flag_bits fbytes !! 6%nat = Some true →
                    ∃ icmp,
                      hflags !! "icmp"%string = Some (VInt icmp)
                      ∧ hop !! "icmp-type"%string = Some (VInt (Z.shiftr icmp 8))
                      ∧ hop !! "icmp-code"%string = Some (VInt (Z.land icmp 0xFF))
                      ∧ icmp = Z.shiftr icmp 8 * 256 + Z.land icmp 0xFF
                      ∧ 0 ≤ Z.shiftr icmp 8 < 256 ∧ 0 ≤ Z.land icmp 0xFF < 256))
          r2 [Samples.hop_icmp_split; Samples.hop_defaults] r3.
Proof.
  assert (read_trace Host.inet_ntop Host.little_endian (init Samples.trace_two_hops)
          = Ok (∅, [Samples.hop_icmp_split; Samples.hop_defaults]) (init [])) as H
    by (vm_compute; reflexivity).
  split; [exact H|].
  split; [vm_compute; repeat split|].
  destruct (read_trace_hop_defaults_and_icmp Host.inet_ntop Host.little_endian _ _ _ _ H)
    as (r0 & flags0 & r1 & records & r2 & r3 & Hclear & Hflags & Hcount & Hlen
        & Hend & Hrun).
  injection Hclear as <-.
  assert (read_flags Host.inet_ntop Host.little_endian trace_flags
            (init Samples.trace_two_hops)
          = Ok ∅ (init (drop 1 Samples.trace_two_hops))) as Hf
    by (vm_compute; reflexivity).
  assert (Ok flags0 r1 = Ok ∅ (init (drop 1 Samples.trace_two_hops))) as Heq
    by (rewrite <- Hflags; exact Hf).
  injection Heq as -> ->.
  simpl in Hlen. subst records.
  exists r2, r3. split; [exact Hcount|]. split; [exact Hend|exact Hrun].
Defined.

Lemma address_ref_lifecycle_witness :
  (processed Host.inet_ntop Host.little_endian (init Samples.two_traces_file) [0x06]
     Samples.after_first_trace
   ∧ deprecated_addresses Samples.after_first_trace = false
   ∧ size (address_ref Samples.after_first_trace) = 2%nat
   ∧ read_header Samples.after_first_trace
     = Ok (0x06, 6) (set_fd Samples.trace_one_hop Samples.after_first_trace)
   ∧ read_trace Host.inet_ntop Host.little_endian
       (set_record_len 6 (set_fd Samples.trace_one_hop Samples.after_first_trace))
     = Ok (∅, [Samples.hop_defaults]) (set_record_len 6 (init [])))
  ∧ (processed Host.inet_ntop Host.little_endian (init Samples.deprecated_trace_file)
       [0x05] (set_fd (drop 14 Samples.deprecated_trace_file) Samples.after_old_address)
     ∧ deprecated_addresses
         (set_fd (drop 14 Samples.deprecated_trace_file) Samples.after_old_address)
       = true
     ∧ read_header
         (set_fd (drop 14 Samples.deprecated_trace_file) Samples.after_old_address)
       = Ok (0x06, 18) (set_fd Samples.trace_referenced Samples.after_old_address)
     ∧ ∃ flags hop,
         read_trace Host.inet_ntop Host.little_endian
           (set_record_len 18
              (set_fd Samples.trace_referenced Samples.after_old_address))
         = Ok (flags, [hop]) (set_record_len 18 Samples.after_old_address)
         ∧ flags !! "srcaddr"%string = Some (VStr (pystr "192.0.2.1"))
         ∧ hop !! "addr"%string = Some (VStr (pystr "192.0.2.1"))).
Proof.
  split.
  - assert (processed Host.inet_ntop Host.little_endian (init Samples.two_traces_file)
              [0x06] Samples.after_first_trace) as H.
    { eapply (processed_more _ _ _ [] _ 0x06 22).
      - apply processed_none.
      - vm_compute. reflexivity.
      - discriminate.
      - vm_compute. reflexivity. }
    assert (read_header Samples.after_first_trace
            = Ok (0x06, 6) (set_fd Samples.trace_one_hop Samples.after_first_trace))
      as Hhdr by (vm_compute; reflexivity).
    destruct (address_ref_lifecycle _ _ _ _ _ H) as (Hd & _ & _ & Hnext).
    destruct (Hnext _ _ _ Hhdr) as (_ & Hnot & _).
    split; [exact H|]. split; [exact Hd|]. split; [vm_compute; reflexivity|].
    split; [exact Hhdr|].
    rewrite (proj1 (Hnot ltac:(intros [=]%list_elem_of_singleton))).
    vm_compute. reflexivity.
  - assert (processed Host.inet_ntop Host.little_endian
              (init Samples.deprecated_trace_file) [0x05]
              (set_fd (drop 14 Samples.deprecated_trace_file) Samples.after_old_address))
      as H.
    { eapply (processed_more _ _ _ [] _ 0x05 6).
      - apply processed_none.
      - vm_compute. reflexivity.
      - discriminate.
      - vm_compute. reflexivity. }
    assert (read_header
              (set_fd (drop 14 Samples.deprecated_trace_file) Samples.after_old_address)
            = Ok (0x06, 18) (set_fd Samples.trace_referenced Samples.after_old_address))
      as Hhdr by (vm_compute; reflexivity).
    destruct (address_ref_lifecycle _ _ _ _ _ H) as (Hd & _ & _ & Hnext).
    destruct (Hnext _ _ _ Hhdr) as (_ & _ & Hin).
    split; [exact H|]. split; [exact Hd|]. split; [exact Hhdr|].
    rewrite (proj1 (Hin ltac:(apply list_elem_of_singleton; reflexivity))).
    eexists _, _. split; [vm_compute; reflexivity|].
    split; vm_compute; reflexivity.
Defined.

Lemma read_icmpext_mpls_extension_witness :
  Host.little_endian = true
  ∧ parse_mpls_icmpext Host.little_endian [x12; x34; x56; x78] (init [])
    = Ok (pystr "mpls ext ttl: 120, s: 0, exp: 3, label: 74565") (init [])
  ∧ read_icmpext Host.little_endian (init Samples.icmpext_one_label)
    = Ok (pystr "mpls ext ttl: 120, s: 0, exp: 3, label: 74565" ++ [x0a]) (init []).
Proof.
  split; [reflexivity|]. split.
  - rewrite (proj1 (read_icmpext_mpls_extension Host.little_endian eq_refl)).
    vm_compute. reflexivity.
  - unfold read_icmpext, bind.
    rewrite (read_uint16_t_cons x00 x08 [x00; x04; x01; x01; x12; x34; x56; x78])
      by reflexivity.
    change (Z.to_nat (Z.lor (Z.shiftl (ord x00) 8) (ord x08))) with 8%nat.
    rewrite (proj2 (read_icmpext_mpls_extension Host.little_endian eq_refl)
               7%nat _ [] _ x00 x04 [(x12, x34, x56, x78)] []);
      [vm_compute; reflexivity|reflexivity|reflexivity
      |vm_compute; split; [discriminate|reflexivity]].
Defined.

Lemma read_old_address_checks_id_witness :
  read_old_address Host.inet_ntop (init Samples.old_address_id_2)
  = Raise (AssertionError assert_addr_id)
  ∧ read_old_address Host.inet_ntop (init Samples.old_address_id_1)
    = Ok tt (set_address_ref {[ 1 := pystr "192.0.2.1" ]} (init [])).
Proof.
  split.
  - apply (proj1 (read_old_address_checks_id Host.inet_ntop
                    (init Samples.old_address_id_2) x02 x01 [xc0; x00; x02; x01]
                    eq_refl)).
    vm_compute. discriminate.
  - rewrite (proj1 (proj2 (proj2 (read_old_address_checks_id Host.inet_ntop
               (init Samples.old_address_id_1) x01 x01 [xc0; x00; x02; x01]
               eq_refl) eq_refl)) (pystr "192.0.2.1") eq_refl eq_refl).
    vm_compute. reflexivity.
Defined.

Lemma read_flags_unknown_flag_witness :
  (∀ flags r',
     read_flags Host.inet_ntop Host.little_endian Samples.one_field
       (init Samples.flags_1_and_2) ≠ Ok flags r')
  ∧ read_flags Host.inet_ntop Host.little_endian Samples.one_field
      (init Samples.flags_1_and_2)
    = Raise (SystemExit exit_unknown_flag).
Proof.
  destruct (read_flags_unknown_flag Host.inet_ntop Host.little_endian
              Samples.one_field (init Samples.flags_1_and_2)
              [x03] [x00; x01; x2a] 1) as [Hnever Hexit].
  - reflexivity.
  - exists [], x03. repeat split. constructor.
  - reflexivity.
  - simpl. lia.
  - split; [exact Hnever|]. eapply Hexit.
    + vm_compute. reflexivity.
    + vm_compute. reflexivity.
Defined.

(** The flags are taken in ascending order: when the stream ends behind the
    parameter length, the read of the first field fails before the unknown
    second flag is looked at. *)
Example read_flags_cut_before_unknown_flag :
  read_flags Host.inet_ntop Host.little_endian Samples.one_field
    (init Samples.flags_1_and_2_cut)
  = Raise StructError.
Proof. vm_compute. reflexivity. Qed.

Lemma next_end_of_stream_witness :
  (read_header (init [x12; x05; x00]) = Ok (-1, -1) (init [])
   ∧ next Host.inet_ntop Host.little_endian (init [x12; x05; x00])
     = Ok EndOfFile (set_record_len (-1) (init [])))
  ∧ ∃ r2, next Host.inet_ntop Host.little_endian (init Samples.list_object_file)
          = Ok EndOfFile (set_record_len (-1) (set_fd [] r2))
          ∧ wlistid (state r2) = 1 ∧ listid (state r2) = 2 ∧ name (state r2) = [x64].
Proof.
  split.
  - apply (proj1 (next_end_of_stream Host.inet_ntop Host.little_endian
                    (init [x12; x05; x00]))).
    simpl. lia.
  - eexists. split.
    + eapply (proj2 (next_end_of_stream Host.inet_ntop Host.little_endian
                       (init Samples.list_object_file))).
      * vm_compute. reflexivity.
      * vm_compute. reflexivity.
      * simpl. lia.
    + vm_compute. repeat split.
Defined.

Lemma read_trace_hop_drops_icmp_witness :
  (read_trace Host.inet_ntop Host.little_endian (init Samples.trace_icmp_hop)
   = Ok (∅, [Samples.hop_icmp_split]) (init [])
   ∧ Samples.hop_icmp_split !! "icmp"%string = None
   ∧ ∃ r2 r3,
       read_uint16_t (init (drop 1 Samples.trace_icmp_hop)) = Ok 1 r2
       ∧ read_uint16_t r3 = Ok 0 (init [])
       ∧ successively
           (λ ra hop rb,
              ∃ hflags,
                read_flags Host.inet_ntop Host.little_endian hop_flags ra
                = Ok hflags rb
                ∧ hop !! "icmp"%string = None
                ∧ ∀ v, hflags !! "icmp"%string = Some v →
                    ∃ icmp, v = VInt icmp
                      ∧ hop !! "icmp-type"%string = Some (VInt (Z.shiftr icmp 8))
                      ∧ hop !! "icmp-code"%string = Some (VInt (Z.land icmp 0xFF)))
           r2 [Samples.hop_icmp_split] r3)
  ∧ (successively
       (λ ra hflags rb,
          read_flags Host.inet_ntop Host.little_endian hop_flags ra = Ok hflags rb)
       (init (drop 3 Samples.trace_icmp_hop))
       [<["icmp"%string := VInt 0x0803]> ∅]
       (init [x00; x00])
     ∧ ∃ flags hops,
         read_trace Host.inet_ntop Host.little_endian (init Samples.trace_icmp_hop)
         = Ok (flags, hops) (init [])).
Proof.
  split.
  - assert (read_trace Host.inet_ntop Host.little_endian (init Samples.trace_icmp_hop)
            = Ok (∅, [Samples.hop_icmp_split]) (init [])) as H
      by (vm_compute; reflexivity).
    split; [exact H|]. split; [vm_compute; reflexivity|].
    destruct (proj1 (read_trace_hop_drops_icmp Host.inet_ntop Host.little_endian
                       (init Samples.trace_icmp_hop)) _ _ _ H)
      as (r0 & flags0 & r1 & records & r2 & r3 & Hclear & Hflags & Hcount & Hlen
          & Hend & Hrun).
    injection Hclear as <-.
    assert (read_flags Host.inet_ntop Host.little_endian trace_flags
              (init Samples.trace_icmp_hop)
            = Ok ∅ (init (drop 1 Samples.trace_icmp_hop))) as Hf
      by (vm_compute; reflexivity).
    assert (Ok flags0 r1 = Ok ∅ (init (drop 1 Samples.trace_icmp_hop))) as Heq
      by (rewrite <- Hflags; exact Hf).
    injection Heq as -> ->.
    simpl in Hlen. subst records.
    exists r2, r3. split; [exact Hcount|]. split; [exact Hend|exact Hrun].
  - assert (successively
              (λ ra hflags rb,
                 read_flags Host.inet_ntop Host.little_endian hop_flags ra
                 = Ok hflags rb)
              (init (drop 3 Samples.trace_icmp_hop))
              [<["icmp"%string := VInt 0x0803]> ∅]
              (init [x00; x00])) as Hrun.
    { eapply successively_cons; [|apply successively_nil].
      vm_compute. reflexivity. }
    split; [exact Hrun|].
    eapply (proj2 (read_trace_hop_drops_icmp Host.inet_ntop Host.little_endian
                     (init Samples.trace_icmp_hop)) _ _ _ _ _ _ _ (init [])).
    + reflexivity.
    + vm_compute. reflexivity.
    + vm_compute. reflexivity.
    + exact Hrun.
    + reflexivity.
    + vm_compute. reflexivity.
Defined.

(** ** More of the reader, on the same host *)

Lemma next_reads_forward_witness :
  next Host.inet_ntop Host.little_endian (init Samples.trace_object_file)
  = Ok (Decoded ∅ [Samples.hop_defaults]) (set_record_len 6 (init [x12; x05]))
  ∧ [x12; x05] `suffix_of` Samples.trace_object_file.
Proof.
  assert (next Host.inet_ntop Host.little_endian (init Samples.trace_object_file)
          = Ok (Decoded ∅ [Samples.hop_defaults]) (set_record_len 6 (init [x12; x05])))
    as H by (vm_compute; reflexivity).
  split; [exact H|].
  exact (next_reads_forward Host.inet_ntop Host.little_endian _ _ _ H).
Defined.



Lemma record_address_ids_dense_witness :
  ∃ x r', read_trace Host.inet_ntop Host.little_endian (init Samples.trace_embedded)
          = Ok x r'
          ∧ address_ref r' = <[1 := [xc0; x00; x02; x02]]> Samples.table_id_0
          ∧ dense (address_ref r').
Proof.
  destruct (read_trace Host.inet_ntop Host.little_endian (init Samples.trace_embedded))
    as [x r'|e] eqn:H; [|vm_compute in H; discriminate H].
  exists x, r'. split; [reflexivity|]. split.
  - vm_compute in H. injection H as _ <-. vm_compute. reflexivity.
  - apply (record_address_ids_dense Host.inet_ntop Host.little_endian
             (init Samples.trace_embedded) x r'); [reflexivity|left; exact H].
Defined.

Lemma read_icmpext_loops_end_witness :
  read_icmpext_loop Host.little_endian 100 8 [] (init (drop 2 Samples.icmpext_one_label))
  = read_icmpext_loop Host.little_endian (Z.to_nat 8) 8 []
      (init (drop 2 Samples.icmpext_one_label))
  ∧ read_icmpext_loop Host.little_endian 100 8 [] (init (drop 2 Samples.icmpext_one_label))
    ≠ Raise OutOfFuel.
Proof.
  apply (read_icmpext_loops_end Host.little_endian 100 8 []). lia.
Defined.

Lemma next_loop_ends_witness :
  next_loop Host.inet_ntop Host.little_endian 100 (init Samples.trace_object_file)
  = next Host.inet_ntop Host.little_endian (init Samples.trace_object_file)
  ∧ next Host.inet_ntop Host.little_endian (init Samples.trace_object_file)
    ≠ Raise OutOfFuel.
Proof.
  apply (next_loop_ends Host.inet_ntop Host.little_endian 100). simpl. lia.
Defined.

Lemma next_unsupported_object_witness :
  read_header (init Samples.unsupported_with_body_file)
  = Ok (8, 19) (init Samples.list_object_file)
  ∧ next Host.inet_ntop Host.little_endian (init Samples.unsupported_with_body_file)
    = next Host.inet_ntop Host.little_endian
        (set_record_len 19 (init Samples.list_object_file))
  ∧ ∃ r', next Host.inet_ntop Host.little_endian
            (init Samples.unsupported_with_body_file)
          = Ok EndOfFile r'
          ∧ wlistid (state r') = 1 ∧ listid (state r') = 2 ∧ name (state r') = [x64].
Proof.
  assert (read_header (init Samples.unsupported_with_body_file)
          = Ok (8, 19) (init Samples.list_object_file))
    as H by (vm_compute; reflexivity).
  split; [exact H|].
  destruct (next_unsupported_object Host.inet_ntop Host.little_endian _ _ _ _ H)
    as [_ Hnext]; [lia..|].
  split; [exact Hnext|].
  rewrite Hnext. eexists. split; [vm_compute; reflexivity|].
  vm_compute. repeat split.
Defined.

Lemma main_loop_ends_witness :
  main_loop Host.inet_ntop Host.little_endian 17 (init Samples.trace_object_file)
  ≠ Raise OutOfFuel
  ∧ ∃ r', main Host.inet_ntop Host.little_endian Samples.trace_object_file = Ok tt r'
          ∧ fd r' = [] ∧ record_len r' = -1.
Proof.
  destruct (main_loop_ends Host.inet_ntop Host.little_endian 17
              (init Samples.trace_object_file)) as [Hfuel Hend]; [simpl; lia|].
  split; [exact Hfuel|].
  destruct (main Host.inet_ntop Host.little_endian Samples.trace_object_file)
    as [[] r'|e] eqn:H; [|vm_compute in H; discriminate H].
  exists r'. split; [reflexivity|].
  destruct (Hend r' H) as (Hfd & Hlen & _). split; [exact Hfd|exact Hlen].
Defined.

Lemma Host_inet_ntop_length :
  (∀ a q, Host.inet_ntop AF_INET a = Some q → length a = 4%nat)
  ∧ (∀ a q, Host.inet_ntop AF_INET6 a = Some q → length a = 16%nat).
Proof.
  split; intros a q; simpl.
  - destruct (length a =? 4)%nat eqn:E; [intros _; by apply Nat.eqb_eq|discriminate].
  - destruct (length a =? 16)%nat eqn:E; [intros _; by apply Nat.eqb_eq|discriminate].
Qed.

Lemma read_address_round_trip_witness :
  read_address Host.inet_ntop (init Samples.address_embedded)
  = Ok (pystr "192.0.2.1") (set_address_ref Samples.table_id_0 (init [x07]))
  ∧ Samples.table_id_0 !! 0 = Some [xc0; x00; x02; x01]
  ∧ read_address Host.inet_ntop
      (set_address_ref Samples.table_id_0 (init Samples.address_by_id_0))
    = Ok (pystr "192.0.2.1") (set_address_ref Samples.table_id_0 (init [x09])).
Proof.
  assert (read_address Host.inet_ntop (init Samples.address_embedded)
          = Ok (pystr "192.0.2.1") (set_address_ref Samples.table_id_0 (init [x07])))
    as H by (vm_compute; reflexivity).
  split; [exact H|].
  destruct (read_address_round_trip Host.inet_ntop (init Samples.address_embedded)
              x04 x01 [xc0; x00; x02; x01] [x07] _ _
              (set_address_ref Samples.table_id_0 (init Samples.address_by_id_0))
              x00 x00 x00 x00 [x09]
              (proj1 Host_inet_ntop_length) (proj2 Host_inet_ntop_length)
              eq_refl eq_refl ltac:(discriminate) H eq_refl eq_refl eq_refl)
    as (Htable & _ & Hagain).
  split; [exact Htable|exact Hagain].
Defined.

Lemma read_address_embedded_replaces_witness :
  is_Some (address_ref Samples.after_old_address !! 1)
  ∧ ∃ r', read_address Host.inet_ntop
            (set_fd [x04; x01; x0a; x00; x00; x01] Samples.after_old_address)
          = Ok (pystr "10.0.0.1") r'
          ∧ address_ref r' = <[1 := [x0a; x00; x00; x01]]> {[ 1 := pystr "192.0.2.1" ]}
          ∧ size (address_ref r') = 1%nat.
Proof.
  assert (is_Some (address_ref Samples.after_old_address !! 1)) as Hold
    by (eexists; vm_compute; reflexivity).
  split; [exact Hold|].
  destruct (read_address Host.inet_ntop
              (set_fd [x04; x01; x0a; x00; x00; x01] Samples.after_old_address))
    as [s r'|e] eqn:H; [|vm_compute in H; discriminate H].
  destruct (read_address_embedded_replaces Host.inet_ntop
              (set_fd [x04; x01; x0a; x00; x00; x01] Samples.after_old_address)
              x04 x01 [x0a; x00; x00; x01] [] s r' eq_refl eq_refl ltac:(discriminate)
              Hold H) as (Htable & _ & Hsize).
  exists r'. split; [|split; [exact Htable|exact Hsize]].
  vm_compute in H. injection H as <- _. reflexivity.
Defined.

Lemma record_address_ids_need_deprecated_mode_witness :
  (∀ x r', read_trace Host.inet_ntop Host.little_endian (init Samples.trace_referenced)
           ≠ Ok x r')
  ∧ (∀ x r', read_ping Host.inet_ntop Host.little_endian (init Samples.trace_referenced)
             ≠ Ok x r').
Proof.
  apply (record_address_ids_need_deprecated_mode Host.inet_ntop Host.little_endian
           (init Samples.trace_referenced) [x04] (drop 1 Samples.trace_referenced)).
  - reflexivity.
  - reflexivity.
  - exists [], x04. repeat split. constructor.
  - left. reflexivity.
Defined.

Lemma read_trace_keys_witness :
  ∃ flags hop r',
    read_trace Host.inet_ntop Host.little_endian
      (set_fd Samples.trace_referenced Samples.after_old_address)
    = Ok (flags, [hop]) r'
    ∧ is_Some (flags !! "srcipid"%string) ∧ is_Some (flags !! "srcaddr"%string)
    ∧ is_Some (hop !! "addrid"%string) ∧ is_Some (hop !! "addr"%string)
    ∧ is_Some (hop !! "ipid"%string) ∧ is_Some (hop !! "qttl"%string)
    ∧ hop !! "icmp"%string = None.
Proof.
  destruct (read_trace Host.inet_ntop Host.little_endian
              (set_fd Samples.trace_referenced Samples.after_old_address))
    as [[flags hops] r'|e] eqn:H; [|vm_compute in H; discriminate H].
  destruct (read_trace_keys Host.inet_ntop Host.little_endian _ _ _ _ H)
    as (Hsrc & _ & Hhops).
  assert (∃ hop, hops = [hop] ∧ is_Some (hop !! "addrid"%string)) as (hop & -> & Hid).
  { vm_compute in H. injection H as _ <- _. eexists. split; [reflexivity|].
    eexists. vm_compute. reflexivity. }
  assert (is_Some (flags !! "srcipid"%string)) as Hipid.
  { vm_compute in H. injection H as <- _ _. eexists. vm_compute. reflexivity. }
  exists flags, hop, r'. split; [reflexivity|].
  apply Forall_cons in Hhops as [(Hi & Hq & Hicmp & Haddr) _].
  split; [exact Hipid|]. split; [exact (Hsrc Hipid)|].
  split; [exact Hid|]. split; [exact (Haddr Hid)|].
  split; [exact Hi|]. split; [exact Hq|exact Hicmp].
Defined.

Lemma read_ping_reply_count_witness :
  read_ping Host.inet_ntop Host.little_endian (init Samples.ping_two_replies)
  = Ok (∅, [∅; <["flags"%string := VInt 64]> ∅]) (init [])
  ∧ ∃ r2,
      read_uint16_t (init (drop 1 Samples.ping_two_replies)) = Ok 2 r2
      ∧ successively
          (λ ra ping rb,
             read_flags Host.inet_ntop Host.little_endian ping_reply_flags ra
             = Ok ping rb)
          r2 [∅; <["flags"%string := VInt 64]> ∅] (init []).
Proof.
  assert (read_ping Host.inet_ntop Host.little_endian (init Samples.ping_two_replies)
          = Ok (∅, [∅; <["flags"%string := VInt 64]> ∅]) (init [])) as H
    by (vm_compute; reflexivity).
  split; [exact H|].
  destruct (read_ping_reply_count Host.inet_ntop Host.little_endian _ _ _ _ H)
    as (r0 & r1 & rcount & r2 & Hclear & Hflags & Hcount & Hlen & Hrun).
  injection Hclear as <-.
  assert (read_flags Host.inet_ntop Host.little_endian ping_flags
            (init Samples.ping_two_replies)
          = Ok ∅ (init (drop 1 Samples.ping_two_replies))) as Hf
    by (vm_compute; reflexivity).
  assert (Ok (∅ : gmap string pyval) r1
          = Ok ∅ (init (drop 1 Samples.ping_two_replies))) as Heq
    by (rewrite <- Hflags; exact Hf).
  injection Heq as ->.
  simpl in Hlen. subst rcount.
  exists r2. split; [exact Hcount|exact Hrun].
Defined.

Lemma read_uint_values_witness :
  read_uint8_t (init [x12; x34; x56; x78]) = Ok 0x12 (init [x34; x56; x78])
  ∧ read_uint16_t (init [x12; x34; x56; x78]) = Ok 0x1234 (init [x56; x78])
  ∧ read_uint32_t (init [x12; x34; x56; x78]) = Ok 0x12345678 (init []).
Proof.
  destruct (read_uint_values (init [x12; x34; x56; x78])) as (H8 & H16 & H32).
  split; [exact (proj1 (H8 _ _ eq_refl))|].
  split; [exact (proj1 (H16 _ _ _ eq_refl))|exact (proj1 (H32 _ _ _ _ _ eq_refl))].
Defined.

Lemma read_header_sentinel_witness :
  read_header (init Samples.bad_magic_file) = Raise (AssertionError assert_magic)
  ∧ read_header (init Samples.unsupported_object_file) = Ok (8, 0) (init [])
  ∧ 0 ≤ 8 < 65536.
Proof.
  split.
  - apply (proj2 (read_header_sentinel (init Samples.bad_magic_file))
             x12 x06 [x00; x01; x00; x00; x00; x00]).
    + reflexivity.
    + simpl. lia.
    + vm_compute. discriminate.
  - assert (read_header (init Samples.unsupported_object_file) = Ok (8, 0) (init []))
      as H by (vm_compute; reflexivity).
    split; [exact H|].
    apply (proj1 (read_header_sentinel (init Samples.unsupported_object_file)) _ _ _ H).
    discriminate.
Defined.

Lemma read_icmpext_only_mpls_witness :
  read_icmpext Host.little_endian (init Samples.icmpext_class_2)
  = Raise (SystemExit exit_icmpext)
  ∧ ∃ entries, pystr "mpls ext ttl: 120, s: 0, exp: 3, label: 74565" ++ [x0a]
               = mpls_text entries.
Proof.
  split.
  - apply (proj2 (read_icmpext_only_mpls Host.little_endian
                    (init Samples.icmpext_class_2))
             x00 x08 x00 x04 x02 x01 [x12; x34; x56; x78]).
    + reflexivity.
    + vm_compute. reflexivity.
    + vm_compute. intros [H _]. discriminate H.
  - apply (proj1 (read_icmpext_only_mpls Host.little_endian
                    (init Samples.icmpext_one_label)) _ (init [])).
    vm_compute. reflexivity.
Defined.

Lemma hexdump_faithful_witness :
  hexdump [x12; xab] = pystr "12ab" ∧ length (hexdump [x12; xab]) = 4%nat.
Proof.
  split; [vm_compute; reflexivity|].
  exact (proj1 (hexdump_faithful [x12; xab] [])).
Defined.
